(** * libsodium: the [sysrandom] random-bytes provider

    A shallow embedding of
    [src/libsodium/randombytes/sysrandom/randombytes_sysrandom.c]:
    the process-wide [stream] singleton, the POSIX drain loop [safe_read],
    the device probe, [stir], [close], [buf], the 32-bit sample and the
    rejection-sampled [uniform] in the POSIX build ([Posix]), and the
    same operations in the Windows build ([Win32]), where the source is
    acquired, read and released through the Windows cryptography calls.

    Data model (LP64 / two's complement, as on the hosts the file targets):
    [size_t] is 64 bits unsigned, [ssize_t] 64 bits signed, [uint32_t] and
    [int] are 32 bits.  Every conversion the C text performs is written
    out ([to_size_t], [to_ssize_t], [to_uint32]).

    The operating system is a script: what the successive [read], [open]
    and [close] calls are going to meet.  A call to [abort()] (and a failed
    [assert]) ends the run with [Aborted]; there is no state afterwards. *)

From Stdlib Require Import String ZArith List Bool Lia QArith Lqa.
From Stdlib.Strings Require Import Byte.
From Equations Require Import Equations.
Import ListNotations.
Local Open Scope Z_scope.

(* ------------------------------------------------------------------ *)
(** ** Machine integers *)

Definition SIZE_MAX : Z := 2 ^ 64 - 1.
Definition SSIZE_MAX : Z := 2 ^ 63 - 1.
Definition ULONG_LONG_MAX : Z := 2 ^ 64 - 1.
Definition UINT32_MAX : Z := 2 ^ 32 - 1.

(** Conversion to [size_t]: reduction modulo 2^64. *)
Definition to_size_t (z : Z) : Z := z mod 2 ^ 64.

(** Conversion to [ssize_t]: the two's complement reading of the low 64 bits. *)
Definition to_ssize_t (z : Z) : Z :=
  let u := z mod 2 ^ 64 in if u <? 2 ^ 63 then u else u - 2 ^ 64.

(** Conversion to [uint32_t]: reduction modulo 2^32. *)
Definition to_uint32 (z : Z) : Z := z mod 2 ^ 32.

(** Distinct [size_t] values convert to distinct [ssize_t] values. *)
Lemma to_ssize_t_inj a b :
  0 <= a < 2 ^ 64 -> 0 <= b < 2 ^ 64 -> to_ssize_t a = to_ssize_t b -> a = b.
Proof.
  unfold to_ssize_t. intros Ha Hb. rewrite !Z.mod_small by lia. cbv zeta.
  destruct (a <? 2 ^ 63) eqn:Ea, (b <? 2 ^ 63) eqn:Eb;
    try apply Z.ltb_lt in Ea; try apply Z.ltb_ge in Ea;
    try apply Z.ltb_lt in Eb; try apply Z.ltb_ge in Eb; lia.
Qed.

(** Exactly one [size_t] value converts to -1. *)
Lemma to_ssize_t_minus_one size :
  0 <= size < 2 ^ 64 -> (to_ssize_t size = -1 <-> size = SIZE_MAX).
Proof.
  unfold to_ssize_t, SIZE_MAX. intros Hs. rewrite Z.mod_small by lia. cbv zeta.
  destruct (size <? 2 ^ 63) eqn:E;
    [apply Z.ltb_lt in E | apply Z.ltb_ge in E]; lia.
Qed.

(** [errno] values; only [EINTR] is ever tested by the code. *)
Definition EINTR : Z := 4.
Definition EINVAL : Z := 22.

(* ------------------------------------------------------------------ *)
(** ** Bytes and buffers *)

Definition byte_val (b : byte) : Z := Z.of_N (Byte.to_N b).

(** The unsigned integer a byte string denotes, least significant byte first. *)
Fixpoint uint_of_bytes_le (bs : list byte) : Z :=
  match bs with
  | [] => 0
  | b :: tl => Z.lor (byte_val b) (Z.shiftl (uint_of_bytes_le tl) 8)
  end.

(** Reading a [uint32_t] object back from its four bytes, in the byte order
    of the host. *)
Definition load_uint32 (big_endian : bool) (bs : list byte) : Z :=
  to_uint32 (uint_of_bytes_le (if big_endian then rev bs else bs)).

(** [store mem off bs]: the buffer [mem] after [bs] has been written at byte
    offset [off]. *)
Definition store (mem : list byte) (off : Z) (bs : list byte) : list byte :=
  firstn (Z.to_nat off) mem ++ bs ++ skipn (Z.to_nat off + length bs) mem.

Definition inspect {A : Type} (a : A) : {b : A | a = b} := exist _ a eq_refl.

Lemma store_nil mem off : store mem off [] = mem.
Proof.
  unfold store. cbn [app length]. rewrite Nat.add_0_r. apply firstn_skipn.
Qed.

(** Two writes, the second right behind the first, are one write. *)
Lemma store_store mem off a b :
  0 <= off -> (Z.to_nat off <= length mem)%nat ->
  store (store mem off a) (off + Z.of_nat (length a)) b = store mem off (a ++ b).
Proof.
  intros Hoff Hfit. unfold store.
  replace (Z.to_nat (off + Z.of_nat (length a)))
    with (Z.to_nat off + length a)%nat by lia.
  set (X := firstn (Z.to_nat off) mem).
  assert (HX : length X = Z.to_nat off) by (unfold X; rewrite length_firstn; lia).
  rewrite (app_assoc X a).
  replace (Z.to_nat off + length a)%nat with (length (X ++ a) + 0)%nat at 1
    by (rewrite length_app; lia).
  rewrite firstn_app_2. cbn [firstn]. rewrite app_nil_r.
  rewrite skipn_app.
  rewrite (skipn_all2 (X ++ a)) by (rewrite length_app; lia).
  rewrite skipn_skipn. cbn [app].
  rewrite <- !app_assoc. do 3 f_equal.
  rewrite !length_app. f_equal. lia.
Qed.

(** A write at the start of a buffer that is long enough replaces its
    first bytes and leaves the others. *)
Lemma store_at_start mem bs :
  store mem 0 bs = bs ++ skipn (length bs) mem.
Proof. reflexivity. Qed.

Lemma firstn_plus {A : Type} (l : list A) (a b : nat) :
  firstn (a + b) l = firstn a l ++ firstn b (skipn a l).
Proof.
  revert l; induction a as [|a IH]; intros l; [reflexivity|].
  destruct l; cbn; [now rewrite firstn_nil | now rewrite IH].
Qed.

(* ------------------------------------------------------------------ *)
(** ** Runs that may abort *)

Inductive outcome (A : Type) : Type :=
| Returned (a : A)
| Aborted.
Arguments Returned {A} a.
Arguments Aborted {A}.

Section StateAbort.
Variable W : Type.

(** A computation over the world [W] that returns an [A] or aborts. *)
Definition M (A : Type) : Type := W -> outcome (A * W).

Definition ret {A : Type} (a : A) : M A := fun w => Returned (a, w).

Definition bind {A B : Type} (m : M A) (k : A -> M B) : M B :=
  fun w => match m w with
           | Returned (a, w') => k a w'
           | Aborted => Aborted
           end.

(** [abort()]. *)
Definition abort {A : Type} : M A := fun _ => Aborted.

(** [assert(c)]. *)
Definition assert_ (c : bool) : M unit := if c then ret tt else abort.

(** Running [m] [n] times in a row. *)
Fixpoint repeat_call (n : nat) (m : M unit) : M unit :=
  match n with
  | O => ret tt
  | S k => bind m (fun _ => repeat_call k m)
  end.
End StateAbort.

Arguments ret {W A} a.
Arguments bind {W A B} m k.
Arguments abort {W A}.
Arguments assert_ {W} c.
Arguments repeat_call {W} n m.

Declare Scope sys_scope.
Delimit Scope sys_scope with sys.
Notation "x <- m ;; k" := (bind m (fun x => k))
  (at level 61, m at next level, right associativity) : sys_scope.
Notation "m ;; k" := (bind m (fun _ => k))
  (at level 61, right associativity) : sys_scope.
Local Open Scope sys_scope.

(* ------------------------------------------------------------------ *)
(** ** The POSIX build *)

Module Posix.

(** One thing a [read] on the entropy descriptor can meet. *)
Inductive read_event : Type :=
| Deliver (bs : list byte)   (* bytes ready to be handed over; [] is end of file *)
| Errno (e : Z).              (* the call returns -1 with [errno = e] *)

(** The host: the paths [access] finds, and what the successive [open],
    [close] and [read] calls return. *)
Record OS : Type := mkOS {
  readable : list string;           (* the paths access(path, F_OK | R_OK) finds *)
  open_script : list Z;             (* results of the successive open() calls *)
  close_script : list Z;            (* results of the successive close() calls *)
  read_script : list read_event;    (* what the successive read() calls meet *)
  errno : Z;
  big_endian : bool;                (* byte order of the host *)
  use_blocking_random : bool        (* built with USE_BLOCKING_RANDOM *)
}.

(** [typedef struct SysRandom_ { int random_data_source_fd; bool initialized; }] *)
Record SysRandom : Type := mkSysRandom {
  random_data_source_fd : Z;
  initialized : bool
}.

(** [static SysRandom stream = { .random_data_source_fd = -1, .initialized = 0 }] *)
Definition stream_init : SysRandom :=
  {| random_data_source_fd := -1; initialized := false |}.

Record world : Type := mkWorld {
  stream : SysRandom;
  os : OS
}.

Definition set_read_script (o : OS) (s : list read_event) : OS :=
  mkOS (readable o) (open_script o) (close_script o) s (errno o) (big_endian o)
       (use_blocking_random o).

Definition set_errno (o : OS) (e : Z) : OS :=
  mkOS (readable o) (open_script o) (close_script o) (read_script o) e (big_endian o)
       (use_blocking_random o).

(** [access(path, F_OK | R_OK) == 0]. *)
Definition sys_access (path : string) (o : OS) : bool :=
  existsb (String.eqb path) (readable o).

(** [open(path, O_RDONLY)]: the next scripted result; with nothing scripted
    the call fails. *)
Definition sys_open (path : string) (o : OS) : Z * OS :=
  match open_script o with
  | [] => (-1, o)
  | fd :: rest =>
      (fd, mkOS (readable o) rest (close_script o) (read_script o) (errno o) (big_endian o)
       (use_blocking_random o))
  end.

(** [close(fd)]: the next scripted result; with nothing scripted the call
    succeeds. *)
Definition sys_close (fd : Z) (o : OS) : Z * OS :=
  match close_script o with
  | [] => (0, o)
  | r :: rest =>
      (r, mkOS (readable o) (open_script o) rest (read_script o) (errno o) (big_endian o)
       (use_blocking_random o))
  end.

(** The number of bytes one [read] of [count] bytes takes from a chunk
    [bs]: [count] arrives as a [size_t], and the result has to fit the
    [ssize_t] that [read] returns. *)
Definition read_amount (count : Z) (bs : list byte) : Z :=
  Z.min (Z.min (to_size_t count) (Z.of_nat (length bs))) SSIZE_MAX.

(** [read(fd, buf + off, count)], where [mem] is the object [buf] points
    into.  A [Deliver] hands over [read_amount] of its bytes and keeps the
    rest for the next call; an [Errno] returns -1 and sets [errno]; an
    exhausted script is end of file.  The result is the value returned, the
    buffer afterwards and the host afterwards.  The descriptor is not looked
    at: the script is what the reads of the provider meet, and the entropy
    device is the only thing the provider ever reads. *)
Definition sys_read (fd : Z) (mem : list byte) (off count : Z) (o : OS)
  : Z * list byte * OS :=
  match read_script o with
  | [] => (0, mem, o)
  | Errno e :: rest => (-1, mem, set_errno (set_read_script o rest) e)
  | Deliver bs :: rest =>
      let n := read_amount count bs in
      let got := firstn (Z.to_nat n) bs in
      let left := skipn (Z.to_nat n) bs in
      (n, store mem off got,
       set_read_script o (if n <? Z.of_nat (length bs)
                          then Deliver left :: rest
                          else rest))
  end.

(** What is left for later reads to consume: one unit per event and one per
    byte.  Every [read] that does not return 0 lowers it. *)
Fixpoint script_weight (s : list read_event) : nat :=
  match s with
  | [] => O
  | Deliver bs :: rest => S (length bs + script_weight rest)
  | Errno _ :: rest => S (script_weight rest)
  end.

Definition os_weight (o : OS) : nat := script_weight (read_script o).

(** The inner loop of [safe_read]:
    [while ((readnb = read(fd, buf, count)) < (ssize_t) 0 && errno == EINTR);]
    Every retry has used up an event of the script. *)
Equations? read_retry (fd : Z) (mem : list byte) (off count : Z) (o : OS)
  : Z * list byte * OS by wf (os_weight o) lt :=
  read_retry fd mem off count o with inspect (sys_read fd mem off count o) := {
    | exist _ (readnb, mem', o') Hread
        with inspect ((readnb <? 0) && (errno o' =? EINTR)) := {
        | exist _ true Hagain => read_retry fd mem' off count o'
        | exist _ false _ => (readnb, mem', o') } }.
Proof.
  unfold sys_read, os_weight in *.
  destruct (read_script o) as [|[bs|e] rest] eqn:Hs.
  - inversion Hread; subst. discriminate.
  - inversion Hread; subst.
    apply andb_prop in Hagain. destruct Hagain as [Hneg _].
    apply Z.ltb_lt in Hneg. unfold read_amount, to_size_t, SSIZE_MAX in Hneg.
    pose proof (Z.mod_pos_bound count (2 ^ 64) ltac:(lia)). lia.
  - inversion Hread; subst. simpl. lia.
Qed.

(** One [read]: the script never grows, and shrinks unless the call
    returned 0. *)
Lemma sys_read_weight fd mem off count o readnb mem' o' :
  sys_read fd mem off count o = (readnb, mem', o') ->
  (os_weight o' <= os_weight o)%nat /\
  (readnb <> 0 -> (os_weight o' < os_weight o)%nat).
Proof.
  unfold sys_read, os_weight. intros H.
  destruct (read_script o) as [|[bs|e] rest] eqn:Hs.
  - inversion H; subst. rewrite Hs. split; [lia | intros; lia].
  - inversion H; subst; clear H. cbn [read_script set_read_script].
    set (n := read_amount count bs).
    assert (Hn : 0 <= n <= Z.of_nat (length bs)).
    { unfold n, read_amount, to_size_t, SSIZE_MAX.
      pose proof (Z.mod_pos_bound count (2 ^ 64) ltac:(lia)). lia. }
    destruct (n <? Z.of_nat (length bs)) eqn:Hlt; cbn [script_weight].
    + rewrite length_skipn. split; [lia | intros; lia].
    + split; [lia | intros; lia].
  - inversion H; subst. cbn. split; [lia | intros; lia].
Qed.

Lemma read_retry_weight fd mem off count o readnb mem' o' :
  read_retry fd mem off count o = (readnb, mem', o') ->
  (os_weight o' <= os_weight o)%nat /\
  (readnb <> 0 -> (os_weight o' < os_weight o)%nat).
Proof.
  funelim (read_retry fd mem off count o); intros Hr.
  - destruct (sys_read_weight _ _ _ _ _ _ _ _ Hread) as [Hle Hlt].
    match goal with
    | IH : forall r m x, read_retry _ _ _ _ _ = _ -> _ |- _ =>
        destruct (IH _ _ _ Hr) as [IHle IHlt]
    end.
    split; [lia | intros Hne; specialize (IHlt Hne); lia].
  - inversion Hr; subst. eapply sys_read_weight; eauto.
Qed.

(** The [do]/[while (count > (ssize_t) 0)] loop of [safe_read]; [off] is the
    distance of the cursor [buf] from the start [buf_] of the object.  The
    result is the value returned, the buffer afterwards and the host
    afterwards. *)
Equations? safe_read_loop (fd : Z) (mem : list byte) (off count : Z) (o : OS)
  : Z * list byte * OS by wf (os_weight o) lt :=
  safe_read_loop fd mem off count o
    with inspect (read_retry fd mem off count o) := {
    | exist _ (readnb, mem', o') Hread with inspect (readnb <? 0) := {
        | exist _ true _ => (readnb, mem', o')
        | exist _ false _ with inspect (readnb =? 0) := {
            | exist _ true _ => (to_ssize_t off, mem', o')
            | exist _ false Hprogress
                with inspect (0 <? to_size_t (count - to_size_t readnb)) := {
                | exist _ true _ =>
                    safe_read_loop fd mem' (off + readnb)
                                   (to_size_t (count - to_size_t readnb)) o'
                | exist _ false _ => (to_ssize_t (off + readnb), mem', o') } } } }.
Proof.
  apply Z.eqb_neq in Hprogress.
  apply (read_retry_weight _ _ _ _ _ _ _ _ Hread). exact Hprogress.
Qed.

(** [static ssize_t safe_read(const int fd, void * const buf_, size_t count)] *)
Definition safe_read (fd : Z) (buf_ : list byte) (count : Z) (o : OS)
  : Z * list byte * OS :=
  safe_read_loop fd buf_ 0 count o.

(** The [devices] array of [randombytes_sysrandom_random_dev_open], without
    its terminating [NULL]. *)
Definition devices (blocking : bool) : list string :=
  if blocking then ["/dev/random"%string]
  else ["/dev/arandom"%string; "/dev/urandom"%string; "/dev/random"%string].

(** The probe loop: the first device [access] finds is opened, whatever
    [open] then returns. *)
Fixpoint probe_devices (devs : list string) (o : OS) : Z * OS :=
  match devs with
  | [] => (-1, o)
  | device :: more =>
      if sys_access device o then sys_open device o
      else probe_devices more o
  end.

Definition randombytes_sysrandom_random_dev_open (o : OS) : Z * OS :=
  probe_devices (devices (use_blocking_random o)) o.

(** Access to the two halves of the world. *)
Definition get_stream : M world SysRandom := fun w => Returned (stream w, w).
Definition get_os : M world OS := fun w => Returned (os w, w).

Definition set_fd (fd : Z) : M world unit :=
  fun w => Returned (tt, mkWorld (mkSysRandom fd (initialized (stream w))) (os w)).

Definition set_initialized (b : bool) : M world unit :=
  fun w => Returned (tt, mkWorld (mkSysRandom (random_data_source_fd (stream w)) b) (os w)).

Definition syscall {A : Type} (f : OS -> A * OS) : M world A :=
  fun w => let (a, o') := f (os w) in Returned (a, mkWorld (stream w) o').

(** [static void randombytes_sysrandom_init(void)] *)
Definition randombytes_sysrandom_init : M world unit :=
  fd <- syscall randombytes_sysrandom_random_dev_open ;;
  set_fd fd ;;
  if fd =? -1 then abort else ret tt.

(** [void randombytes_sysrandom_stir(void)] *)
Definition randombytes_sysrandom_stir : M world unit :=
  s <- get_stream ;;
  if negb (initialized s) then
    randombytes_sysrandom_init ;;
    set_initialized true
  else ret tt.

(** [static void randombytes_sysrandom_stir_if_needed(void)] *)
Definition randombytes_sysrandom_stir_if_needed : M world unit :=
  s <- get_stream ;;
  if negb (initialized s) then randombytes_sysrandom_stir else ret tt.

(** [int randombytes_sysrandom_close(void)] *)
Definition randombytes_sysrandom_close : M world Z :=
  s <- get_stream ;;
  if negb (random_data_source_fd s =? -1) then
    r <- syscall (sys_close (random_data_source_fd s)) ;;
    if r =? 0 then
      set_fd (-1) ;;
      set_initialized false ;;
      ret 0
    else ret (-1)
  else ret (-1).

(** [void randombytes_sysrandom_buf(void * const buf, const size_t size)];
    [buf] is the caller's object before the call, the value returned is the
    object afterwards.  The [assert] is compiled in where [ULONG_LONG_MAX]
    is defined; no [size_t] value fails it. *)
Definition randombytes_sysrandom_buf (buf : list byte) (size : Z)
  : M world (list byte) :=
  randombytes_sysrandom_stir_if_needed ;;
  assert_ (size <=? ULONG_LONG_MAX) ;;
  s <- get_stream ;;
  r <- syscall (fun o =>
         let '(n, buf', o') := safe_read (random_data_source_fd s) buf size o in
         ((n, buf'), o')) ;;
  if negb (fst r =? to_ssize_t size) then abort else ret (snd r).

(** The automatic [uint32_t r] of [randombytes_sysrandom] before it is
    filled: four bytes of no particular value. *)
Definition uint32_object : list byte := [x00; x00; x00; x00].

(** [uint32_t randombytes_sysrandom(void)] *)
Definition randombytes_sysrandom : M world Z :=
  randombytes_sysrandom_stir_if_needed ;;
  r <- randombytes_sysrandom_buf uint32_object 4 ;;
  o <- get_os ;;
  ret (load_uint32 (big_endian o) r).

(** *** What a run leaves in the read script *)

(** After [funelim], forget the packed equations of the [inspect] patterns;
    the plain ones stay. *)
Ltac drop_inspect :=
  repeat match goal with
         | H : @eq (sigma _) _ _ |- _ => clear H
         end.

Lemma safe_read_loop_weight fd mem off count o r mem' o' :
  safe_read_loop fd mem off count o = (r, mem', o') ->
  (os_weight o' <= os_weight o)%nat /\
  (0 <= r -> r <> to_ssize_t off -> (os_weight o' < os_weight o)%nat).
Proof.
  funelim (safe_read_loop fd mem off count o); intros Hr; drop_inspect;
    match goal with
    | Hrd : read_retry _ _ _ _ _ = _ |- _ =>
        destruct (read_retry_weight _ _ _ _ _ _ _ _ Hrd) as [Hle Hlt]
    end.
  - inversion Hr; subst. split; [exact Hle | intros Hpos _].
    match goal with Hn : (_ <? 0) = true |- _ => apply Z.ltb_lt in Hn end. lia.
  - inversion Hr; subst. split; [exact Hle | intros _ Hne]. congruence.
  - match goal with
    | Hz : (_ =? 0) = false |- _ => apply Z.eqb_neq in Hz; specialize (Hlt Hz)
    end.
    match goal with
    | IH : forall a b c, safe_read_loop _ _ _ _ _ = _ -> _ |- _ =>
        destruct (IH _ _ _ Hr) as [IHle _]
    end.
    split; [lia | intros; lia].
  - match goal with
    | Hz : (_ =? 0) = false |- _ => apply Z.eqb_neq in Hz; specialize (Hlt Hz)
    end.
    inversion Hr; subst. split; [lia | intros; lia].
Qed.

Lemma sys_open_read_script path o fd o' :
  sys_open path o = (fd, o') -> read_script o' = read_script o.
Proof.
  unfold sys_open. destruct (open_script o); intros H; inversion H; reflexivity.
Qed.

Lemma probe_devices_read_script devs o fd o' :
  probe_devices devs o = (fd, o') -> read_script o' = read_script o.
Proof.
  induction devs as [|d more IH]; simpl; intros H.
  - inversion H; reflexivity.
  - destruct (sys_access d o); [eapply sys_open_read_script; eauto | auto].
Qed.

(** [stir] on an initialised provider does nothing at all. *)
Lemma stir_initialized w :
  initialized (stream w) = true ->
  randombytes_sysrandom_stir w = Returned (tt, w).
Proof.
  intros Hi. unfold randombytes_sysrandom_stir, bind, get_stream.
  rewrite Hi. reflexivity.
Qed.

(** [stir] on an uninitialised provider probes the devices, aborts when
    that yields -1, and otherwise records the descriptor and sets the flag. *)
Lemma stir_uninitialized w :
  initialized (stream w) = false ->
  randombytes_sysrandom_stir w =
    let (fd, o') := randombytes_sysrandom_random_dev_open (os w) in
    if fd =? -1 then Aborted
    else Returned (tt, mkWorld (mkSysRandom fd true) o').
Proof.
  intros Hi.
  unfold randombytes_sysrandom_stir, randombytes_sysrandom_init, bind,
    get_stream, syscall, set_fd, set_initialized, abort, ret.
  rewrite Hi. cbn [negb].
  destruct (randombytes_sysrandom_random_dev_open (os w)) as [fd o'].
  destruct (fd =? -1); reflexivity.
Qed.

Lemma stir_if_needed_stir w :
  randombytes_sysrandom_stir_if_needed w = randombytes_sysrandom_stir w.
Proof.
  unfold randombytes_sysrandom_stir_if_needed, bind, get_stream.
  destruct (initialized (stream w)) eqn:Hi; cbn [negb]; [|reflexivity].
  now rewrite stir_initialized.
Qed.

Lemma stir_returned w u w' :
  randombytes_sysrandom_stir w = Returned (u, w') ->
  initialized (stream w') = true /\
  random_data_source_fd (stream w') <> -1 \/ w' = w.
Proof.
  destruct (initialized (stream w)) eqn:Hi.
  - rewrite stir_initialized by assumption. intros H; inversion H; auto.
  - rewrite stir_uninitialized by assumption.
    destruct (randombytes_sysrandom_random_dev_open (os w)) as [fd o'].
    destruct (fd =? -1) eqn:Hfd; [discriminate|].
    intros H; inversion H; subst. left. cbn. apply Z.eqb_neq in Hfd. auto.
Qed.

Lemma stir_sets_flag w u w' :
  randombytes_sysrandom_stir w = Returned (u, w') ->
  initialized (stream w') = true.
Proof.
  intros H. destruct (initialized (stream w)) eqn:Hi.
  - rewrite (stir_initialized _ Hi) in H. inversion H; subst. exact Hi.
  - rewrite (stir_uninitialized _ Hi) in H.
    destruct (randombytes_sysrandom_random_dev_open (os w)) as [fd o'].
    destruct (fd =? -1); [discriminate|].
    inversion H; subst. reflexivity.
Qed.

Lemma stir_read_script w u w' :
  randombytes_sysrandom_stir w = Returned (u, w') ->
  read_script (os w') = read_script (os w).
Proof.
  destruct (initialized (stream w)) eqn:Hi.
  - rewrite stir_initialized by assumption. intros H; inversion H; auto.
  - rewrite stir_uninitialized by assumption.
    destruct (randombytes_sysrandom_random_dev_open (os w)) as [fd o'] eqn:Ho.
    destruct (fd =? -1); [discriminate|].
    intros H; inversion H; subst. cbn.
    eapply probe_devices_read_script; exact Ho.
Qed.

(** What a returning [buf] did: initialise if needed, then one [safe_read]
    whose result is [(ssize_t) size]. *)
Lemma buf_returned buf size w buf' w' :
  randombytes_sysrandom_buf buf size w = Returned (buf', w') ->
  exists w1 o',
    randombytes_sysrandom_stir w = Returned (tt, w1) /\
    safe_read (random_data_source_fd (stream w1)) buf size (os w1)
      = (to_ssize_t size, buf', o') /\
    w' = mkWorld (stream w1) o'.
Proof.
  unfold randombytes_sysrandom_buf, bind. rewrite stir_if_needed_stir.
  destruct (randombytes_sysrandom_stir w) as [[[] w1]|]; [|discriminate].
  unfold assert_. destruct (size <=? ULONG_LONG_MAX); [|discriminate].
  unfold ret, get_stream, syscall, abort.
  destruct (safe_read _ buf size (os w1)) as [[n b1] o1] eqn:Hsr.
  cbn [fst snd]. destruct (n =? to_ssize_t size) eqn:Hn; cbn [negb]; [|discriminate].
  intros H; inversion H; subst. apply Z.eqb_eq in Hn; subst.
  exists w1, o1. auto.
Qed.

(** A 32-bit sample that is returned has used up part of the script. *)
Lemma randombytes_sysrandom_weight w r w' :
  randombytes_sysrandom w = Returned (r, w') ->
  (os_weight (os w') < os_weight (os w))%nat.
Proof.
  unfold randombytes_sysrandom, bind. rewrite stir_if_needed_stir.
  destruct (randombytes_sysrandom_stir w) as [[[] w1]|] eqn:Hs; [|discriminate].
  destruct (randombytes_sysrandom_buf uint32_object 4 w1) as [[b w2]|] eqn:Hb;
    [|discriminate].
  unfold get_os, ret. intros H; inversion H; subst; clear H.
  destruct (buf_returned _ _ _ _ _ Hb) as (w3 & o' & Hs3 & Hsr & ->).
  apply stir_read_script in Hs. apply stir_read_script in Hs3.
  apply safe_read_loop_weight in Hsr. destruct Hsr as [_ Hlt].
  cbn [os]. unfold os_weight in *. rewrite <- Hs, <- Hs3.
  apply Hlt; vm_compute; congruence.
Qed.

(** The [for (;;)] loop of [randombytes_sysrandom_uniform]: draw 32-bit
    samples until one is not below [min] (written [min_] here).  Against a
    scripted source the loop ends: every sample uses up part of the script,
    and once the script has run dry [randombytes_sysrandom_buf] aborts. *)
Equations? uniform_loop (min_ : Z) (w : world) : outcome (Z * world)
  by wf (os_weight (os w)) lt :=
  uniform_loop min_ w with inspect (randombytes_sysrandom w) := {
    | exist _ Aborted _ => Aborted
    | exist _ (Returned (r, w')) Hdraw with inspect (min_ <=? r) := {
        | exist _ true _ => Returned (r, w')
        | exist _ false _ => uniform_loop min_ w' } }.
Proof.
  eapply randombytes_sysrandom_weight; exact Hdraw.
Qed.

(** [min = (uint32_t) (-upper_bound % upper_bound)]: the negation is taken
    in [uint32_t], and so is the remainder. *)
Definition uniform_min (upper_bound : Z) : Z :=
  to_uint32 (to_uint32 (- upper_bound) mod upper_bound).

(** [uint32_t randombytes_sysrandom_uniform(const uint32_t upper_bound)] *)
Definition randombytes_sysrandom_uniform (upper_bound : Z) : M world Z :=
  if upper_bound <? 2 then ret 0
  else
    r <- uniform_loop (uniform_min upper_bound) ;;
    ret (r mod upper_bound).

(** [n] successive calls of [randombytes_sysrandom]: the first [n] 32-bit
    samples the provider draws from the entropy source. *)
Fixpoint draw (n : nat) : M world (list Z) :=
  match n with
  | O => ret []
  | S k =>
      r <- randombytes_sysrandom ;;
      rs <- draw k ;;
      ret (r :: rs)
  end.

(** [const char *randombytes_sysrandom_implementation_name(void)] *)
Definition randombytes_sysrandom_implementation_name : string := "sysrandom".

(** The public operations, as one type, and the run of one of them. *)
Inductive operation : Type :=
| OpStir
| OpRandom
| OpUniform (upper_bound : Z)
| OpBuf (buf : list byte) (size : Z)
| OpClose.

Definition run_operation (op : operation) (w : world) : outcome world :=
  match op with
  | OpStir =>
      match randombytes_sysrandom_stir w with
      | Returned (_, w') => Returned w' | Aborted => Aborted end
  | OpRandom =>
      match randombytes_sysrandom w with
      | Returned (_, w') => Returned w' | Aborted => Aborted end
  | OpUniform upper_bound =>
      match randombytes_sysrandom_uniform upper_bound w with
      | Returned (_, w') => Returned w' | Aborted => Aborted end
  | OpBuf buf size =>
      match randombytes_sysrandom_buf buf size w with
      | Returned (_, w') => Returned w' | Aborted => Aborted end
  | OpClose =>
      match randombytes_sysrandom_close w with
      | Returned (_, w') => Returned w' | Aborted => Aborted end
  end.

Fixpoint run_operations (ops : list operation) (w : world) : outcome world :=
  match ops with
  | [] => Returned w
  | op :: more =>
      match run_operation op w with
      | Returned w' => run_operations more w'
      | Aborted => Aborted
      end
  end.

(** [initialized == 1] exactly when [random_data_source_fd != -1]. *)
Definition stream_inv (s : SysRandom) : Prop :=
  initialized s = true <-> random_data_source_fd s <> -1.

(** A read event of a source that is delivering: a chunk of positive
    length, or an interruption ([errno == EINTR]). *)
Definition benign (e : read_event) : Prop :=
  match e with
  | Deliver bs => bs <> []
  | Errno e => e = EINTR
  end.

(** The concatenation of the chunks of a script. *)
Fixpoint delivered (s : list read_event) : list byte :=
  match s with
  | [] => []
  | Deliver bs :: rest => bs ++ delivered rest
  | Errno _ :: rest => delivered rest
  end.

(** Everything of the host that a [read] leaves alone. *)
Definition same_host (o o' : OS) : Prop :=
  readable o' = readable o /\ open_script o' = open_script o /\
  close_script o' = close_script o /\ big_endian o' = big_endian o /\
  use_blocking_random o' = use_blocking_random o.

(** The provider state is kept and the host is the same but for its reads. *)
Definition settled (w w' : world) : Prop :=
  stream w' = stream w /\ same_host (os w) (os w').

(** End of file: the script is exhausted, or its next event delivers
    nothing. *)
Definition at_eof (rest : list read_event) : Prop :=
  rest = [] \/ exists more, rest = Deliver [] :: more.

(** *** The loops, one iteration at a time *)

Lemma read_retry_step fd mem off count o :
  read_retry fd mem off count o =
    let '(readnb, mem', o') := sys_read fd mem off count o in
    if (readnb <? 0) && (errno o' =? EINTR)
    then read_retry fd mem' off count o'
    else (readnb, mem', o').
Proof.
  funelim (read_retry fd mem off count o); drop_inspect; rewrite Hread.
  - rewrite Hagain. reflexivity.
  - match goal with H : (_ && _) = false |- _ => rewrite H end. reflexivity.
Qed.

Lemma safe_read_loop_step fd mem off count o :
  safe_read_loop fd mem off count o =
    let '(readnb, mem', o') := read_retry fd mem off count o in
    if readnb <? 0 then (readnb, mem', o')
    else if readnb =? 0 then (to_ssize_t off, mem', o')
    else if 0 <? to_size_t (count - to_size_t readnb)
         then safe_read_loop fd mem' (off + readnb)
                             (to_size_t (count - to_size_t readnb)) o'
         else (to_ssize_t (off + readnb), mem', o').
Proof.
  funelim (safe_read_loop fd mem off count o); drop_inspect; rewrite Hread;
    repeat match goal with
           | H : _ = true |- _ => rewrite H
           | H : _ = false |- _ => rewrite H
           end;
    reflexivity.
Qed.

Lemma uniform_loop_step m w :
  uniform_loop m w =
    match randombytes_sysrandom w with
    | Aborted => Aborted
    | Returned (r, w') =>
        if m <=? r then Returned (r, w') else uniform_loop m w'
    end.
Proof.
  funelim (uniform_loop m w); drop_inspect;
    match goal with H : randombytes_sysrandom _ = _ |- _ => rewrite H end;
    repeat match goal with
           | H : _ = true |- _ => rewrite H
           | H : _ = false |- _ => rewrite H
           end;
    reflexivity.
Qed.

Lemma draw_step n w :
  draw (S n) w =
    match randombytes_sysrandom w with
    | Aborted => Aborted
    | Returned (r, w1) =>
        match draw n w1 with
        | Aborted => Aborted
        | Returned (rs, w2) => Returned (r :: rs, w2)
        end
    end.
Proof.
  cbn [draw]. unfold bind, ret.
  destruct (randombytes_sysrandom w) as [[r w1]|]; [|reflexivity].
  destruct (draw n w1) as [[rs w2]|]; reflexivity.
Qed.

(** *** The drain loop against a source that delivers *)

(** A chunk at the head of the script: one [read], no retry. *)
Lemma read_retry_deliver fd mem off count o bs rest :
  read_script o = Deliver bs :: rest ->
  read_retry fd mem off count o =
    (read_amount count bs,
     store mem off (firstn (Z.to_nat (read_amount count bs)) bs),
     set_read_script o
       (if read_amount count bs <? Z.of_nat (length bs)
        then Deliver (skipn (Z.to_nat (read_amount count bs)) bs) :: rest
        else rest)).
Proof.
  intros Hs. rewrite read_retry_step. unfold sys_read. rewrite Hs.
  fold (read_amount count bs). cbv zeta.
  replace (read_amount count bs <? 0) with false; [reflexivity|].
  symmetry. apply Z.ltb_ge. unfold read_amount, to_size_t, SSIZE_MAX.
  pose proof (Z.mod_pos_bound count (2 ^ 64) ltac:(lia)). lia.
Qed.

(** An interruption at the head of the script: the [read] is made again. *)
Lemma read_retry_eintr fd mem off count o rest :
  read_script o = Errno EINTR :: rest ->
  read_retry fd mem off count o =
    read_retry fd mem off count (set_errno (set_read_script o rest) EINTR).
Proof.
  intros Hs. rewrite read_retry_step at 1. unfold sys_read. rewrite Hs.
  reflexivity.
Qed.

Lemma safe_read_loop_eintr fd mem off count o rest :
  read_script o = Errno EINTR :: rest ->
  safe_read_loop fd mem off count o =
    safe_read_loop fd mem off count (set_errno (set_read_script o rest) EINTR).
Proof.
  intros Hs. rewrite (safe_read_loop_step fd mem off count o).
  rewrite (safe_read_loop_step fd mem off count (set_errno _ _)).
  rewrite (read_retry_eintr _ _ _ _ _ _ Hs). reflexivity.
Qed.

Lemma set_read_script_same o rest :
  read_script o = rest -> set_errno (set_read_script o rest) (errno o) = o.
Proof. intros <-. destruct o; reflexivity. Qed.

(** The delivering part [s] of a script, against a request of [count]
    bytes: when [s] has fewer, the loop takes them all and goes on with
    what follows [s]; when [s] has enough, the loop returns after [count]
    bytes.  By induction on a bound of the weight of [s]: a chunk that is
    not taken whole leaves a lighter script. *)
Lemma safe_read_loop_benign fd :
  forall (k : nat) (s : list read_event),
    (script_weight s <= k)%nat -> Forall benign s ->
    forall rest mem off count o,
      read_script o = s ++ rest ->
      0 <= off -> 0 < count < 2 ^ 64 ->
      off + count <= Z.of_nat (length mem) ->
      (Z.of_nat (length (delivered s)) < count ->
       exists e,
         safe_read_loop fd mem off count o =
         safe_read_loop fd (store mem off (delivered s))
           (off + Z.of_nat (length (delivered s)))
           (count - Z.of_nat (length (delivered s)))
           (set_errno (set_read_script o rest) e)) /\
      (count <= Z.of_nat (length (delivered s)) ->
       exists o',
         safe_read_loop fd mem off count o =
         (to_ssize_t (off + count),
          store mem off (firstn (Z.to_nat count) (delivered s)), o')).
Proof.
  assert (Hnil : forall rest mem off count o,
             read_script o = rest -> 0 < count ->
             (0 < count ->
              exists e,
                safe_read_loop fd mem off count o =
                safe_read_loop fd (store mem off []) (off + 0) (count - 0)
                  (set_errno (set_read_script o rest) e)) /\
             (count <= 0 -> exists o',
                safe_read_loop fd mem off count o =
                (to_ssize_t (off + count), store mem off (firstn (Z.to_nat count) []), o'))).
  { intros rest mem off count o Hs Hcount. split; intros Hd; [|lia].
    exists (errno o).
    now rewrite store_nil, Z.add_0_r, Z.sub_0_r, (set_read_script_same _ _ Hs). }
  induction k as [|k IH]; intros s Hk Hben rest mem off count o Hs Hoff Hcount Hfit.
  - destruct s as [|[bs|e] s']; cbn in Hk; try lia.
    apply Hnil; [assumption | lia].
  - destruct s as [|[bs|e] s'].
    + apply Hnil; [assumption | lia].
    + (* a chunk *)
      inversion Hben as [|? ? Hbs Hben']; subst.
      cbn [benign] in Hbs. cbn [script_weight] in Hk. cbn [app] in Hs.
      assert (Hlen : 0 < Z.of_nat (length bs)) by (destruct bs; [congruence | cbn; lia]).
      set (n := read_amount count bs).
      assert (Hn : 0 < n <= Z.of_nat (length bs) /\ n <= count).
      { unfold n, read_amount, to_size_t, SSIZE_MAX.
        rewrite Z.mod_small by lia. lia. }
      set (s1 := if n <? Z.of_nat (length bs)
                 then Deliver (skipn (Z.to_nat n) bs) :: s' else s').
      assert (Hs1w : (script_weight s1 <= k)%nat).
      { unfold s1. destruct (n <? Z.of_nat (length bs)); cbn [script_weight].
        - rewrite length_skipn. lia.
        - lia. }
      assert (Hs1b : Forall benign s1).
      { unfold s1. destruct (n <? Z.of_nat (length bs)) eqn:E; [|assumption].
        constructor; [|assumption]. cbn. apply Z.ltb_lt in E.
        intros Hempty. apply (f_equal (@length byte)) in Hempty.
        rewrite length_skipn in Hempty. cbn in Hempty. lia. }
      assert (Hs1d : delivered s1 = skipn (Z.to_nat n) (delivered (Deliver bs :: s'))).
      { cbn [delivered]. rewrite skipn_app. unfold s1.
        destruct (n <? Z.of_nat (length bs)) eqn:E.
        - cbn [delivered]. f_equal. apply Z.ltb_lt in E.
          replace (Z.to_nat n - length bs)%nat with 0%nat by lia. reflexivity.
        - apply Z.ltb_ge in E. rewrite skipn_all2 by lia.
          replace (Z.to_nat n - length bs)%nat with 0%nat by lia. reflexivity. }
      assert (Hfirst : firstn (Z.to_nat n) (delivered (Deliver bs :: s'))
                       = firstn (Z.to_nat n) bs).
      { cbn [delivered]. rewrite firstn_app.
        replace (Z.to_nat n - length bs)%nat with 0%nat by lia.
        cbn [firstn]. now rewrite app_nil_r. }
      assert (Hgot : Z.of_nat (length (firstn (Z.to_nat n) bs)) = n).
      { rewrite length_firstn. lia. }
      pose proof (read_retry_deliver fd mem off count o bs (s' ++ rest) Hs) as Hrr.
      fold n in Hrr.
      assert (Hscript : (if n <? Z.of_nat (length bs)
                         then Deliver (skipn (Z.to_nat n) bs) :: s' ++ rest
                         else s' ++ rest) = s1 ++ rest).
      { unfold s1. destruct (n <? Z.of_nat (length bs)); reflexivity. }
      rewrite Hscript in Hrr.
      rewrite safe_read_loop_step, Hrr.
      replace (n <? 0) with false by (symmetry; apply Z.ltb_ge; lia).
      replace (n =? 0) with false by (symmetry; apply Z.eqb_neq; lia).
      assert (Hc' : to_size_t (count - to_size_t n) = count - n).
      { unfold to_size_t. rewrite (Z.mod_small n) by lia. apply Z.mod_small. lia. }
      rewrite Hc'.
      set (D := delivered (Deliver bs :: s')) in *.
      assert (HD : Z.of_nat (length D) = Z.of_nat (length bs) + Z.of_nat (length (delivered s')))
        by (unfold D; cbn [delivered]; rewrite length_app; lia).
      assert (HDsplit : D = firstn (Z.to_nat n) bs ++ delivered s1).
      { rewrite Hs1d, <- Hfirst. symmetry. apply firstn_skipn. }
      assert (Hd1 : Z.of_nat (length (delivered s1)) = Z.of_nat (length D) - n).
      { rewrite Hs1d, length_skipn. lia. }
      assert (Hstore : forall X, store (store mem off (firstn (Z.to_nat n) bs)) (off + n) X
                                 = store mem off (firstn (Z.to_nat n) bs ++ X)).
      { intros X. rewrite <- Hgot at 2. apply store_store; lia. }
      destruct (0 <? count - n) eqn:Emore.
      * apply Z.ltb_lt in Emore.
        destruct (IH s1 Hs1w Hs1b rest (store mem off (firstn (Z.to_nat n) bs))
                    (off + n) (count - n) (set_read_script o (s1 ++ rest)))
          as [IH1 IH2]; try reflexivity; try lia.
        { unfold store. rewrite !length_app, length_firstn, length_skipn. lia. }
        split; intros Hd.
        -- destruct IH1 as [e He]; [lia|]. exists e. rewrite He.
           rewrite Hstore, <- HDsplit. f_equal; lia.
        -- destruct IH2 as [o' Ho']; [lia|]. exists o'. rewrite Ho'.
           rewrite Hstore.
           replace (off + n + (count - n)) with (off + count) by lia.
           do 2 f_equal.
           replace (Z.to_nat count) with (Z.to_nat n + Z.to_nat (count - n))%nat by lia.
           rewrite firstn_plus, <- Hs1d, Hfirst. reflexivity.
      * apply Z.ltb_ge in Emore. assert (Hnc : n = count) by lia.
        split; intros Hd; [lia|].
        eexists. rewrite <- Hnc, Hfirst. reflexivity.
    + (* an interrupted read *)
      inversion Hben as [|? ? He Hben']; subst. cbn [benign] in He. subst e.
      cbn [script_weight delivered app] in *.
      rewrite (safe_read_loop_eintr _ _ _ _ _ _ Hs).
      destruct (IH s' ltac:(lia) Hben' rest mem off count
                  (set_errno (set_read_script o (s' ++ rest)) EINTR))
        as [IH1 IH2]; try reflexivity; try lia.
      split; intros Hd.
      -- destruct (IH1 Hd) as [e He]. exists e. rewrite He. reflexivity.
      -- exact (IH2 Hd).
Qed.

(** A request of no bytes: one [read] of count 0, which returns 0. *)
Lemma safe_read_loop_zero fd mem off s :
  Forall benign s -> forall o, read_script o = s ->
  exists o', safe_read_loop fd mem off 0 o = (to_ssize_t off, mem, o').
Proof.
  induction 1 as [|[bs|e] s' Hb Hben IH]; intros o Hs.
  - rewrite safe_read_loop_step, read_retry_step. unfold sys_read. rewrite Hs.
    cbn. eauto.
  - rewrite safe_read_loop_step, (read_retry_deliver _ _ _ _ _ _ _ Hs).
    assert (Hz : read_amount 0 bs = 0).
    { unfold read_amount, to_size_t, SSIZE_MAX. rewrite Z.mod_0_l by lia. lia. }
    rewrite Hz. cbn [Z.to_nat firstn]. rewrite store_nil. cbn. eauto.
  - cbn in Hb. subst e. rewrite (safe_read_loop_eintr _ _ _ _ _ _ Hs).
    apply IH. reflexivity.
Qed.

(** [safe_read] against a source that delivers at least [size] bytes. *)
Lemma safe_read_delivers fd buf size s rest o :
  read_script o = s ++ rest -> Forall benign s ->
  0 <= size < 2 ^ 64 ->
  size <= Z.of_nat (length (delivered s)) ->
  (size = 0 -> rest = []) ->
  size <= Z.of_nat (length buf) ->
  exists o',
    safe_read fd buf size o =
      (to_ssize_t size, firstn (Z.to_nat size) (delivered s) ++ skipn (Z.to_nat size) buf, o').
Proof.
  intros Hs Hben Hsize Hlen Hz Hfit. unfold safe_read.
  destruct (Z.eq_dec size 0) as [->|Hpos].
  - rewrite (Hz eq_refl), app_nil_r in Hs.
    destruct (safe_read_loop_zero fd buf 0 s Hben o Hs) as [o' Ho'].
    exists o'. rewrite Ho'. reflexivity.
  - destruct (safe_read_loop_benign fd (script_weight s) s (le_n _) Hben rest buf 0 size o)
      as [_ Hfull]; try lia; try assumption.
    destruct (Hfull Hlen) as [o' Ho']. exists o'. rewrite Ho'. cbn [Z.add].
    rewrite store_at_start, length_firstn.
    replace (Nat.min (Z.to_nat size) (length (delivered s))) with (Z.to_nat size) by lia.
    reflexivity.
Qed.

(** *** The rejection loop and the samples it draws *)

Lemma uniform_loop_draws m w r w' :
  uniform_loop m w = Returned (r, w') ->
  exists rejected,
    draw (S (length rejected)) w = Returned (rejected ++ [r], w') /\
    Forall (fun x => x < m) rejected /\ m <= r.
Proof.
  funelim (uniform_loop m w); drop_inspect; intros Hret.
  - discriminate.
  - inversion Hret; subst. exists []. cbn [length app].
    rewrite draw_step, Hdraw. cbn.
    split; [reflexivity | split; [constructor|]].
    apply Z.leb_le. assumption.
  - match goal with
    | IH : forall a b, uniform_loop _ _ = _ -> _ |- _ =>
        destruct (IH _ _ Hret) as (rej & Hd & Hall & Hacc)
    end.
    exists (r :: rej). cbn [length app].
    rewrite draw_step, Hdraw, Hd.
    split; [reflexivity | split; [|assumption]].
    constructor; [|assumption]. apply Z.leb_gt. assumption.
Qed.

Lemma draws_uniform_loop m rejected : forall w r w',
  draw (S (length rejected)) w = Returned (rejected ++ [r], w') ->
  Forall (fun x => x < m) rejected -> m <= r ->
  uniform_loop m w = Returned (r, w').
Proof.
  induction rejected as [|x rej IH]; intros w r w' Hd Hall Hacc;
    rewrite draw_step in Hd; rewrite uniform_loop_step;
    destruct (randombytes_sysrandom w) as [[r1 w1]|]; try discriminate.
  - cbn in Hd. inversion Hd; subst.
    replace (m <=? r) with true by (symmetry; apply Z.leb_le; lia). reflexivity.
  - cbn [length] in Hd.
    destruct (draw (S (length rej)) w1) as [[rs w2]|] eqn:Hd1; [|discriminate].
    cbn [app] in Hd. inversion Hd; subst. inversion Hall; subst.
    replace (m <=? x) with false by (symmetry; apply Z.leb_gt; lia).
    eapply IH; eauto.
Qed.

(** [min] is [2^32 mod upper_bound]. *)
Lemma uniform_min_eq ub :
  2 <= ub -> ub <= UINT32_MAX -> uniform_min ub = 2 ^ 32 mod ub.
Proof.
  unfold uniform_min, to_uint32, UINT32_MAX. intros Hlo Hhi.
  assert (Hneg : (- ub) mod 2 ^ 32 = 2 ^ 32 - ub).
  { symmetry. apply Z.mod_unique with (q := -1); lia. }
  rewrite Hneg.
  replace (2 ^ 32 - ub) with (2 ^ 32 + (-1) * ub) by lia.
  rewrite Z_mod_plus_full.
  apply Z.mod_small.
  pose proof (Z.mod_pos_bound (2 ^ 32) ub ltac:(lia)). lia.
Qed.

(** *** What the operations leave alone *)

Lemma same_host_refl o : same_host o o.
Proof. repeat split. Qed.

Lemma same_host_trans o1 o2 o3 : same_host o1 o2 -> same_host o2 o3 -> same_host o1 o3.
Proof. unfold same_host. intuition congruence. Qed.

Lemma sys_read_same_host fd mem off count o r mem' o' :
  sys_read fd mem off count o = (r, mem', o') -> same_host o o'.
Proof.
  unfold sys_read. destruct (read_script o) as [|[bs|e] rest];
    intros H; inversion H; subst; repeat split.
Qed.

Lemma read_retry_same_host fd mem off count o r mem' o' :
  read_retry fd mem off count o = (r, mem', o') -> same_host o o'.
Proof.
  funelim (read_retry fd mem off count o); drop_inspect; intros Hr.
  - eapply same_host_trans; [eapply sys_read_same_host; eassumption|].
    match goal with IH : forall a b c, read_retry _ _ _ _ _ = _ -> _ |- _ => eapply IH; eassumption end.
  - inversion Hr; subst. eapply sys_read_same_host; eassumption.
Qed.

Lemma safe_read_loop_same_host fd mem off count o r mem' o' :
  safe_read_loop fd mem off count o = (r, mem', o') -> same_host o o'.
Proof.
  funelim (safe_read_loop fd mem off count o); drop_inspect; intros Hr;
    match goal with
    | Hrd : read_retry _ _ _ _ _ = _ |- _ => pose proof (read_retry_same_host _ _ _ _ _ _ _ _ Hrd) as Hh
    end;
    try (inversion Hr; subst; exact Hh).
  eapply same_host_trans; [exact Hh|].
  match goal with IH : forall a b c, safe_read_loop _ _ _ _ _ = _ -> _ |- _ => eapply IH; eassumption end.
Qed.

(** The provider state after [buf] is the one [stir] left. *)
Lemma buf_stream buf size w buf' w' :
  randombytes_sysrandom_buf buf size w = Returned (buf', w') ->
  exists w1, randombytes_sysrandom_stir w = Returned (tt, w1) /\ stream w' = stream w1
     /\ same_host (os w1) (os w').
Proof.
  intros H. destruct (buf_returned _ _ _ _ _ H) as (w1 & o' & Hs & Hsr & ->).
  exists w1. repeat split; try assumption; apply safe_read_loop_same_host in Hsr; apply Hsr.
Qed.

(** *** The state invariant, operation by operation *)

Lemma stir_inv w u w' :
  randombytes_sysrandom_stir w = Returned (u, w') ->
  stream_inv (stream w) -> stream_inv (stream w').
Proof.
  intros H Hinv. destruct (stir_returned _ _ _ H) as [[Hi Hfd]| ->]; [|assumption].
  unfold stream_inv. tauto.
Qed.

Lemma random_stream w r w' :
  randombytes_sysrandom w = Returned (r, w') ->
  exists w1, randombytes_sysrandom_stir w = Returned (tt, w1) /\ stream w' = stream w1
     /\ same_host (os w1) (os w').
Proof.
  unfold randombytes_sysrandom, bind. rewrite stir_if_needed_stir.
  destruct (randombytes_sysrandom_stir w) as [[[] w1]|] eqn:Hs; [|discriminate].
  destruct (randombytes_sysrandom_buf uint32_object 4 w1) as [[b w2]|] eqn:Hb; [|discriminate].
  unfold get_os, ret. intros H; inversion H; subst; clear H.
  destruct (buf_stream _ _ _ _ _ Hb) as (w3 & Hs3 & Hst & Hh).
  exists w1. split; [reflexivity|].
  destruct (stir_returned _ _ _ Hs) as [[Hi _]| ->].
  - rewrite (stir_initialized _ Hi) in Hs3. inversion Hs3; subst. auto.
  - destruct (stir_returned _ _ _ Hs3) as [[Hi _]| ->]; [|auto].
    rewrite Hs in Hs3. inversion Hs3; subst. auto.
Qed.

Lemma random_inv w r w' :
  randombytes_sysrandom w = Returned (r, w') ->
  stream_inv (stream w) -> stream_inv (stream w').
Proof.
  intros H Hinv. destruct (random_stream _ _ _ H) as (w1 & Hs & -> & _).
  eapply stir_inv; eassumption.
Qed.

Lemma buf_inv buf size w buf' w' :
  randombytes_sysrandom_buf buf size w = Returned (buf', w') ->
  stream_inv (stream w) -> stream_inv (stream w').
Proof.
  intros H Hinv. destruct (buf_stream _ _ _ _ _ H) as (w1 & Hs & -> & _).
  eapply stir_inv; eassumption.
Qed.

Lemma uniform_loop_inv m w r w' :
  uniform_loop m w = Returned (r, w') ->
  stream_inv (stream w) -> stream_inv (stream w').
Proof.
  funelim (uniform_loop m w); drop_inspect; intros Hret Hinv.
  - discriminate.
  - inversion Hret; subst. eapply random_inv; eassumption.
  - match goal with
    | IH : forall a b, uniform_loop _ _ = _ -> _ |- _ => eapply IH; [eassumption|]
    end.
    eapply random_inv; eassumption.
Qed.

Lemma uniform_inv ub w v w' :
  randombytes_sysrandom_uniform ub w = Returned (v, w') ->
  stream_inv (stream w) -> stream_inv (stream w').
Proof.
  unfold randombytes_sysrandom_uniform, bind, ret.
  destruct (ub <? 2).
  - intros H; inversion H; subst; auto.
  - destruct (uniform_loop _ w) as [[r w1]|] eqn:Hl; [|discriminate].
    intros H; inversion H; subst. eapply uniform_loop_inv; eassumption.
Qed.

(** *** [close], case by case *)
Lemma close_absent w :
  random_data_source_fd (stream w) = -1 ->
  randombytes_sysrandom_close w = Returned (-1, w).
Proof.
  intros Hfd. unfold randombytes_sysrandom_close, bind, get_stream, ret.
  rewrite Hfd. reflexivity.
Qed.

Lemma close_open w r o' :
  random_data_source_fd (stream w) <> -1 ->
  sys_close (random_data_source_fd (stream w)) (os w) = (r, o') ->
  randombytes_sysrandom_close w =
    if r =? 0 then Returned (0, mkWorld stream_init o')
    else Returned (-1, mkWorld (stream w) o').
Proof.
  intros Hfd Hc. unfold randombytes_sysrandom_close, bind, get_stream, syscall.
  apply Z.eqb_neq in Hfd. rewrite Hfd. cbn [negb]. rewrite Hc.
  destruct (r =? 0); reflexivity.
Qed.

Lemma close_inv w r w' :
  randombytes_sysrandom_close w = Returned (r, w') ->
  stream_inv (stream w) -> stream_inv (stream w').
Proof.
  intros H Hinv.
  destruct (Z.eq_dec (random_data_source_fd (stream w)) (-1)) as [Hfd|Hfd].
  - rewrite (close_absent _ Hfd) in H. inversion H; subst; assumption.
  - destruct (sys_close (random_data_source_fd (stream w)) (os w)) as [c o'] eqn:Hc.
    rewrite (close_open _ _ _ Hfd Hc) in H.
    destruct (c =? 0); inversion H; subst; cbn [stream]; [|assumption].
    unfold stream_inv, stream_init; cbn. split; [discriminate | congruence].
Qed.

Lemma run_operation_inv op w w' :
  run_operation op w = Returned w' ->
  stream_inv (stream w) -> stream_inv (stream w').
Proof.
  destruct op; cbn [run_operation]; intros H Hinv.
  - destruct (randombytes_sysrandom_stir w) as [[u w1]|] eqn:E; inversion H; subst.
    eapply stir_inv; eassumption.
  - destruct (randombytes_sysrandom w) as [[u w1]|] eqn:E; inversion H; subst.
    eapply random_inv; eassumption.
  - destruct (randombytes_sysrandom_uniform upper_bound w) as [[u w1]|] eqn:E; inversion H; subst.
    eapply uniform_inv; eassumption.
  - destruct (randombytes_sysrandom_buf buf size w) as [[u w1]|] eqn:E; inversion H; subst.
    eapply buf_inv; eassumption.
  - destruct (randombytes_sysrandom_close w) as [[u w1]|] eqn:E; inversion H; subst.
    eapply close_inv; eassumption.
Qed.

Lemma run_operations_inv ops : forall w w',
  run_operations ops w = Returned w' ->
  stream_inv (stream w) -> stream_inv (stream w').
Proof.
  induction ops as [|op more IH]; cbn [run_operations]; intros w w' H Hinv.
  - inversion H; subst; assumption.
  - destruct (run_operation op w) as [w1|] eqn:E; [|discriminate].
    eapply IH; [eassumption|]. eapply run_operation_inv; eassumption.
Qed.

Lemma stream_inv_init : stream_inv stream_init.
Proof. unfold stream_inv, stream_init; cbn. split; [discriminate | congruence]. Qed.

(** *** After the first acquisition *)

Lemma settled_refl w : settled w w.
Proof. split; [reflexivity | apply same_host_refl]. Qed.

Lemma settled_trans w1 w2 w3 : settled w1 w2 -> settled w2 w3 -> settled w1 w3.
Proof.
  intros [H1 H2] [H3 H4]. split; [congruence | eapply same_host_trans; eassumption].
Qed.

Lemma buf_settled buf size w buf' w' :
  initialized (stream w) = true ->
  randombytes_sysrandom_buf buf size w = Returned (buf', w') -> settled w w'.
Proof.
  intros Hi H. destruct (buf_stream _ _ _ _ _ H) as (w1 & Hs & Hst & Hh).
  rewrite (stir_initialized _ Hi) in Hs. inversion Hs; subst. split; assumption.
Qed.

Lemma random_settled w r w' :
  initialized (stream w) = true ->
  randombytes_sysrandom w = Returned (r, w') -> settled w w'.
Proof.
  intros Hi H. destruct (random_stream _ _ _ H) as (w1 & Hs & Hst & Hh).
  rewrite (stir_initialized _ Hi) in Hs. inversion Hs; subst. split; assumption.
Qed.

Lemma uniform_loop_settled m w r w' :
  initialized (stream w) = true ->
  uniform_loop m w = Returned (r, w') -> settled w w'.
Proof.
  funelim (uniform_loop m w); drop_inspect; intros Hi Hret.
  - discriminate.
  - inversion Hret; subst. eapply random_settled; eassumption.
  - pose proof (random_settled _ _ _ Hi Hdraw) as Hs.
    eapply settled_trans; [exact Hs|].
    match goal with
    | IH : forall a b, _ -> uniform_loop _ _ = _ -> _ |- _ => eapply IH; [|eassumption]
    end.
    destruct Hs as [Hs _]. rewrite Hs. assumption.
Qed.

Lemma run_operation_settled op w w' :
  initialized (stream w) = true -> op <> OpClose ->
  run_operation op w = Returned w' -> settled w w'.
Proof.
  intros Hi Hop. destruct op; cbn [run_operation]; intros H; try congruence.
  - rewrite (stir_initialized _ Hi) in H. inversion H; subst. apply settled_refl.
  - destruct (randombytes_sysrandom w) as [[u w1]|] eqn:E; inversion H; subst.
    eapply random_settled; eassumption.
  - revert H. unfold randombytes_sysrandom_uniform, bind, ret.
    destruct (upper_bound <? 2).
    + intros H; inversion H; subst. apply settled_refl.
    + destruct (uniform_loop _ w) as [[r w1]|] eqn:Hl; [|discriminate].
      intros H; inversion H; subst. eapply uniform_loop_settled; eassumption.
  - destruct (randombytes_sysrandom_buf buf size w) as [[u w1]|] eqn:E; inversion H; subst.
    eapply buf_settled; eassumption.
Qed.

Lemma run_operations_settled ops : forall w w',
  initialized (stream w) = true -> Forall (fun op => op <> OpClose) ops ->
  run_operations ops w = Returned w' -> settled w w'.
Proof.
  induction ops as [|op more IH]; cbn [run_operations]; intros w w' Hi Hops H.
  - inversion H; subst. apply settled_refl.
  - inversion Hops as [|? ? Hop Hmore]; subst.
    destruct (run_operation op w) as [w1|] eqn:E; [|discriminate].
    pose proof (run_operation_settled _ _ _ Hi Hop E) as Hs.
    eapply settled_trans; [exact Hs|]. eapply IH; try eassumption.
    destruct Hs as [Hs _]. rewrite Hs. assumption.
Qed.

Lemma repeat_stir n : forall w,
  repeat_call (S n) randombytes_sysrandom_stir w = randombytes_sysrandom_stir w.
Proof.
  induction n as [|n IH]; intros w.
  - cbn [repeat_call]. unfold bind, ret.
    destruct (randombytes_sysrandom_stir w) as [[[] w1]|]; reflexivity.
  - change (repeat_call (S (S n)) randombytes_sysrandom_stir w)
      with (bind randombytes_sysrandom_stir
              (fun _ => repeat_call (S n) randombytes_sysrandom_stir) w).
    unfold bind at 1.
    destruct (randombytes_sysrandom_stir w) as [[[] w1]|] eqn:Hs; [|reflexivity].
    rewrite IH.
    destruct (stir_returned _ _ _ Hs) as [[Hi _]| ->]; [|assumption].
    apply stir_initialized. assumption.
Qed.

(** *** End of file and read errors *)

Lemma safe_read_loop_eof fd mem off count o :
  at_eof (read_script o) ->
  exists o', safe_read_loop fd mem off count o = (to_ssize_t off, mem, o').
Proof.
  intros [Hs|[more Hs]].
  - rewrite safe_read_loop_step, read_retry_step. unfold sys_read. rewrite Hs.
    cbn. eauto.
  - rewrite safe_read_loop_step, (read_retry_deliver _ _ _ _ _ _ _ Hs).
    assert (Hz : read_amount count [] = 0).
    { unfold read_amount, to_size_t, SSIZE_MAX. cbn [length Z.of_nat].
      pose proof (Z.mod_pos_bound count (2 ^ 64) ltac:(lia)). lia. }
    rewrite Hz. cbn [Z.to_nat firstn]. rewrite store_nil. cbn. eauto.
Qed.

Lemma safe_read_loop_error fd mem off count o e more :
  read_script o = Errno e :: more -> e <> EINTR ->
  safe_read_loop fd mem off count o =
    (-1, mem, set_errno (set_read_script o more) e).
Proof.
  intros Hs He. rewrite safe_read_loop_step, read_retry_step.
  unfold sys_read. rewrite Hs. cbn [errno set_errno].
  apply Z.eqb_neq in He. rewrite He. reflexivity.
Qed.

(** A source that stops short of [size] bytes: the loop takes what there
    is and meets what follows. *)
Lemma safe_read_short fd buf size s rest o :
  read_script o = s ++ rest -> Forall benign s ->
  0 < size < 2 ^ 64 ->
  Z.of_nat (length (delivered s)) < size ->
  size <= Z.of_nat (length buf) ->
  exists e,
    safe_read fd buf size o =
    safe_read_loop fd (store buf 0 (delivered s))
      (Z.of_nat (length (delivered s))) (size - Z.of_nat (length (delivered s)))
      (set_errno (set_read_script o rest) e).
Proof.
  intros Hs Hben Hsize Hlen Hfit. unfold safe_read.
  destruct (safe_read_loop_benign fd (script_weight s) s (le_n _) Hben rest buf 0 size o)
    as [Hshort _]; try lia; try assumption.
  destruct (Hshort Hlen) as [e He]. exists e. exact He.
Qed.

(** [buf] in one equation: initialise, drain, compare. *)
Lemma buf_after_safe_read buf size w w1 r buf' o' :
  randombytes_sysrandom_stir w = Returned (tt, w1) ->
  0 <= size <= SIZE_MAX ->
  safe_read (random_data_source_fd (stream w1)) buf size (os w1) = (r, buf', o') ->
  randombytes_sysrandom_buf buf size w =
    if r =? to_ssize_t size then Returned (buf', mkWorld (stream w1) o') else Aborted.
Proof.
  intros Hstir Hsize Hsr. unfold SIZE_MAX in Hsize.
  unfold randombytes_sysrandom_buf, bind. rewrite stir_if_needed_stir, Hstir.
  unfold assert_, ULONG_LONG_MAX.
  replace (size <=? 2 ^ 64 - 1) with true by (symmetry; apply Z.leb_le; lia).
  unfold ret, get_stream, syscall. rewrite Hsr. cbn [fst snd].
  destruct (r =? to_ssize_t size); reflexivity.
Qed.

(** End of file before [size] bytes: abort, whatever the size. *)
Lemma buf_eof_aborts (w w1 : world) buf size s rest :
  randombytes_sysrandom_stir w = Returned (tt, w1) ->
  read_script (os w1) = s ++ rest -> Forall benign s -> at_eof rest ->
  0 <= size <= SIZE_MAX ->
  Z.of_nat (length (delivered s)) < size ->
  size <= Z.of_nat (length buf) ->
  randombytes_sysrandom_buf buf size w = Aborted.
Proof.
  intros Hstir Hs Hben Heof Hsize Hlen Hfit.
  assert (Hsize' : 0 < size < 2 ^ 64) by (unfold SIZE_MAX in Hsize; lia).
  destruct (safe_read_short (random_data_source_fd (stream w1)) buf size s rest (os w1)
              Hs Hben Hsize' Hlen Hfit) as [e He].
  destruct (safe_read_loop_eof (random_data_source_fd (stream w1))
              (store buf 0 (delivered s)) (Z.of_nat (length (delivered s)))
              (size - Z.of_nat (length (delivered s)))
              (set_errno (set_read_script (os w1) rest) e) Heof) as [o' Ho'].
  rewrite Ho' in He.
  rewrite (buf_after_safe_read _ _ _ _ _ _ _ Hstir Hsize He).
  replace (_ =? _) with false; [reflexivity|].
  symmetry. apply Z.eqb_neq. intros Heq. apply to_ssize_t_inj in Heq; lia.
Qed.

(** A read error other than [EINTR] before [size] bytes: abort, unless
    [size] is [SIZE_MAX]. *)
Lemma buf_read_error (w w1 : world) buf size s e more :
  randombytes_sysrandom_stir w = Returned (tt, w1) ->
  read_script (os w1) = s ++ Errno e :: more -> Forall benign s -> e <> EINTR ->
  0 <= size <= SIZE_MAX ->
  Z.of_nat (length (delivered s)) < size ->
  size <= Z.of_nat (length buf) ->
  (size <> SIZE_MAX -> randombytes_sysrandom_buf buf size w = Aborted) /\
  (size = SIZE_MAX -> exists w', randombytes_sysrandom_buf buf size w =
        Returned (store buf 0 (delivered s), w')).
Proof.
  intros Hstir Hs Hben He Hsize Hlen Hfit.
  assert (Hsize' : 0 < size < 2 ^ 64) by (unfold SIZE_MAX in Hsize; lia).
  destruct (safe_read_short (random_data_source_fd (stream w1)) buf size s _ (os w1)
              Hs Hben Hsize' Hlen Hfit) as [e' He'].
  rewrite (safe_read_loop_error _ _ _ _ _ e more) in He' by (reflexivity || assumption).
  rewrite (buf_after_safe_read _ _ _ _ _ _ _ Hstir Hsize He').
  pose proof (to_ssize_t_minus_one size ltac:(lia)) as Hm1.
  split; intros Hmax.
  - replace (_ =? _) with false; [reflexivity|].
    symmetry. apply Z.eqb_neq. intros Heq. symmetry in Heq. tauto.
  - replace (_ =? _) with true; [eauto|].
    symmetry. apply Z.eqb_eq. symmetry. tauto.
Qed.

(** At [size = SIZE_MAX] a read error goes unnoticed, whatever the buffer
    and whatever the error: the -1 of [safe_read] is [(ssize_t) size]. *)
Lemma buf_size_max_read_error (w w1 : world) buf e more :
  randombytes_sysrandom_stir w = Returned (tt, w1) ->
  read_script (os w1) = Errno e :: more -> e <> EINTR ->
  randombytes_sysrandom_buf buf SIZE_MAX w =
    Returned (buf, mkWorld (stream w1) (set_errno (set_read_script (os w1) more) e)).
Proof.
  intros Hstir Hs He.
  rewrite (buf_after_safe_read buf SIZE_MAX w w1 (-1) buf
             (set_errno (set_read_script (os w1) more) e) Hstir).
  - reflexivity.
  - unfold SIZE_MAX. lia.
  - unfold safe_read. apply safe_read_loop_error; assumption.
Qed.

(** *** The provider record *)

(** [struct randombytes_implementation], as this file fills it in. *)
Record randombytes_implementation : Type := mkImplementation {
  implementation_name : string;
  random : M world Z;
  stir : M world unit;
  uniform : Z -> M world Z;
  buf : list byte -> Z -> M world (list byte);
  close : M world Z
}.

(** [struct randombytes_implementation randombytes_sysrandom_implementation(void)] *)
Definition randombytes_sysrandom_implementation : randombytes_implementation :=
  {| implementation_name := randombytes_sysrandom_implementation_name;
     random := randombytes_sysrandom;
     stir := randombytes_sysrandom_stir;
     uniform := randombytes_sysrandom_uniform;
     buf := randombytes_sysrandom_buf;
     close := randombytes_sysrandom_close |}.

End Posix.

(* ------------------------------------------------------------------ *)
(** ** The Windows build *)

Module Win32.

(** One thing a [CryptGenRandom] call can meet: the provider generates
    (byte [i] of the request is [rnd i]), or it reports failure. *)
Inductive gen_event : Type :=
| Generated (rnd : nat -> byte)
| GenFailed.

(** The host: what the successive [CryptAcquireContext], [CryptReleaseContext]
    and [CryptGenRandom] calls return. *)
Record OS : Type := mkOS {
  acquire_script : list (option Z);   (* the handle acquired, or failure *)
  release_script : list bool;
  gen_script : list gen_event
}.

(** [typedef struct SysRandom_ { HCRYPTPROV hcrypt_prov;
    int random_data_source_fd; bool initialized; }] *)
Record SysRandom : Type := mkSysRandom {
  hcrypt_prov : Z;
  random_data_source_fd : Z;
  initialized : bool
}.

Record world : Type := mkWorld {
  stream : SysRandom;
  os : OS
}.

(** [CryptAcquireContext(&prov, NULL, NULL, PROV_RSA_FULL, CRYPT_VERIFYCONTEXT)]:
    the handle written through the first argument, if the call succeeds;
    with nothing scripted the call fails. *)
Definition CryptAcquireContext (o : OS) : option Z * OS :=
  match acquire_script o with
  | [] => (None, o)
  | r :: rest => (r, mkOS rest (release_script o) (gen_script o))
  end.

(** [CryptReleaseContext(prov, 0)]; with nothing scripted the call succeeds. *)
Definition CryptReleaseContext (prov : Z) (o : OS) : bool * OS :=
  match release_script o with
  | [] => (true, o)
  | r :: rest => (r, mkOS (acquire_script o) rest (gen_script o))
  end.

(** [CryptGenRandom(prov, dwLen, pbBuffer)], [dwLen] arriving as a 32-bit
    [DWORD]; with nothing scripted the call fails. *)
Definition CryptGenRandom (prov : Z) (dwLen : Z) (buf : list byte) (o : OS)
  : (bool * list byte) * OS :=
  match gen_script o with
  | [] => ((false, buf), o)
  | GenFailed :: rest =>
      ((false, buf), mkOS (acquire_script o) (release_script o) rest)
  | Generated rnd :: rest =>
      ((true, store buf 0 (map rnd (seq 0 (Z.to_nat (to_uint32 dwLen))))),
       mkOS (acquire_script o) (release_script o) rest)
  end.

Definition get_stream : M world SysRandom := fun w => Returned (stream w, w).

Definition set_hcrypt_prov (h : Z) : M world unit :=
  fun w => Returned (tt, mkWorld (mkSysRandom h (random_data_source_fd (stream w))
                                               (initialized (stream w))) (os w)).

Definition set_initialized (b : bool) : M world unit :=
  fun w => Returned (tt, mkWorld (mkSysRandom (hcrypt_prov (stream w))
                                               (random_data_source_fd (stream w)) b) (os w)).

Definition syscall {A : Type} (f : OS -> A * OS) : M world A :=
  fun w => let (a, o') := f (os w) in Returned (a, mkWorld (stream w) o').

(** [static void randombytes_sysrandom_init(void)] *)
Definition randombytes_sysrandom_init : M world unit :=
  r <- syscall CryptAcquireContext ;;
  match r with
  | Some h => set_hcrypt_prov h
  | None => abort
  end.

(** [void randombytes_sysrandom_stir(void)] *)
Definition randombytes_sysrandom_stir : M world unit :=
  s <- get_stream ;;
  if negb (initialized s) then
    randombytes_sysrandom_init ;;
    set_initialized true
  else ret tt.

(** [static void randombytes_sysrandom_stir_if_needed(void)] *)
Definition randombytes_sysrandom_stir_if_needed : M world unit :=
  s <- get_stream ;;
  if negb (initialized s) then randombytes_sysrandom_stir else ret tt.

(** [int randombytes_sysrandom_close(void)] *)
Definition randombytes_sysrandom_close : M world Z :=
  s <- get_stream ;;
  if initialized s then
    ok <- syscall (CryptReleaseContext (hcrypt_prov s)) ;;
    if ok then
      set_initialized false ;;
      ret 0
    else ret (-1)
  else ret (-1).

(** [void randombytes_sysrandom_buf(void * const buf, const size_t size)] *)
Definition randombytes_sysrandom_buf (buf : list byte) (size : Z)
  : M world (list byte) :=
  randombytes_sysrandom_stir_if_needed ;;
  assert_ (size <=? ULONG_LONG_MAX) ;;
  s <- get_stream ;;
  r <- syscall (CryptGenRandom (hcrypt_prov s) size buf) ;;
  if negb (fst r) then abort else ret (snd r).

(** [stir], [close] and [buf] of the Windows build, case by case. *)
Lemma win32_stir_initialized w :
  initialized (stream w) = true ->
  randombytes_sysrandom_stir w = Returned (tt, w).
Proof.
  intros Hi. unfold randombytes_sysrandom_stir, bind, get_stream.
  rewrite Hi. reflexivity.
Qed.

Lemma win32_stir_uninitialized w :
  initialized (stream w) = false ->
  randombytes_sysrandom_stir w =
    match CryptAcquireContext (os w) with
    | (Some h, o') =>
        Returned (tt, mkWorld (mkSysRandom h (random_data_source_fd (stream w)) true) o')
    | (None, _) => Aborted
    end.
Proof.
  intros Hi.
  unfold randombytes_sysrandom_stir, randombytes_sysrandom_init, bind,
    get_stream, syscall, set_hcrypt_prov, set_initialized, abort, ret.
  rewrite Hi. cbn [negb].
  destruct (CryptAcquireContext (os w)) as [[h|] o']; reflexivity.
Qed.

Lemma win32_stir_sets_flag w u w' :
  randombytes_sysrandom_stir w = Returned (u, w') -> initialized (stream w') = true.
Proof.
  destruct (initialized (stream w)) eqn:Hi.
  - rewrite win32_stir_initialized by assumption. intros H; inversion H; subst; assumption.
  - rewrite win32_stir_uninitialized by assumption.
    destruct (CryptAcquireContext (os w)) as [[h|] o']; [|discriminate].
    intros H; inversion H; subst. reflexivity.
Qed.

Lemma win32_repeat_stir n : forall w,
  repeat_call (S n) randombytes_sysrandom_stir w = randombytes_sysrandom_stir w.
Proof.
  induction n as [|n IH]; intros w.
  - cbn [repeat_call]. unfold bind, ret.
    destruct (randombytes_sysrandom_stir w) as [[[] w1]|]; reflexivity.
  - change (repeat_call (S (S n)) randombytes_sysrandom_stir w)
      with (bind randombytes_sysrandom_stir
              (fun _ => repeat_call (S n) randombytes_sysrandom_stir) w).
    unfold bind at 1.
    destruct (randombytes_sysrandom_stir w) as [[[] w1]|] eqn:Hs; [|reflexivity].
    rewrite IH. apply win32_stir_initialized. eapply win32_stir_sets_flag; eassumption.
Qed.

Lemma win32_close_uninitialized w :
  initialized (stream w) = false ->
  randombytes_sysrandom_close w = Returned (-1, w).
Proof.
  intros Hi. unfold randombytes_sysrandom_close, bind, get_stream, ret.
  rewrite Hi. reflexivity.
Qed.

Lemma win32_close_initialized w ok o' :
  initialized (stream w) = true ->
  CryptReleaseContext (hcrypt_prov (stream w)) (os w) = (ok, o') ->
  randombytes_sysrandom_close w =
    if ok
    then Returned (0, mkWorld (mkSysRandom (hcrypt_prov (stream w))
                                 (random_data_source_fd (stream w)) false) o')
    else Returned (-1, mkWorld (stream w) o').
Proof.
  intros Hi Hc. unfold randombytes_sysrandom_close, bind, get_stream, syscall.
  rewrite Hi, Hc. destruct ok; reflexivity.
Qed.

(** A [CryptGenRandom] that reports failure: abort, whatever the size. *)
Lemma win32_buf_gen_failure w w1 buf size :
  randombytes_sysrandom_stir w = Returned (tt, w1) ->
  (gen_script (os w1) = [] \/ exists more, gen_script (os w1) = GenFailed :: more) ->
  randombytes_sysrandom_buf buf size w = Aborted.
Proof.
  intros Hs Hgen. unfold randombytes_sysrandom_buf, bind.
  assert (Hsin : randombytes_sysrandom_stir_if_needed w = Returned (tt, w1)).
  { unfold randombytes_sysrandom_stir_if_needed, bind, get_stream.
    destruct (initialized (stream w)) eqn:Hi; cbn [negb]; [|exact Hs].
    rewrite win32_stir_initialized in Hs by assumption. exact Hs. }
  rewrite Hsin. unfold assert_.
  destruct (size <=? ULONG_LONG_MAX); [|reflexivity].
  unfold ret, get_stream, syscall, CryptGenRandom, abort.
  destruct Hgen as [Hg|[more Hg]]; rewrite Hg; reflexivity.
Qed.

(** [uint32_t randombytes_sysrandom(void)]; the object [r] is read back
    least significant byte first, the byte order of the hosts of the
    Windows build. *)
Definition randombytes_sysrandom : M world Z :=
  randombytes_sysrandom_stir_if_needed ;;
  r <- randombytes_sysrandom_buf Posix.uint32_object 4 ;;
  ret (load_uint32 false r).

Lemma win32_stir_if_needed_eq w :
  randombytes_sysrandom_stir_if_needed w = randombytes_sysrandom_stir w.
Proof.
  unfold randombytes_sysrandom_stir_if_needed, bind, get_stream.
  destruct (initialized (stream w)) eqn:Hi; cbn [negb]; [|reflexivity].
  now rewrite win32_stir_initialized.
Qed.

Lemma win32_stir_keeps_gen w u w' :
  randombytes_sysrandom_stir w = Returned (u, w') ->
  gen_script (os w') = gen_script (os w).
Proof.
  destruct (initialized (stream w)) eqn:Hi.
  - rewrite win32_stir_initialized by assumption. intros H; inversion H; reflexivity.
  - rewrite win32_stir_uninitialized by assumption. unfold CryptAcquireContext.
    destruct (acquire_script (os w)) as [|[h|] rest];
      intros H; inversion H; reflexivity.
Qed.

(** What a returning [buf] did: initialise if needed, then one
    [CryptGenRandom] that succeeded. *)
Lemma win32_buf_returned b size w b' w' :
  randombytes_sysrandom_buf b size w = Returned (b', w') ->
  exists w1 rnd,
    randombytes_sysrandom_stir w = Returned (tt, w1) /\
    gen_script (os w1) = Generated rnd :: gen_script (os w') /\
    stream w' = stream w1 /\
    acquire_script (os w') = acquire_script (os w1) /\
    release_script (os w') = release_script (os w1).
Proof.
  unfold randombytes_sysrandom_buf, bind. rewrite win32_stir_if_needed_eq.
  destruct (randombytes_sysrandom_stir w) as [[[] w1]|]; [|discriminate].
  unfold assert_. destruct (size <=? ULONG_LONG_MAX); [|discriminate].
  unfold ret, get_stream, syscall, CryptGenRandom, abort.
  destruct (gen_script (os w1)) as [|[rnd|] rest] eqn:Hg; cbn [fst snd negb];
    try discriminate.
  intros H; inversion H; subst; clear H.
  exists w1, rnd. cbn [os stream gen_script acquire_script release_script]. auto.
Qed.

(** A 32-bit sample that is returned has used up one [CryptGenRandom]. *)
Lemma win32_random_returned w r w' :
  randombytes_sysrandom w = Returned (r, w') ->
  exists w1,
    randombytes_sysrandom_stir w = Returned (tt, w1) /\
    (length (gen_script (os w')) < length (gen_script (os w)))%nat /\
    stream w' = stream w1 /\
    acquire_script (os w') = acquire_script (os w1) /\
    release_script (os w') = release_script (os w1).
Proof.
  unfold randombytes_sysrandom, bind. rewrite win32_stir_if_needed_eq.
  destruct (randombytes_sysrandom_stir w) as [[[] w1]|] eqn:Hs; [|discriminate].
  destruct (randombytes_sysrandom_buf Posix.uint32_object 4 w1) as [[b w2]|] eqn:Hb;
    [|discriminate].
  unfold ret. intros H; inversion H; subst; clear H.
  destruct (win32_buf_returned _ _ _ _ _ Hb) as (w3 & rnd & Hs3 & Hg & Hst & Ha & Hr).
  pose proof (win32_stir_sets_flag _ _ _ Hs) as Hi.
  rewrite (win32_stir_initialized _ Hi) in Hs3. inversion Hs3; subst w3; clear Hs3.
  exists w1. split; [reflexivity|].
  rewrite <- (win32_stir_keeps_gen _ _ _ Hs), Hg. cbn [length]. auto.
Qed.

(** The [for (;;)] loop of [randombytes_sysrandom_uniform]; every sample
    uses up one scripted [CryptGenRandom], and once the script has run dry
    [randombytes_sysrandom_buf] aborts. *)
Equations? uniform_loop (min_ : Z) (w : world) : outcome (Z * world)
  by wf (length (gen_script (os w))) lt :=
  uniform_loop min_ w with inspect (randombytes_sysrandom w) := {
    | exist _ Aborted _ => Aborted
    | exist _ (Returned (r, w')) Hdraw with inspect (min_ <=? r) := {
        | exist _ true _ => Returned (r, w')
        | exist _ false _ => uniform_loop min_ w' } }.
Proof.
  destruct (win32_random_returned _ _ _ Hdraw) as (_ & _ & Hlt & _). exact Hlt.
Qed.

(** [uint32_t randombytes_sysrandom_uniform(const uint32_t upper_bound)] *)
Definition randombytes_sysrandom_uniform (upper_bound : Z) : M world Z :=
  if upper_bound <? 2 then ret 0
  else
    r <- uniform_loop (Posix.uniform_min upper_bound) ;;
    ret (r mod upper_bound).

(** The run of one public operation, and of a sequence of them. *)
Definition run_operation (op : Posix.operation) (w : world) : outcome world :=
  match op with
  | Posix.OpStir =>
      match randombytes_sysrandom_stir w with
      | Returned (_, w') => Returned w' | Aborted => Aborted end
  | Posix.OpRandom =>
      match randombytes_sysrandom w with
      | Returned (_, w') => Returned w' | Aborted => Aborted end
  | Posix.OpUniform upper_bound =>
      match randombytes_sysrandom_uniform upper_bound w with
      | Returned (_, w') => Returned w' | Aborted => Aborted end
  | Posix.OpBuf buf size =>
      match randombytes_sysrandom_buf buf size w with
      | Returned (_, w') => Returned w' | Aborted => Aborted end
  | Posix.OpClose =>
      match randombytes_sysrandom_close w with
      | Returned (_, w') => Returned w' | Aborted => Aborted end
  end.

Fixpoint run_operations (ops : list Posix.operation) (w : world) : outcome world :=
  match ops with
  | [] => Returned w
  | op :: more =>
      match run_operation op w with
      | Returned w' => run_operations more w'
      | Aborted => Aborted
      end
  end.

(** The provider state is kept, and nothing was acquired or released. *)
Definition settled (w w' : world) : Prop :=
  stream w' = stream w /\
  acquire_script (os w') = acquire_script (os w) /\
  release_script (os w') = release_script (os w).

Lemma win32_settled_refl w : settled w w.
Proof. repeat split. Qed.

Lemma win32_settled_trans w1 w2 w3 : settled w1 w2 -> settled w2 w3 -> settled w1 w3.
Proof. unfold settled. intuition congruence. Qed.

Lemma win32_buf_settled b size w b' w' :
  initialized (stream w) = true ->
  randombytes_sysrandom_buf b size w = Returned (b', w') -> settled w w'.
Proof.
  intros Hi H.
  destruct (win32_buf_returned _ _ _ _ _ H) as (w1 & rnd & Hs & _ & Hst & Ha & Hr).
  rewrite (win32_stir_initialized _ Hi) in Hs. inversion Hs; subst.
  repeat split; assumption.
Qed.

Lemma win32_random_settled w r w' :
  initialized (stream w) = true ->
  randombytes_sysrandom w = Returned (r, w') -> settled w w'.
Proof.
  intros Hi H.
  destruct (win32_random_returned _ _ _ H) as (w1 & Hs & _ & Hst & Ha & Hr).
  rewrite (win32_stir_initialized _ Hi) in Hs. inversion Hs; subst.
  repeat split; assumption.
Qed.

Lemma win32_uniform_loop_step m w :
  uniform_loop m w =
    match randombytes_sysrandom w with
    | Aborted => Aborted
    | Returned (r, w') =>
        if m <=? r then Returned (r, w') else uniform_loop m w'
    end.
Proof.
  funelim (uniform_loop m w);
    repeat match goal with
           | H : @eq (sigma _) _ _ |- _ => clear H
           end;
    match goal with H : randombytes_sysrandom _ = _ |- _ => rewrite H end;
    repeat match goal with
           | H : _ = true |- _ => rewrite H
           | H : _ = false |- _ => rewrite H
           end;
    reflexivity.
Qed.

Lemma win32_uniform_loop_settled m w r w' :
  initialized (stream w) = true ->
  uniform_loop m w = Returned (r, w') -> settled w w'.
Proof.
  funelim (uniform_loop m w);
    repeat match goal with
           | H : @eq (sigma _) _ _ |- _ => clear H
           end;
    intros Hi Hret.
  - discriminate.
  - inversion Hret; subst. eapply win32_random_settled; eassumption.
  - pose proof (win32_random_settled _ _ _ Hi Hdraw) as Hs.
    eapply win32_settled_trans; [exact Hs|].
    match goal with
    | IH : forall a b, _ -> uniform_loop _ _ = _ -> _ |- _ => eapply IH; [|eassumption]
    end.
    destruct Hs as [Hs _]. rewrite Hs. assumption.
Qed.

Lemma win32_run_operation_settled op w w' :
  initialized (stream w) = true -> op <> Posix.OpClose ->
  run_operation op w = Returned w' -> settled w w'.
Proof.
  intros Hi Hop. destruct op; cbn [run_operation]; intros H; try congruence.
  - rewrite (win32_stir_initialized _ Hi) in H. inversion H; subst.
    apply win32_settled_refl.
  - destruct (randombytes_sysrandom w) as [[u w1]|] eqn:E; inversion H; subst.
    eapply win32_random_settled; eassumption.
  - revert H. unfold randombytes_sysrandom_uniform, bind, ret.
    destruct (upper_bound <? 2).
    + intros H; inversion H; subst. apply win32_settled_refl.
    + destruct (uniform_loop _ w) as [[r w1]|] eqn:Hl; [|discriminate].
      intros H; inversion H; subst. eapply win32_uniform_loop_settled; eassumption.
  - destruct (randombytes_sysrandom_buf buf size w) as [[u w1]|] eqn:E;
      inversion H; subst.
    eapply win32_buf_settled; eassumption.
Qed.

Lemma win32_run_operations_settled ops : forall w w',
  initialized (stream w) = true -> Forall (fun op => op <> Posix.OpClose) ops ->
  run_operations ops w = Returned w' -> settled w w'.
Proof.
  induction ops as [|op more IH]; cbn [run_operations]; intros w w' Hi Hops H.
  - inversion H; subst. apply win32_settled_refl.
  - inversion Hops as [|? ? Hop Hmore]; subst.
    destruct (run_operation op w) as [w1|] eqn:E; [|discriminate].
    pose proof (win32_run_operation_settled _ _ _ Hi Hop E) as Hs.
    eapply win32_settled_trans; [exact Hs|]. eapply IH; try eassumption.
    destruct Hs as [Hs _]. rewrite Hs. assumption.
Qed.

End Win32.

(* ------------------------------------------------------------------ *)
(** ** Rejection sampling in numbers *)

(** [min] is below both [upper_bound] and 2^31. *)
Lemma uniform_min_bound (upper_bound : Z) :
  2 <= upper_bound -> upper_bound <= UINT32_MAX ->
  0 <= Posix.uniform_min upper_bound < upper_bound /\
  Posix.uniform_min upper_bound < 2 ^ 31.
Proof.
  intros Hlo Hhi. rewrite Posix.uniform_min_eq by assumption.
  pose proof (Z.mod_pos_bound (2 ^ 32) upper_bound ltac:(lia)) as Hm.
  split; [exact Hm|].
  destruct (Z_le_gt_dec upper_bound (2 ^ 31)) as [Hs|Hb]; [lia|].
  unfold UINT32_MAX in Hhi.
  rewrite <- (Z.mod_unique (2 ^ 32) upper_bound 1 (2 ^ 32 - upper_bound)); lia.
Qed.

(** How many of the values 0, 1, ..., n-1 the loop of
    [randombytes_sysrandom_uniform] rejects, that is, fail its test
    [r >= min].  With [n = 2^32] these are all the values of a sample; the
    number is there to be reasoned about, never to be evaluated. *)
Definition count_rejected (upper_bound : Z) (n : nat) : nat :=
  length (filter (fun r => negb (Posix.uniform_min upper_bound <=? r))
                 (map Z.of_nat (seq 0 n))).

(** The probability that one draw is rejected, the sample being uniform
    over its 2^32 values: the [min] rejected values out of 2^32. *)
Definition rejection_probability (upper_bound : Z) : Q :=
  Qmake (Posix.uniform_min upper_bound) (2 ^ 32).

(** The expected number of draws of the loop when it is cut off after [n]
    draws: one draw, and with the rejection probability what the remaining
    [n - 1] are expected to take.  The expectation of the loop itself is
    the supremum over [n]. *)
Fixpoint expected_draws (upper_bound : Z) (n : nat) : Q :=
  match n with
  | O => 0
  | S k => 1 + rejection_probability upper_bound * expected_draws upper_bound k
  end.

(** [q] to the power [n]. *)
Fixpoint qpower (q : Q) (n : nat) : Q :=
  match n with
  | O => 1
  | S k => q * qpower q k
  end.

(** Of the values 0, ..., n-1, those below [m] are [min n m] many. *)
Lemma count_below (m : Z) (n : nat) :
  0 <= m ->
  length (filter (fun r => negb (m <=? r)) (map Z.of_nat (seq 0 n)))
  = Nat.min n (Z.to_nat m).
Proof.
  intros Hm. induction n as [|n IH].
  - reflexivity.
  - rewrite seq_S, map_app, filter_app, length_app, IH. cbn [map filter Nat.add].
    destruct (m <=? Z.of_nat n) eqn:E; cbn [negb length].
    + apply Z.leb_le in E. lia.
    + apply Z.leb_gt in E. lia.
Qed.

Lemma rejection_probability_bound (upper_bound : Z) :
  2 <= upper_bound -> upper_bound <= UINT32_MAX ->
  (0 <= rejection_probability upper_bound /\
   rejection_probability upper_bound < 1 # 2)%Q.
Proof.
  intros Hlo Hhi.
  destruct (uniform_min_bound upper_bound Hlo Hhi) as [[H0 _] H31].
  unfold rejection_probability, Qle, Qlt; cbn [Qnum Qden]. lia.
Qed.

Lemma expected_draws_bound (upper_bound : Z) (n : nat) :
  (0 <= rejection_probability upper_bound)%Q ->
  (rejection_probability upper_bound < 1 # 2)%Q ->
  (0 <= expected_draws upper_bound n <= 2)%Q.
Proof.
  intros H0 H1. induction n as [|n IH]; cbn [expected_draws].
  - lra.
  - nra.
Qed.

(** The cut-off expectations are the partial sums of the geometric series:
    [(1 - p^n) / (1 - p)], growing towards [1 / (1 - p)]. *)
Lemma expected_draws_closed (upper_bound : Z) (n : nat) :
  (expected_draws upper_bound n * (1 - rejection_probability upper_bound)
   == 1 - qpower (rejection_probability upper_bound) n)%Q.
Proof.
  induction n as [|n IH]; cbn [expected_draws qpower].
  - ring.
  - set (p := rejection_probability upper_bound) in *.
    set (E := expected_draws upper_bound n) in *.
    setoid_replace ((1 + p * E) * (1 - p))%Q
      with ((1 - p) + p * (E * (1 - p)))%Q by ring.
    rewrite IH. ring.
Qed.

(* ------------------------------------------------------------------ *)
(** ** The provider, claim by claim *)

Import Posix.

(** A host for the worked examples: only [/dev/urandom] is there, [open]
    is going to return descriptor 3, and the device reads as scripted. *)
Definition example_os (script : list read_event) : OS :=
  mkOS ["/dev/urandom"%string] [3] [] script 0 false false.

(** A fresh process on that host. *)
Definition example_world (script : list read_event) : world :=
  mkWorld stream_init (example_os script).

(** The same process once the provider has been initialised. *)
Definition example_ready (script : list read_event) : world :=
  mkWorld (mkSysRandom 3 true)
          (mkOS ["/dev/urandom"%string] [] [] script 0 false false).

(** Five bytes in three short reads, with two interruptions. *)
Definition example_short_reads : list read_event :=
  [Errno EINTR; Deliver [x01; x02]; Errno EINTR; Deliver [x03]; Deliver [x04; x05]].

(** The samples 0x00000000, 0xFFFFFFFF, 0x00000003, 0x00000009 of a
    little-endian host, delivered in two reads. *)
Definition example_samples : list read_event :=
  [Deliver [x00; x00; x00; x00; xff; xff; xff];
   Deliver [xff; x03; x00; x00; x00; x09; x00; x00; x00]].

(** The first scenario of the specification: on a little-endian host the
    bytes 01 02 03 04 are the sample 0x04030201. *)
Example random_little_endian :
  randombytes_sysrandom (example_world [Deliver [x01; x02; x03; x04]])
  = Returned (0x04030201, example_ready []).
Proof. vm_compute. reflexivity. Qed.

(** C1: for every size (0 included) and every source that delivers the
    bytes in reads of positive length, with interrupted reads ([EINTR]) in
    between, [randombytes_sysrandom_buf (buf, size)] returns, and the object
    [buf] then holds the first [size] delivered bytes (the concatenation of
    the chunks when they add up to [size]) followed by its old bytes from
    offset [size] on: exactly [size] bytes were written.  Interrupted reads
    are retried and add nothing.  [w1] is the world after the lazy
    initialisation; for a positive size anything may follow the delivering
    part of the script. *)
Theorem buf_short_reads (w w1 : world) (buf : list byte) (size : Z)
    (s rest : list read_event) :
  randombytes_sysrandom_stir w = Returned (tt, w1) ->
  read_script (os w1) = s ++ rest ->
  Forall benign s ->
  0 <= size <= SIZE_MAX ->
  size <= Z.of_nat (length (delivered s)) ->
  (size = 0 -> rest = []) ->
  size <= Z.of_nat (length buf) ->
  exists o',
    randombytes_sysrandom_buf buf size w =
      Returned (firstn (Z.to_nat size) (delivered s) ++ skipn (Z.to_nat size) buf,
                mkWorld (stream w1) o').
Proof.
  intros Hstir Hs Hben Hsize Hlen Hz Hfit.
  destruct (safe_read_delivers (random_data_source_fd (stream w1)) buf size s rest
              (os w1) Hs Hben) as [o' Ho']; try assumption.
  { unfold SIZE_MAX in Hsize. lia. }
  exists o'.
  rewrite (buf_after_safe_read _ _ _ _ _ _ _ Hstir Hsize Ho').
  rewrite Z.eqb_refl. reflexivity.
Qed.

Lemma buf_short_reads_witness :
  exists o',
    randombytes_sysrandom_buf [x00; x00; x00; x00; x00; xaa] 5
      (example_world example_short_reads) =
      Returned ([x01; x02; x03; x04; x05; xaa], mkWorld (mkSysRandom 3 true) o').
Proof.
  apply (buf_short_reads (example_world example_short_reads)
           (example_ready example_short_reads)
           [x00; x00; x00; x00; x00; xaa] 5 example_short_reads []).
  - reflexivity.
  - reflexivity.
  - repeat constructor; discriminate.
  - unfold SIZE_MAX. lia.
  - cbn. lia.
  - intros H. discriminate H.
  - cbn. lia.
Defined.

(** C2: for every [upper_bound >= 2], [randombytes_sysrandom_uniform
    (upper_bound)] returns [v] exactly when the samples drawn from the
    source are some samples below [min = 2^32 mod upper_bound] followed by a
    first sample [r >= min], and [v = r mod upper_bound]; nothing more is
    drawn.  Whenever it returns, [0 <= v < upper_bound]. *)
Theorem uniform_first_accepted (upper_bound : Z) (w w' : world) (v : Z) :
  2 <= upper_bound -> upper_bound <= UINT32_MAX ->
  (randombytes_sysrandom_uniform upper_bound w = Returned (v, w') <->
   exists rejected r,
     draw (S (length rejected)) w = Returned (rejected ++ [r], w') /\
     Forall (fun x => x < 2 ^ 32 mod upper_bound) rejected /\
     2 ^ 32 mod upper_bound <= r /\
     v = r mod upper_bound) /\
  (randombytes_sysrandom_uniform upper_bound w = Returned (v, w') ->
   0 <= v < upper_bound).
Proof.
  intros Hlo Hhi.
  assert (Hiff : randombytes_sysrandom_uniform upper_bound w = Returned (v, w') <->
   exists rejected r,
     draw (S (length rejected)) w = Returned (rejected ++ [r], w') /\
     Forall (fun x => x < 2 ^ 32 mod upper_bound) rejected /\
     2 ^ 32 mod upper_bound <= r /\
     v = r mod upper_bound).
  { unfold randombytes_sysrandom_uniform, bind, ret.
    replace (upper_bound <? 2) with false by (symmetry; apply Z.ltb_ge; lia).
    rewrite (uniform_min_eq _ Hlo Hhi). split.
    - destruct (uniform_loop _ w) as [[r w1]|] eqn:Hl; [|discriminate].
      intros H; inversion H; subst.
      destruct (uniform_loop_draws _ _ _ _ Hl) as (rej & Hd & Hall & Hacc).
      exists rej, r. auto.
    - intros (rej & r & Hd & Hall & Hacc & ->).
      rewrite (draws_uniform_loop _ _ _ _ _ Hd Hall Hacc). reflexivity. }
  split; [exact Hiff|].
  intros H. apply Hiff in H. destruct H as (rej & r & _ & _ & _ & ->).
  apply Z.mod_pos_bound. lia.
Qed.

Lemma uniform_first_accepted_witness :
  (randombytes_sysrandom_uniform 10 (example_world example_samples)
     = Returned (5, example_ready [Deliver [x03; x00; x00; x00; x09; x00; x00; x00]]) <->
   exists rejected r,
     draw (S (length rejected)) (example_world example_samples)
       = Returned (rejected ++ [r],
                   example_ready [Deliver [x03; x00; x00; x00; x09; x00; x00; x00]]) /\
     Forall (fun x => x < 2 ^ 32 mod 10) rejected /\
     2 ^ 32 mod 10 <= r /\
     5 = r mod 10) /\
  (randombytes_sysrandom_uniform 10 (example_world example_samples)
     = Returned (5, example_ready [Deliver [x03; x00; x00; x00; x09; x00; x00; x00]]) ->
   0 <= 5 < 10).
Proof.
  apply (uniform_first_accepted 10).
  - lia.
  - unfold UINT32_MAX. lia.
Defined.

(** C3: for every [upper_bound >= 2] the threshold the code computes,
    [(uint32_t) (-upper_bound % upper_bound)] in 32-bit unsigned arithmetic,
    is [2^32 mod upper_bound]; the negation alone is [2^32 - upper_bound]. *)
Theorem uniform_min_is_pow32_mod (upper_bound : Z) :
  2 <= upper_bound -> upper_bound <= UINT32_MAX ->
  to_uint32 (- upper_bound) = 2 ^ 32 - upper_bound /\
  uniform_min upper_bound = 2 ^ 32 mod upper_bound.
Proof.
  intros Hlo Hhi. split.
  - unfold to_uint32, UINT32_MAX in *.
    symmetry. apply Z.mod_unique with (q := -1); lia.
  - apply uniform_min_eq; assumption.
Qed.

Lemma uniform_min_is_pow32_mod_witness :
  to_uint32 (- 10) = 2 ^ 32 - 10 /\ uniform_min 10 = 2 ^ 32 mod 10.
Proof.
  apply (uniform_min_is_pow32_mod 10).
  - lia.
  - unfold UINT32_MAX. lia.
Defined.

(** C7: [randombytes_sysrandom_uniform (10)] against the samples
    0x00000000, 0xFFFFFFFF, 0x00000003, 0x00000009: the threshold is 6, the
    first sample is below it and the loop goes on, the second is accepted,
    and the value returned is 5 = 0xFFFFFFFF mod 10; the last two samples
    are still to be drawn. *)
Theorem uniform_10_scenario (w w4 : world) :
  draw 4 w = Returned ([0x00000000; 0xFFFFFFFF; 0x00000003; 0x00000009], w4) ->
  uniform_min 10 = 6 /\
  exists w1 w2,
    randombytes_sysrandom w = Returned (0x00000000, w1) /\
    (uniform_min 10 <=? 0x00000000) = false /\
    uniform_loop (uniform_min 10) w = uniform_loop (uniform_min 10) w1 /\
    randombytes_sysrandom w1 = Returned (0xFFFFFFFF, w2) /\
    (uniform_min 10 <=? 0xFFFFFFFF) = true /\
    uniform_loop (uniform_min 10) w1 = Returned (0xFFFFFFFF, w2) /\
    randombytes_sysrandom_uniform 10 w = Returned (5, w2) /\
    draw 2 w2 = Returned ([0x00000003; 0x00000009], w4).
Proof.
  intros Hd. split; [reflexivity|].
  rewrite draw_step in Hd.
  destruct (randombytes_sysrandom w) as [[r1 w1]|] eqn:H1; [|discriminate].
  rewrite draw_step in Hd.
  destruct (randombytes_sysrandom w1) as [[r2 w2]|] eqn:H2; [|discriminate].
  destruct (draw 2 w2) as [[rs w3]|] eqn:H3; [|discriminate].
  inversion Hd; subst; clear Hd.
  exists w1, w2.
  assert (Hrej : uniform_loop (uniform_min 10) w = uniform_loop (uniform_min 10) w1).
  { rewrite (uniform_loop_step _ w), H1. reflexivity. }
  assert (Hacc : uniform_loop (uniform_min 10) w1 = Returned (0xFFFFFFFF, w2)).
  { rewrite (uniform_loop_step _ w1), H2. reflexivity. }
  repeat split; try assumption.
  unfold randombytes_sysrandom_uniform, bind, ret. cbn [Z.ltb Z.compare Pos.compare Pos.compare_cont].
  rewrite Hrej, Hacc. reflexivity.
Qed.

Lemma uniform_10_scenario_witness :
  uniform_min 10 = 6 /\
  exists w1 w2,
    randombytes_sysrandom (example_world example_samples) = Returned (0x00000000, w1) /\
    (uniform_min 10 <=? 0x00000000) = false /\
    uniform_loop (uniform_min 10) (example_world example_samples)
      = uniform_loop (uniform_min 10) w1 /\
    randombytes_sysrandom w1 = Returned (0xFFFFFFFF, w2) /\
    (uniform_min 10 <=? 0xFFFFFFFF) = true /\
    uniform_loop (uniform_min 10) w1 = Returned (0xFFFFFFFF, w2) /\
    randombytes_sysrandom_uniform 10 (example_world example_samples) = Returned (5, w2) /\
    draw 2 w2 = Returned ([0x00000003; 0x00000009], example_ready []).
Proof.
  apply (uniform_10_scenario (example_world example_samples) (example_ready [])).
  vm_compute. reflexivity.
Defined.

(** C9: for every [upper_bound < 2], [randombytes_sysrandom_uniform] returns 0
    at once: it does not abort, draws nothing and does not even initialise
    the provider.  In particular for 0 and for 1. *)
Theorem uniform_degenerate (upper_bound : Z) (w : world) :
  upper_bound < 2 ->
  randombytes_sysrandom_uniform upper_bound w = Returned (0, w).
Proof.
  intros H. unfold randombytes_sysrandom_uniform.
  replace (upper_bound <? 2) with true by (symmetry; apply Z.ltb_lt; lia).
  reflexivity.
Qed.

Lemma uniform_degenerate_witness :
  randombytes_sysrandom_uniform 0 (example_world []) = Returned (0, example_world []) /\
  randombytes_sysrandom_uniform 1 (example_world []) = Returned (0, example_world []).
Proof.
  split.
  - apply (uniform_degenerate 0). lia.
  - apply (uniform_degenerate 1). lia.
Defined.

(** A Windows host for the worked examples, and a provider on it that holds
    context 7. *)
Definition example_win32 (releases : list bool) : Win32.world :=
  Win32.mkWorld (Win32.mkSysRandom 7 (-1) true) (Win32.mkOS [] releases []).

(** C5: [randombytes_sysrandom_close] on a provider that is not initialised
    returns -1 and changes nothing; on an initialised provider it asks the
    host to close (POSIX) or release (Windows): when that fails it returns
    -1 and the provider state stays as it was; when it succeeds it returns
    0, the descriptor is -1 again and the flag is cleared (on Windows only
    the flag is), and a second [close] right after returns -1.  The POSIX
    provider is taken in a state its operations can reach ([stream_inv]). *)
Theorem close_status (w : world) (ww : Win32.world) :
  stream_inv (stream w) ->
  (initialized (stream w) = false ->
   randombytes_sysrandom_close w = Returned (-1, w)) /\
  (initialized (stream w) = true ->
   forall r o',
     sys_close (random_data_source_fd (stream w)) (os w) = (r, o') ->
     (r <> 0 ->
      randombytes_sysrandom_close w = Returned (-1, mkWorld (stream w) o')) /\
     (r = 0 ->
      randombytes_sysrandom_close w
        = Returned (0, mkWorld (mkSysRandom (-1) false) o') /\
      randombytes_sysrandom_close (mkWorld (mkSysRandom (-1) false) o')
        = Returned (-1, mkWorld (mkSysRandom (-1) false) o'))) /\
  (Win32.initialized (Win32.stream ww) = false ->
   Win32.randombytes_sysrandom_close ww = Returned (-1, ww)) /\
  (Win32.initialized (Win32.stream ww) = true ->
   forall ok o',
     Win32.CryptReleaseContext (Win32.hcrypt_prov (Win32.stream ww)) (Win32.os ww)
       = (ok, o') ->
     (ok = false ->
      Win32.randombytes_sysrandom_close ww
        = Returned (-1, Win32.mkWorld (Win32.stream ww) o')) /\
     (ok = true ->
      let closed :=
        Win32.mkWorld
          (Win32.mkSysRandom (Win32.hcrypt_prov (Win32.stream ww))
             (Win32.random_data_source_fd (Win32.stream ww)) false) o' in
      Win32.randombytes_sysrandom_close ww = Returned (0, closed) /\
      Win32.randombytes_sysrandom_close closed = Returned (-1, closed))).
Proof.
  intros Hinv. split; [|split; [|split]].
  - intros Hi. apply close_absent.
    destruct (Z.eq_dec (random_data_source_fd (stream w)) (-1)) as [Hfd|Hfd];
      [assumption|].
    apply Hinv in Hfd. congruence.
  - intros Hi r o' Hc. apply Hinv in Hi.
    rewrite (close_open _ _ _ Hi Hc). split.
    + intros Hr. apply Z.eqb_neq in Hr. rewrite Hr. reflexivity.
    + intros ->. split; [reflexivity|]. apply close_absent. reflexivity.
  - apply Win32.win32_close_uninitialized.
  - intros Hi ok o' Hc. rewrite (Win32.win32_close_initialized _ _ _ Hi Hc). split.
    + intros ->. reflexivity.
    + intros ->. split; [reflexivity|]. apply Win32.win32_close_uninitialized. reflexivity.
Qed.

Lemma close_status_witness :
  randombytes_sysrandom_close (example_world []) = Returned (-1, example_world []) /\
  (randombytes_sysrandom_close (example_ready [])
     = Returned (0, mkWorld (mkSysRandom (-1) false) (os (example_ready []))) /\
   randombytes_sysrandom_close (mkWorld (mkSysRandom (-1) false) (os (example_ready [])))
     = Returned (-1, mkWorld (mkSysRandom (-1) false) (os (example_ready [])))) /\
  Win32.randombytes_sysrandom_close (example_win32 [false])
    = Returned (-1, Win32.mkWorld (Win32.stream (example_win32 [false]))
                                  (Win32.mkOS [] [] [])).
Proof.
  assert (Hinv : stream_inv (stream (example_ready []))).
  { split; [intros _ H; discriminate H | reflexivity]. }
  assert (Hinv0 : stream_inv (stream (example_world []))).
  { split; [intros H; discriminate H | intros H; exfalso; apply H; reflexivity]. }
  split; [|split].
  - exact (proj1 (close_status (example_world []) (example_win32 []) Hinv0) eq_refl).
  - exact (proj2 (proj1 (proj2 (close_status (example_ready []) (example_win32 []) Hinv))
                    eq_refl 0 (os (example_ready [])) eq_refl) eq_refl).
  - exact (proj1 (proj2 (proj2 (proj2 (close_status (example_ready [])
                                         (example_win32 [false]) Hinv)))
                    eq_refl false (Win32.mkOS [] [] []) eq_refl) eq_refl).
Defined.

(** C8: [randombytes_sysrandom_stir] is idempotent.  On a provider that is
    not initialised it acquires the source (the device probe on POSIX,
    [CryptAcquireContext] on Windows, or it aborts) and sets the flag; on
    an initialised one it does nothing.  So any number of calls in a row is
    the first call: same handle, same host, nothing acquired again; and
    whatever operations other than [close] follow the first acquisition,
    the handle stays the one it produced and no further [open] (on
    Windows, no further [CryptAcquireContext]) is made.  Each part is
    stated of the POSIX build and of the Windows build. *)
Theorem stir_idempotent (w : world) (ww : Win32.world) :
  (initialized (stream w) = false ->
   randombytes_sysrandom_stir w =
     let (fd, o') := randombytes_sysrandom_random_dev_open (os w) in
     if fd =? -1 then Aborted
     else Returned (tt, mkWorld (mkSysRandom fd true) o')) /\
  (initialized (stream w) = true ->
   randombytes_sysrandom_stir w = Returned (tt, w)) /\
  (forall n, repeat_call (S n) randombytes_sysrandom_stir w
             = randombytes_sysrandom_stir w) /\
  (forall w1 ops w2,
     randombytes_sysrandom_stir w = Returned (tt, w1) ->
     Forall (fun op => op <> OpClose) ops ->
     run_operations ops w1 = Returned w2 ->
     stream w2 = stream w1 /\ open_script (os w2) = open_script (os w1)) /\
  (forall n, repeat_call (S n) Win32.randombytes_sysrandom_stir ww
             = Win32.randombytes_sysrandom_stir ww) /\
  (Win32.initialized (Win32.stream ww) = false ->
   Win32.randombytes_sysrandom_stir ww =
     match Win32.CryptAcquireContext (Win32.os ww) with
     | (Some h, o') =>
         Returned (tt, Win32.mkWorld
                         (Win32.mkSysRandom
                            h (Win32.random_data_source_fd (Win32.stream ww)) true) o')
     | (None, _) => Aborted
     end) /\
  (Win32.initialized (Win32.stream ww) = true ->
   Win32.randombytes_sysrandom_stir ww = Returned (tt, ww)) /\
  (forall ww1 ops ww2,
     Win32.randombytes_sysrandom_stir ww = Returned (tt, ww1) ->
     Forall (fun op => op <> OpClose) ops ->
     Win32.run_operations ops ww1 = Returned ww2 ->
     Win32.initialized (Win32.stream ww1) = true /\
     Win32.stream ww2 = Win32.stream ww1 /\
     Win32.acquire_script (Win32.os ww2) = Win32.acquire_script (Win32.os ww1)).
Proof.
  split; [|split; [|split; [|split; [|split; [|split; [|split]]]]]].
  - apply stir_uninitialized.
  - apply stir_initialized.
  - intros n. apply repeat_stir.
  - intros w1 ops w2 Hs Hops Hrun.
    apply stir_sets_flag in Hs.
    destruct (run_operations_settled ops w1 w2 Hs Hops Hrun) as [Hst Hh].
    split; [exact Hst | apply Hh].
  - intros n. apply Win32.win32_repeat_stir.
  - apply Win32.win32_stir_uninitialized.
  - apply Win32.win32_stir_initialized.
  - intros ww1 ops ww2 Hs Hops Hrun.
    apply Win32.win32_stir_sets_flag in Hs.
    destruct (Win32.win32_run_operations_settled ops ww1 ww2 Hs Hops Hrun)
      as (Hst & Hacq & _).
    split; [exact Hs | split; [exact Hst | exact Hacq]].
Qed.

Lemma stir_idempotent_witness :
  randombytes_sysrandom_stir (example_world []) = Returned (tt, example_ready []) /\
  repeat_call 3 randombytes_sysrandom_stir (example_world [])
    = randombytes_sysrandom_stir (example_world []) /\
  (forall w2,
     run_operations [OpStir; OpRandom; OpStir; OpUniform 10; OpStir]
                    (example_ready example_samples) = Returned w2 ->
     stream w2 = stream (example_ready example_samples) /\
     open_script (os w2) = open_script (os (example_ready example_samples))) /\
  Win32.randombytes_sysrandom_stir
    (Win32.mkWorld (Win32.mkSysRandom 0 (-1) false) (Win32.mkOS [Some 7; Some 8] [] []))
    = Returned (tt, Win32.mkWorld (Win32.mkSysRandom 7 (-1) true)
                                  (Win32.mkOS [Some 8] [] [])) /\
  (forall ww2,
     Win32.run_operations [OpStir; OpBuf [x00] 1; OpStir; OpRandom; OpUniform 10; OpStir]
       (Win32.mkWorld (Win32.mkSysRandom 7 (-1) true)
          (Win32.mkOS [Some 8] []
             [Win32.Generated (fun _ => x2a); Win32.Generated (fun _ => x00);
              Win32.Generated (fun _ => xff)]))
       = Returned ww2 ->
     Win32.stream ww2 = Win32.mkSysRandom 7 (-1) true /\
     Win32.acquire_script (Win32.os ww2) = [Some 8]).
Proof.
  pose proof (stir_idempotent (example_world example_samples) (example_win32 []))
    as (_ & _ & _ & Hseq & _).
  pose proof (stir_idempotent (example_world []) (example_win32 []))
    as (Hfirst & _ & Hrep & _ & _).
  pose proof (stir_idempotent (example_world [])
                (Win32.mkWorld (Win32.mkSysRandom 0 (-1) false)
                   (Win32.mkOS [Some 7; Some 8] [] [])))
    as (_ & _ & _ & _ & _ & Hwfirst & _ & _).
  pose proof (stir_idempotent (example_world [])
                (Win32.mkWorld (Win32.mkSysRandom 7 (-1) true)
                   (Win32.mkOS [Some 8] []
                      [Win32.Generated (fun _ => x2a); Win32.Generated (fun _ => x00);
                       Win32.Generated (fun _ => xff)])))
    as (_ & _ & _ & _ & _ & _ & _ & Hwseq).
  split; [exact (Hfirst eq_refl) | split; [exact (Hrep 2%nat)|]].
  split; [|split; [exact (Hwfirst eq_refl)|]].
  - intros w2 Hrun.
    apply (Hseq (example_ready example_samples)
                [OpStir; OpRandom; OpStir; OpUniform 10; OpStir] w2).
    + reflexivity.
    + repeat constructor; discriminate.
    + exact Hrun.
  - intros ww2 Hrun.
    exact (proj2 (Hwseq _ [OpStir; OpBuf [x00] 1; OpStir; OpRandom; OpUniform 10; OpStir]
                    ww2 eq_refl ltac:(repeat constructor; discriminate) Hrun)).
Defined.

(** C10: in the POSIX build, [initialized == 1] exactly when
    [random_data_source_fd != -1]: this holds of the initial [stream], every
    public operation that returns preserves it, and so it holds after any
    sequence of them.  Initialisation, when it returns, has installed a
    descriptor other than -1 and not yet touched the flag; [close] either
    leaves the state as it is or, returning 0, resets descriptor and flag
    together. *)
Theorem stream_invariant :
  stream_inv stream_init /\
  (forall op w w',
     stream_inv (stream w) -> run_operation op w = Returned w' ->
     stream_inv (stream w')) /\
  (forall ops o w',
     run_operations ops (mkWorld stream_init o) = Returned w' ->
     stream_inv (stream w')) /\
  (forall w u w',
     randombytes_sysrandom_init w = Returned (u, w') ->
     random_data_source_fd (stream w') <> -1 /\
     initialized (stream w') = initialized (stream w)) /\
  (forall w r w',
     randombytes_sysrandom_close w = Returned (r, w') ->
     (r = -1 /\ stream w' = stream w) \/
     (r = 0 /\ stream w' = stream_init /\
      random_data_source_fd (stream w) <> -1 /\
      fst (sys_close (random_data_source_fd (stream w)) (os w)) = 0)).
Proof.
  split; [|split; [|split; [|split]]].
  - exact stream_inv_init.
  - intros op w w' Hinv Hrun. eapply run_operation_inv; eassumption.
  - intros ops o w' Hrun.
    apply (run_operations_inv ops _ _ Hrun). exact stream_inv_init.
  - intros w u w'.
    unfold randombytes_sysrandom_init, bind, syscall, set_fd, abort, ret.
    destruct (randombytes_sysrandom_random_dev_open (os w)) as [fd o'].
    destruct (fd =? -1) eqn:Hfd; [discriminate|].
    intros H; inversion H; subst. cbn. apply Z.eqb_neq in Hfd. auto.
  - intros w r w' H.
    destruct (Z.eq_dec (random_data_source_fd (stream w)) (-1)) as [Hfd|Hfd].
    + rewrite (close_absent _ Hfd) in H. inversion H; subst. auto.
    + destruct (sys_close (random_data_source_fd (stream w)) (os w)) as [c o'] eqn:Hc.
      rewrite (close_open _ _ _ Hfd Hc) in H.
      destruct (c =? 0) eqn:Hz; inversion H; subst; [right | left]; auto.
      apply Z.eqb_eq in Hz. auto.
Qed.

Lemma stream_invariant_witness :
  stream_inv (stream (example_ready [Deliver [x03]])) /\
  stream_inv (stream (mkWorld stream_init (os (example_ready [Deliver [x03]])))).
Proof.
  pose proof stream_invariant as (_ & _ & Hseq & _ & _).
  split.
  - apply (Hseq [OpBuf [x00; x00] 2; OpStir; OpUniform 1]
                (example_os [Deliver [x01; x02; x03]])).
    vm_compute. reflexivity.
  - apply (Hseq [OpUniform 1; OpStir; OpBuf [x00; x00] 2; OpClose]
                (example_os [Deliver [x01; x02; x03]])).
    vm_compute. reflexivity.
Defined.

(** C4, where the code departs from it: a request of [SIZE_MAX] bytes whose
    first [read] fails with [EINVAL] (what a host answers that refuses
    counts of that size).  [safe_read] returns -1, which is also what
    [(ssize_t) size] is, so [randombytes_sysrandom_buf] returns normally,
    the buffer untouched, where the claim has it abort.  One byte less and
    the same failure aborts. *)
Theorem buf_read_error_at_SIZE_MAX_returns :
  randombytes_sysrandom_buf [x00; x00; x00; x00] SIZE_MAX
    (example_world [Errno EINVAL])
  = Returned ([x00; x00; x00; x00],
              mkWorld (mkSysRandom 3 true)
                      (mkOS ["/dev/urandom"%string] [] [] [] EINVAL false false)) /\
  randombytes_sysrandom_buf [x00; x00; x00; x00] (SIZE_MAX - 1)
    (example_world [Errno EINVAL])
  = Aborted.
Proof. split; vm_compute; reflexivity. Qed.


(* ------------------------------------------------------------------ *)
(** ** Further properties: the drain loop against any source *)

(** One [read], whatever it meets: the bytes it takes are the head of the
    stream still to be delivered, they are written at the cursor, and the
    value returned is their number, or -1 with nothing taken. *)
Lemma sys_read_taken fd mem off count o r mem' o' :
  sys_read fd mem off count o = (r, mem', o') ->
  0 <= count < 2 ^ 64 ->
  exists taken,
    delivered (read_script o) = taken ++ delivered (read_script o') /\
    mem' = store mem off taken /\
    Z.of_nat (length taken) <= count /\
    (r = -1 /\ taken = [] \/ r = Z.of_nat (length taken)).
Proof.
  unfold sys_read. intros H Hcount.
  destruct (read_script o) as [|[bs|e] rest] eqn:Hs.
  - inversion H; subst. exists []. rewrite Hs, store_nil.
    split; [reflexivity | split; [reflexivity | split; [cbn; lia | right; reflexivity]]].
  - inversion H; subst; clear H. cbn [read_script set_read_script].
    set (n := read_amount count bs).
    assert (Hn : 0 <= n <= Z.of_nat (length bs) /\ n <= count).
    { unfold n, read_amount, to_size_t, SSIZE_MAX.
      rewrite Z.mod_small by lia. lia. }
    exists (firstn (Z.to_nat n) bs).
    assert (Hlen : Z.of_nat (length (firstn (Z.to_nat n) bs)) = n)
      by (rewrite length_firstn; lia).
    split; [|split; [reflexivity | split; [lia | right; lia]]].
    cbn [delivered].
    destruct (n <? Z.of_nat (length bs)) eqn:E; cbn [delivered].
    + now rewrite app_assoc, firstn_skipn.
    + apply Z.ltb_ge in E. rewrite firstn_all2 by lia. reflexivity.
  - inversion H; subst. exists []. rewrite store_nil.
    split; [reflexivity | split; [reflexivity | split; [cbn; lia | left; split; reflexivity]]].
Qed.

Lemma read_retry_taken fd mem off count o r mem' o' :
  read_retry fd mem off count o = (r, mem', o') ->
  0 <= count < 2 ^ 64 ->
  exists taken,
    delivered (read_script o) = taken ++ delivered (read_script o') /\
    mem' = store mem off taken /\
    Z.of_nat (length taken) <= count /\
    (r = -1 /\ taken = [] \/ r = Z.of_nat (length taken)).
Proof.
  funelim (read_retry fd mem off count o); drop_inspect; intros Hr Hcount.
  - destruct (sys_read_taken _ _ _ _ _ _ _ _ Hread Hcount)
      as (t & Hd & Hm & _ & [[_ Ht]|Hlen]).
    + subst t. rewrite store_nil in Hm. subst mem'. cbn [app] in Hd. rewrite Hd.
      match goal with
      | IH : forall a b c, read_retry _ _ _ _ _ = _ -> _ |- _ => exact (IH _ _ _ Hr Hcount)
      end.
    + apply andb_prop in Hagain. destruct Hagain as [Hneg _].
      apply Z.ltb_lt in Hneg. lia.
  - inversion Hr; subst. eapply sys_read_taken; eassumption.
Qed.

(** [safe_read_loop], whatever the source: the bytes taken are the head of
    the stream, at most [count] of them, written in one piece at the
    cursor; the value returned is -1 (a read failed) or the distance of the
    cursor from the start of the object. *)
Lemma safe_read_loop_taken fd mem off count o r mem' o' :
  safe_read_loop fd mem off count o = (r, mem', o') ->
  0 <= count < 2 ^ 64 -> 0 <= off -> off <= Z.of_nat (length mem) ->
  exists taken,
    delivered (read_script o) = taken ++ delivered (read_script o') /\
    mem' = store mem off taken /\
    Z.of_nat (length taken) <= count /\
    (r = -1 \/ r = to_ssize_t (off + Z.of_nat (length taken))).
Proof.
  funelim (safe_read_loop fd mem off count o); drop_inspect;
    intros Hr Hcount Hoff Hfit;
    destruct (read_retry_taken _ _ _ _ _ _ _ _ Hread Hcount)
      as (t & Hd & Hm & Hle & Hret).
  - inversion Hr; subst. exists t. repeat split; try assumption.
    left. match goal with Hn : (_ <? 0) = true |- _ => apply Z.ltb_lt in Hn end.
    destruct Hret as [[? _]|?]; lia.
  - inversion Hr; subst.
    match goal with Hz : (_ =? 0) = true |- _ => apply Z.eqb_eq in Hz end.
    exists t. repeat split; try assumption. right.
    destruct Hret as [[? _]|Hlen]; [lia|]. do 2 f_equal. lia.
  - match goal with Hn : (_ <? 0) = false |- _ => apply Z.ltb_ge in Hn end.
    apply Z.eqb_neq in Hprogress.
    destruct Hret as [[? _]|Hlen]; [lia|].
    assert (Hc' : to_size_t (count - to_size_t readnb) = count - readnb).
    { unfold to_size_t. rewrite (Z.mod_small readnb) by lia. apply Z.mod_small. lia. }
    rewrite Hc' in *.
    match goal with
    | IH : forall a b c, safe_read_loop _ _ _ _ _ = _ -> _ |- _ =>
        destruct (IH _ _ _ Hr) as (t2 & Hd2 & Hm2 & Hle2 & Hret2)
    end; try lia.
    { subst mem'. unfold store. rewrite !length_app, length_firstn. lia. }
    exists (t ++ t2). rewrite length_app, Nat2Z.inj_add.
    repeat split.
    + rewrite Hd, Hd2. now rewrite app_assoc.
    + rewrite Hm2, Hm, Hlen. apply store_store; lia.
    + lia.
    + destruct Hret2 as [?|Hr2]; [now left | right].
      rewrite Hr2. f_equal. lia.
  - inversion Hr; subst.
    match goal with Hn : (_ <? 0) = false |- _ => apply Z.ltb_ge in Hn end.
    apply Z.eqb_neq in Hprogress.
    destruct Hret as [[? _]|Hlen]; [lia|].
    exists t. repeat split; try assumption. right. do 2 f_equal. lia.
Qed.

(** X1: [safe_read], whatever the source does, on an object of at least
    [count] bytes.  The bytes it takes are the next bytes of the stream,
    none skipped and none twice; there are at most [count] of them; they
    replace the first bytes of the object, the rest of the object is as it
    was and the object keeps its size; the value returned is -1 (a read
    failed with an error other than [EINTR]) or their number as an
    [ssize_t].  Nothing of the host but its reads and [errno] changes. *)
Theorem safe_read_contract (fd : Z) (buf_ : list byte) (count : Z) (o : OS)
    (r : Z) (buf' : list byte) (o' : OS) :
  safe_read fd buf_ count o = (r, buf', o') ->
  0 <= count <= SIZE_MAX ->
  count <= Z.of_nat (length buf_) ->
  exists taken,
    delivered (read_script o) = taken ++ delivered (read_script o') /\
    buf' = taken ++ skipn (length taken) buf_ /\
    length buf' = length buf_ /\
    Z.of_nat (length taken) <= count /\
    (r = -1 \/ r = to_ssize_t (Z.of_nat (length taken))) /\
    same_host o o'.
Proof.
  unfold safe_read, SIZE_MAX. intros H Hcount Hfit.
  destruct (safe_read_loop_taken _ _ _ _ _ _ _ _ H) as (t & Hd & Hm & Hle & Hr);
    try lia.
  exists t. rewrite store_at_start in Hm.
  split; [exact Hd | split; [exact Hm | split; [| split; [exact Hle | split]]]].
  - rewrite Hm, length_app, length_skipn. lia.
  - exact Hr.
  - eapply safe_read_loop_same_host; eassumption.
Qed.

(** A source that delivers two bytes, is interrupted, delivers two more and
    then fails. *)
Definition example_flaky : list read_event :=
  [Deliver [x01; x02]; Errno EINTR; Deliver [x03; x04]; Errno EINVAL; Deliver [x05]].

(** The host of [example_ready example_flaky] once three bytes are taken. *)
Definition example_flaky_after : OS :=
  mkOS ["/dev/urandom"%string] [] [] [Deliver [x04]; Errno EINVAL; Deliver [x05]]
       EINTR false false.

Lemma safe_read_contract_witness :
  exists taken,
    delivered (read_script (os (example_ready example_flaky)))
      = taken ++ delivered (read_script example_flaky_after) /\
    [x01; x02; x03; x00; xaa] = taken ++ skipn (length taken) [x00; x00; x00; x00; xaa] /\
    length [x01; x02; x03; x00; xaa] = length [x00; x00; x00; x00; xaa] /\
    Z.of_nat (length taken) <= 3 /\
    (3 = -1 \/ 3 = to_ssize_t (Z.of_nat (length taken))) /\
    same_host (os (example_ready example_flaky)) example_flaky_after.
Proof.
  apply (safe_read_contract 3 [x00; x00; x00; x00; xaa] 3
           (os (example_ready example_flaky)) 3 [x01; x02; x03; x00; xaa]
           example_flaky_after).
  - vm_compute. reflexivity.
  - unfold SIZE_MAX. lia.
  - cbn. lia.
Defined.

(** What a returning [buf] took, for a size below [SIZE_MAX]. *)
Lemma buf_returned_taken (w : world) (b : list byte) (size : Z) b' w' :
  0 <= size < SIZE_MAX ->
  size <= Z.of_nat (length b) ->
  randombytes_sysrandom_buf b size w = Returned (b', w') ->
  exists taken,
    Z.of_nat (length taken) = size /\
    b' = taken ++ skipn (Z.to_nat size) b /\
    delivered (read_script (os w)) = taken ++ delivered (read_script (os w')).
Proof.
  intros Hsize Hfit H.
  destruct (buf_returned _ _ _ _ _ H) as (w1 & o' & Hs & Hsr & ->).
  apply stir_read_script in Hs. rewrite <- Hs. cbn [os].
  unfold safe_read in Hsr. unfold SIZE_MAX in Hsize.
  destruct (safe_read_loop_taken _ _ _ _ _ _ _ _ Hsr) as (t & Hd & Hm & Hle & Hr);
    try lia.
  assert (Hlen : Z.of_nat (length t) = size).
  { destruct Hr as [Hr|Hr].
    - apply to_ssize_t_minus_one in Hr; unfold SIZE_MAX in Hr; lia.
    - cbn [Z.add] in Hr. apply to_ssize_t_inj in Hr; lia. }
  exists t. split; [exact Hlen | split; [|exact Hd]].
  rewrite Hm, store_at_start. do 2 f_equal. lia.
Qed.

(** X2: [randombytes_sysrandom_buf] fills exactly [size] bytes or aborts,
    whatever the source does.  For every size below [SIZE_MAX]: when it
    returns, the first [size] bytes of the object are the next [size] bytes
    of the stream, the other bytes of the object are as they were, and the
    stream has moved on by exactly these bytes; and when the source has
    fewer than [size] bytes left to deliver, it aborts. *)
Theorem buf_exactly_size_or_abort (w : world) (buf : list byte) (size : Z) :
  0 <= size < SIZE_MAX ->
  size <= Z.of_nat (length buf) ->
  (forall buf' w',
     randombytes_sysrandom_buf buf size w = Returned (buf', w') ->
     exists taken,
       Z.of_nat (length taken) = size /\
       buf' = taken ++ skipn (Z.to_nat size) buf /\
       delivered (read_script (os w)) = taken ++ delivered (read_script (os w'))) /\
  (Z.of_nat (length (delivered (read_script (os w)))) < size ->
   randombytes_sysrandom_buf buf size w = Aborted).
Proof.
  intros Hsize Hfit.
  split; [intros buf' w'; apply buf_returned_taken; assumption|].
  intros Hshort.
  destruct (randombytes_sysrandom_buf buf size w) as [[buf' w']|] eqn:H; [|reflexivity].
  destruct (buf_returned_taken _ _ _ _ _ Hsize Hfit H) as (t & Hlen & _ & Hd).
  rewrite Hd, length_app in Hshort. lia.
Qed.

Lemma buf_exactly_size_or_abort_witness :
  (exists taken,
     Z.of_nat (length taken) = 3 /\
     [x01; x02; x03; x00; xaa] = taken ++ skipn (Z.to_nat 3) [x00; x00; x00; x00; xaa] /\
     delivered (read_script (os (example_world example_flaky)))
       = taken ++ delivered (read_script example_flaky_after)) /\
  randombytes_sysrandom_buf [x00; x00; x00; x00; x00; xaa] 6 (example_world example_flaky)
    = Aborted.
Proof.
  split.
  - apply (proj1 (buf_exactly_size_or_abort (example_world example_flaky)
                    [x00; x00; x00; x00; xaa] 3
                    ltac:(unfold SIZE_MAX; lia) ltac:(cbn; lia))
             [x01; x02; x03; x00; xaa]
             (mkWorld (mkSysRandom 3 true) example_flaky_after)).
    vm_compute. reflexivity.
  - apply (proj2 (buf_exactly_size_or_abort (example_world example_flaky)
                    [x00; x00; x00; x00; x00; xaa] 6
                    ltac:(unfold SIZE_MAX; lia) ltac:(cbn; lia))).
    cbn. lia.
Defined.

(* ------------------------------------------------------------------ *)
(** ** Further properties: interrupted reads are invisible *)

(** A script with its interruptions taken out. *)
Fixpoint without_eintr (s : list read_event) : list read_event :=
  match s with
  | [] => []
  | Deliver bs :: rest => Deliver bs :: without_eintr rest
  | Errno e :: rest =>
      if e =? EINTR then without_eintr rest else Errno e :: without_eintr rest
  end.

(** The world [w] on a host that is never interrupted. *)
Definition uninterrupted (w : world) : world :=
  mkWorld (stream w) (set_read_script (os w) (without_eintr (read_script (os w)))).

(** What a run returned, the world left aside. *)
Definition value_of {A W : Type} (r : outcome (A * W)) : option A :=
  match r with
  | Returned (a, _) => Some a
  | Aborted => None
  end.

Lemma safe_read_loop_without_eintr fd :
  forall (k : nat) (o1 o2 : OS) mem off count r mem' o1',
    (os_weight o1 <= k)%nat ->
    read_script o2 = without_eintr (read_script o1) ->
    safe_read_loop fd mem off count o1 = (r, mem', o1') ->
    exists o2',
      safe_read_loop fd mem off count o2 = (r, mem', o2') /\
      read_script o2' = without_eintr (read_script o1').
Proof.
  induction k as [|k IH]; intros o1 o2 mem off count r mem' o1' Hk H2 Hrun;
    unfold os_weight in Hk;
    destruct (read_script o1) as [|[bs|e] rest] eqn:H1; cbn [script_weight] in Hk;
    try lia; cbn [without_eintr] in H2.
  - (* nothing left, bound 0 *)
    rewrite safe_read_loop_step, read_retry_step in Hrun |- *.
    unfold sys_read in *. rewrite H1 in Hrun. rewrite H2. cbn in *.
    inversion Hrun; subst. eexists. split; [reflexivity|]. now rewrite H1, H2.
  - (* nothing left *)
    rewrite safe_read_loop_step, read_retry_step in Hrun |- *.
    unfold sys_read in *. rewrite H1 in Hrun. rewrite H2. cbn in *.
    inversion Hrun; subst. eexists. split; [reflexivity|]. now rewrite H1, H2.
  - (* a chunk *)
    rewrite safe_read_loop_step in Hrun |- *.
    rewrite (read_retry_deliver _ _ _ _ _ _ _ H1) in Hrun.
    rewrite (read_retry_deliver _ _ _ _ _ _ _ H2).
    set (n := read_amount count bs) in *.
    set (m1 := store mem off (firstn (Z.to_nat n) bs)) in *.
    destruct (n <? 0); [inversion Hrun; subst; eexists; split; [reflexivity|] |].
    { cbn [read_script set_read_script].
      destruct (n <? Z.of_nat (length bs)); reflexivity. }
    destruct (n =? 0) eqn:Hz; [inversion Hrun; subst; eexists; split; [reflexivity|] |].
    { cbn [read_script set_read_script].
      destruct (n <? Z.of_nat (length bs)); reflexivity. }
    destruct (0 <? to_size_t (count - to_size_t n));
      [| inversion Hrun; subst; eexists; split; [reflexivity|] ].
    + eapply IH; [| |exact Hrun].
      * apply Z.eqb_neq in Hz.
        assert (Hn : 0 <= n <= Z.of_nat (length bs)).
        { unfold n, read_amount, to_size_t, SSIZE_MAX.
          pose proof (Z.mod_pos_bound count (2 ^ 64) ltac:(lia)). lia. }
        unfold os_weight. cbn [read_script set_read_script].
        destruct (n <? Z.of_nat (length bs)); cbn [script_weight];
          [rewrite length_skipn|]; lia.
      * cbn [read_script set_read_script].
        destruct (n <? Z.of_nat (length bs)); reflexivity.
    + cbn [read_script set_read_script].
      destruct (n <? Z.of_nat (length bs)); reflexivity.
  - (* a failed read *)
    destruct (e =? EINTR) eqn:He.
    + apply Z.eqb_eq in He. subst e.
      rewrite (safe_read_loop_eintr _ _ _ _ _ _ H1) in Hrun.
      eapply IH; [| |exact Hrun].
      * unfold os_weight. cbn [read_script set_read_script set_errno]. lia.
      * exact H2.
    + apply Z.eqb_neq in He.
      rewrite (safe_read_loop_error _ _ _ _ _ _ _ H1 He) in Hrun.
      rewrite (safe_read_loop_error _ _ _ _ _ _ _ H2 He).
      inversion Hrun; subst. eexists. split; reflexivity.
Qed.

(** [o2] is the host [o1] with the interruptions of its reads taken out;
    [errno], which the interruptions set, is left out of the comparison. *)
Definition calmed (o1 o2 : OS) : Prop :=
  same_host o1 o2 /\ read_script o2 = without_eintr (read_script o1).

Definition calmed_world (w1 w2 : world) : Prop :=
  stream w2 = stream w1 /\ calmed (os w1) (os w2).

(** Two runs agree: both abort, or both return the same value and leave
    worlds that differ by interruptions (and [errno]) only. *)
Definition agree {A : Type} (r1 r2 : outcome (A * world)) : Prop :=
  match r1, r2 with
  | Returned (a1, w1), Returned (a2, w2) => a1 = a2 /\ calmed_world w1 w2
  | Aborted, Aborted => True
  | _, _ => False
  end.

Lemma same_host_sym o1 o2 : same_host o1 o2 -> same_host o2 o1.
Proof. unfold same_host. intuition congruence. Qed.

Lemma safe_read_calmed fd buf_ count o1 o2 :
  calmed o1 o2 ->
  exists r mem' o1' o2',
    safe_read fd buf_ count o1 = (r, mem', o1') /\
    safe_read fd buf_ count o2 = (r, mem', o2') /\
    calmed o1' o2'.
Proof.
  intros [Hh Hs]. unfold safe_read.
  destruct (safe_read_loop fd buf_ 0 count o1) as [[r mem'] o1'] eqn:H1.
  destruct (safe_read_loop_without_eintr fd _ o1 o2 _ _ _ _ _ _ (le_n _) Hs H1)
    as (o2' & H2 & Hs').
  exists r, mem', o1', o2'. repeat split; try assumption.
  all: pose proof (safe_read_loop_same_host _ _ _ _ _ _ _ _ H1) as Ha;
       pose proof (safe_read_loop_same_host _ _ _ _ _ _ _ _ H2) as Hb;
       unfold same_host in *; intuition congruence.
Qed.

Lemma dev_open_calmed o1 o2 :
  calmed o1 o2 ->
  exists fd o1' o2',
    randombytes_sysrandom_random_dev_open o1 = (fd, o1') /\
    randombytes_sysrandom_random_dev_open o2 = (fd, o2') /\
    calmed o1' o2'.
Proof.
  intros [Hh Hs]. unfold randombytes_sysrandom_random_dev_open.
  destruct Hh as (Hr & Ho & Hc & Hb & Hu). rewrite Hu.
  induction (devices (use_blocking_random o1)) as [|d more IH]; cbn [probe_devices].
  - exists (-1), o1, o2. repeat split; assumption.
  - unfold sys_access. rewrite Hr.
    destruct (existsb (String.eqb d) (readable o1)); [|exact IH].
    unfold sys_open. rewrite Ho.
    destruct (open_script o1) as [|fd rest] eqn:Hopen.
    + exists (-1), o1, o2. repeat split; congruence.
    + do 3 eexists. split; [reflexivity | split; [reflexivity|]].
      repeat split; assumption.
Qed.

Lemma stir_agree w1 w2 :
  calmed_world w1 w2 ->
  agree (randombytes_sysrandom_stir w1) (randombytes_sysrandom_stir w2).
Proof.
  intros [Hst Hc].
  destruct (initialized (stream w1)) eqn:Hi.
  - rewrite (stir_initialized w1 Hi), (stir_initialized w2) by congruence.
    repeat split; try assumption; apply Hc.
  - rewrite (stir_uninitialized w1 Hi), (stir_uninitialized w2) by congruence.
    destruct (dev_open_calmed _ _ Hc) as (fd & o1' & o2' & -> & -> & Hc').
    destruct (fd =? -1); cbn; [exact I|].
    repeat split; apply Hc'.
Qed.

Lemma buf_agree b size w1 w2 :
  calmed_world w1 w2 ->
  agree (randombytes_sysrandom_buf b size w1) (randombytes_sysrandom_buf b size w2).
Proof.
  intros Hw. pose proof (stir_agree _ _ Hw) as Hs.
  unfold randombytes_sysrandom_buf, bind. rewrite !stir_if_needed_stir.
  destruct (randombytes_sysrandom_stir w1) as [[[] v1]|],
           (randombytes_sysrandom_stir w2) as [[[] v2]|]; cbn in Hs; try tauto.
  destruct Hs as [_ [Hst Hc]].
  unfold assert_. destruct (size <=? ULONG_LONG_MAX); cbn; [|exact I].
  unfold get_stream, syscall. rewrite Hst.
  destruct (safe_read_calmed (random_data_source_fd (stream v1)) b size _ _ Hc)
    as (r & mem' & o1' & o2' & -> & -> & Hc').
  cbn [fst snd]. destruct (r =? to_ssize_t size); cbn; [|exact I].
  repeat split; try assumption; apply Hc'.
Qed.

Lemma random_agree w1 w2 :
  calmed_world w1 w2 ->
  agree (randombytes_sysrandom w1) (randombytes_sysrandom w2).
Proof.
  intros Hw. pose proof (stir_agree _ _ Hw) as Hs.
  unfold randombytes_sysrandom, bind. rewrite !stir_if_needed_stir.
  destruct (randombytes_sysrandom_stir w1) as [[[] v1]|],
           (randombytes_sysrandom_stir w2) as [[[] v2]|]; cbn in Hs; try tauto.
  destruct Hs as [_ Hv].
  pose proof (buf_agree uint32_object 4 _ _ Hv) as Hb.
  destruct (randombytes_sysrandom_buf uint32_object 4 v1) as [[b1 u1]|],
           (randombytes_sysrandom_buf uint32_object 4 v2) as [[b2 u2]|];
    cbn in Hb; try tauto.
  destruct Hb as [-> Hu]. unfold get_os, ret. cbn.
  split; [|exact Hu].
  destruct Hu as [_ [Hh _]]. destruct Hh as (_ & _ & _ & -> & _). reflexivity.
Qed.

Lemma uniform_loop_agree m :
  forall (k : nat) w1 w2,
    (os_weight (os w1) <= k)%nat -> calmed_world w1 w2 ->
    agree (uniform_loop m w1) (uniform_loop m w2).
Proof.
  induction k as [|k IH]; intros w1 w2 Hk Hw;
    rewrite (uniform_loop_step m w1), (uniform_loop_step m w2);
    pose proof (random_agree _ _ Hw) as Hr;
    destruct (randombytes_sysrandom w1) as [[r1 v1]|] eqn:H1;
    destruct (randombytes_sysrandom w2) as [[r2 v2]|]; cbn in Hr; try tauto;
    destruct Hr as [-> Hv];
    apply randombytes_sysrandom_weight in H1;
    try lia.
  destruct (m <=? r2); [split; [reflexivity | exact Hv]|].
  apply IH; [lia | exact Hv].
Qed.

Lemma uniform_agree ub w1 w2 :
  calmed_world w1 w2 ->
  agree (randombytes_sysrandom_uniform ub w1) (randombytes_sysrandom_uniform ub w2).
Proof.
  intros Hw. unfold randombytes_sysrandom_uniform, bind, ret.
  destruct (ub <? 2); [split; [reflexivity | exact Hw]|].
  pose proof (uniform_loop_agree (uniform_min ub) _ _ _ (le_n _) Hw) as Hl.
  destruct (uniform_loop (uniform_min ub) w1) as [[r1 v1]|],
           (uniform_loop (uniform_min ub) w2) as [[r2 v2]|]; cbn in Hl; try tauto.
  destruct Hl as [-> Hv]. split; [reflexivity | exact Hv].
Qed.

Lemma close_agree w1 w2 :
  calmed_world w1 w2 ->
  agree (randombytes_sysrandom_close w1) (randombytes_sysrandom_close w2).
Proof.
  intros [Hst [Hh Hs]].
  unfold randombytes_sysrandom_close, bind, get_stream, syscall, sys_close.
  rewrite Hst. destruct (random_data_source_fd (stream w1) =? -1); cbn [negb].
  - repeat split; try assumption; apply Hh.
  - destruct Hh as (Hr & Ho & Hc & Hb & Hu). rewrite Hc.
    destruct (close_script (os w1)) as [|r rest] eqn:Hclose.
    + cbn. repeat split; cbn; congruence.
    + destruct (r =? 0); cbn; repeat split; cbn; congruence.
Qed.

(** X3: interrupted reads never show: on a host whose reads are interrupted
    ([errno == EINTR]) any number of times and on the same host without the
    interruptions, every operation of the provider does the same: both runs
    abort, or both return the same value (the same buffer, the same sample,
    the same status) and leave states that again differ by interruptions,
    and by the [errno] they set, only. *)
Theorem eintr_is_invisible (w1 w2 : world) :
  calmed_world w1 w2 ->
  (forall b size,
     agree (randombytes_sysrandom_buf b size w1) (randombytes_sysrandom_buf b size w2)) /\
  agree (randombytes_sysrandom w1) (randombytes_sysrandom w2) /\
  (forall upper_bound,
     agree (randombytes_sysrandom_uniform upper_bound w1)
           (randombytes_sysrandom_uniform upper_bound w2)) /\
  agree (randombytes_sysrandom_stir w1) (randombytes_sysrandom_stir w2) /\
  agree (randombytes_sysrandom_close w1) (randombytes_sysrandom_close w2).
Proof.
  intros Hw. split; [|split; [|split; [|split]]].
  - intros b size. apply buf_agree, Hw.
  - apply random_agree, Hw.
  - intros ub. apply uniform_agree, Hw.
  - apply stir_agree, Hw.
  - apply close_agree, Hw.
Qed.

Lemma eintr_is_invisible_witness :
  value_of (randombytes_sysrandom_buf [x00; x00; x00] 3 (example_world example_flaky))
    = Some [x01; x02; x03] /\
  agree (randombytes_sysrandom_buf [x00; x00; x00] 3 (example_world example_flaky))
        (randombytes_sysrandom_buf [x00; x00; x00] 3
           (uninterrupted (example_world example_flaky))).
Proof.
  split; [vm_compute; reflexivity|].
  apply (proj1 (eintr_is_invisible (example_world example_flaky)
                  (uninterrupted (example_world example_flaky))
                  ltac:(repeat split))).
Defined.

(* ------------------------------------------------------------------ *)
(** ** Further properties: samples are words of the stream *)

Lemma byte_val_bound (b : byte) : 0 <= byte_val b < 2 ^ 8.
Proof.
  unfold byte_val. pose proof (Byte.to_N_bounded b). lia.
Qed.

(** A byte below a value shifted by eight bits: the bits do not meet. *)
Lemma lor_shiftl_8 (a x : Z) :
  0 <= a < 2 ^ 8 -> 0 <= x -> Z.lor a (Z.shiftl x 8) = a + 2 ^ 8 * x.
Proof.
  intros Ha Hx.
  assert (Hdisjoint : Z.land a (Z.shiftl x 8) = 0).
  { apply Z.bits_inj'. intros n Hn.
    rewrite Z.land_spec, Z.bits_0.
    destruct (Z.lt_ge_cases n 8) as [Hlt|Hge].
    - rewrite (Z.shiftl_spec_low x 8 n Hlt). apply andb_false_r.
    - replace (Z.testbit a n) with false; [reflexivity|].
      symmetry. destruct (Z.eq_dec a 0) as [->|Hne]; [apply Z.bits_0|].
      apply Z.bits_above_log2; [lia|].
      assert (Z.log2 a < 8) by (apply Z.log2_lt_pow2; lia). lia. }
  rewrite <- Z.lxor_lor by exact Hdisjoint.
  rewrite <- Z.add_nocarry_lxor by exact Hdisjoint.
  rewrite Z.shiftl_mul_pow2 by lia. lia.
Qed.

Lemma uint_of_bytes_le_nonneg (bs : list byte) : 0 <= uint_of_bytes_le bs.
Proof.
  induction bs as [|b tl IH]; cbn [uint_of_bytes_le]; [lia|].
  rewrite lor_shiftl_8 by (apply byte_val_bound || exact IH).
  pose proof (byte_val_bound b). lia.
Qed.

(** The value of a four-byte object, least significant byte first. *)
Lemma uint_of_4_bytes_le (b0 b1 b2 b3 : byte) :
  uint_of_bytes_le [b0; b1; b2; b3] =
    byte_val b0 + 2 ^ 8 * byte_val b1 + 2 ^ 16 * byte_val b2 + 2 ^ 24 * byte_val b3.
Proof.
  cbn [uint_of_bytes_le].
  pose proof (byte_val_bound b0). pose proof (byte_val_bound b1).
  pose proof (byte_val_bound b2). pose proof (byte_val_bound b3).
  rewrite (Z.shiftl_0_l 8), Z.lor_0_r.
  rewrite (lor_shiftl_8 (byte_val b2)) by lia.
  rewrite (lor_shiftl_8 (byte_val b1)) by lia.
  rewrite (lor_shiftl_8 (byte_val b0)) by lia.
  lia.
Qed.

Lemma load_uint32_4_bytes (be : bool) (b0 b1 b2 b3 : byte) :
  load_uint32 be [b0; b1; b2; b3] =
    if be
    then 2 ^ 24 * byte_val b0 + 2 ^ 16 * byte_val b1 + 2 ^ 8 * byte_val b2 + byte_val b3
    else byte_val b0 + 2 ^ 8 * byte_val b1 + 2 ^ 16 * byte_val b2 + 2 ^ 24 * byte_val b3.
Proof.
  unfold load_uint32, to_uint32.
  pose proof (byte_val_bound b0). pose proof (byte_val_bound b1).
  pose proof (byte_val_bound b2). pose proof (byte_val_bound b3).
  destruct be; cbn [rev app]; rewrite uint_of_4_bytes_le; rewrite Z.mod_small; lia.
Qed.

Lemma stir_big_endian w u w' :
  randombytes_sysrandom_stir w = Returned (u, w') ->
  big_endian (os w') = big_endian (os w).
Proof.
  destruct (initialized (stream w)) eqn:Hi.
  - rewrite stir_initialized by assumption. intros H; inversion H; reflexivity.
  - rewrite stir_uninitialized by assumption.
    unfold randombytes_sysrandom_random_dev_open.
    generalize (devices (use_blocking_random (os w))). intros devs.
    destruct (probe_devices devs (os w)) as [fd o'] eqn:Hp.
    destruct (fd =? -1); [discriminate|].
    intros H; inversion H; subst; clear H. cbn [os].
    induction devs as [|d more IH]; cbn [probe_devices] in Hp.
    + inversion Hp; reflexivity.
    + destruct (sys_access d (os w)); [|exact (IH Hp)].
      unfold sys_open in Hp. destruct (open_script (os w)); inversion Hp; reflexivity.
Qed.

(** What a returning [randombytes_sysrandom] drew: the next four bytes of
    the stream, read back in the byte order of the host. *)
Lemma random_returned_word (w w' : world) (r : Z) :
  randombytes_sysrandom w = Returned (r, w') ->
  exists b0 b1 b2 b3,
    delivered (read_script (os w))
      = [b0; b1; b2; b3] ++ delivered (read_script (os w')) /\
    r = load_uint32 (big_endian (os w)) [b0; b1; b2; b3].
Proof.
  unfold randombytes_sysrandom, bind. rewrite stir_if_needed_stir.
  destruct (randombytes_sysrandom_stir w) as [[[] w1]|] eqn:Hs; [|discriminate].
  destruct (randombytes_sysrandom_buf uint32_object 4 w1) as [[b w2]|] eqn:Hb;
    [|discriminate].
  unfold get_os, ret. intros H; inversion H; subst; clear H.
  destruct (buf_returned_taken w1 uint32_object 4 b w'
              ltac:(unfold SIZE_MAX; lia) ltac:(cbn; lia) Hb) as (t & Hlen & Hb' & Hd).
  destruct t as [|b0 [|b1 [|b2 [|b3 [|b4 t]]]]]; cbn [length] in Hlen; try lia.
  cbn in Hb'. subst b.
  exists b0, b1, b2, b3. split.
  - rewrite <- (stir_read_script _ _ _ Hs). exact Hd.
  - f_equal. destruct (buf_stream _ _ _ _ _ Hb) as (w3 & Hs3 & _ & Hh).
    rewrite <- (stir_big_endian _ _ _ Hs), <- (stir_big_endian _ _ _ Hs3).
    apply Hh.
Qed.

(** X4: the 32-bit sample.  When [randombytes_sysrandom] returns [r], the
    stream has moved on by exactly four bytes, and [r] is the number these
    four bytes denote in the byte order of the host: all 32 bits of the
    sample come from the source, and [0 <= r <= UINT32_MAX]. *)
Theorem random_is_next_word (w w' : world) (r : Z) :
  randombytes_sysrandom w = Returned (r, w') ->
  exists b0 b1 b2 b3,
    delivered (read_script (os w))
      = [b0; b1; b2; b3] ++ delivered (read_script (os w')) /\
    r = (if big_endian (os w)
         then 2 ^ 24 * byte_val b0 + 2 ^ 16 * byte_val b1 + 2 ^ 8 * byte_val b2 + byte_val b3
         else byte_val b0 + 2 ^ 8 * byte_val b1 + 2 ^ 16 * byte_val b2 + 2 ^ 24 * byte_val b3) /\
    0 <= r <= UINT32_MAX.
Proof.
  intros H. destruct (random_returned_word _ _ _ H) as (b0 & b1 & b2 & b3 & Hd & Hr).
  exists b0, b1, b2, b3. split; [exact Hd|].
  rewrite load_uint32_4_bytes in Hr. split; [exact Hr|].
  pose proof (byte_val_bound b0). pose proof (byte_val_bound b1).
  pose proof (byte_val_bound b2). pose proof (byte_val_bound b3).
  unfold UINT32_MAX. destruct (big_endian (os w)); lia.
Qed.

(** The same four bytes on a big-endian host. *)
Definition example_big_endian (script : list read_event) : world :=
  mkWorld stream_init (mkOS ["/dev/random"%string] [5] [] script 0 true false).

Lemma random_is_next_word_witness :
  exists b0 b1 b2 b3,
    delivered (read_script (os (example_big_endian
                                  [Deliver [x01; x02]; Deliver [x03; x04; x05]])))
      = [b0; b1; b2; b3]
        ++ delivered (read_script (os (mkWorld (mkSysRandom 5 true)
               (mkOS ["/dev/random"%string] [] [] [Deliver [x05]] 0 true false)))) /\
    0x01020304 =
      (if big_endian (os (example_big_endian [Deliver [x01; x02]; Deliver [x03; x04; x05]]))
       then 2 ^ 24 * byte_val b0 + 2 ^ 16 * byte_val b1 + 2 ^ 8 * byte_val b2 + byte_val b3
       else byte_val b0 + 2 ^ 8 * byte_val b1 + 2 ^ 16 * byte_val b2 + 2 ^ 24 * byte_val b3) /\
    0 <= 0x01020304 <= UINT32_MAX.
Proof.
  apply (random_is_next_word
           (example_big_endian [Deliver [x01; x02]; Deliver [x03; x04; x05]])
           (mkWorld (mkSysRandom 5 true)
              (mkOS ["/dev/random"%string] [] [] [Deliver [x05]] 0 true false))
           0x01020304).
  vm_compute. reflexivity.
Defined.

(** A byte string cut into 32-bit words; what is left of less than four
    bytes at the end is no word. *)
Fixpoint words (be : bool) (bs : list byte) : list Z :=
  match bs with
  | b0 :: b1 :: b2 :: b3 :: tl => load_uint32 be [b0; b1; b2; b3] :: words be tl
  | _ => []
  end.

Lemma random_big_endian w r w' :
  randombytes_sysrandom w = Returned (r, w') ->
  big_endian (os w') = big_endian (os w).
Proof.
  intros H. destruct (random_stream _ _ _ H) as (w1 & Hs & _ & Hh).
  rewrite <- (stir_big_endian _ _ _ Hs). apply Hh.
Qed.

(** [n] samples in a row are the next [n] words of the stream. *)
Lemma draw_words (n : nat) : forall w rs w',
  draw n w = Returned (rs, w') ->
  exists taken,
    delivered (read_script (os w)) = taken ++ delivered (read_script (os w')) /\
    length taken = (4 * n)%nat /\
    rs = words (big_endian (os w)) taken.
Proof.
  induction n as [|n IH]; intros w rs w' H.
  - cbn in H. inversion H; subst. exists []. repeat split.
  - rewrite draw_step in H.
    destruct (randombytes_sysrandom w) as [[r w1]|] eqn:Hr; [|discriminate].
    destruct (draw n w1) as [[rs1 w2]|] eqn:Hd; [|discriminate].
    inversion H; subst; clear H.
    destruct (random_returned_word _ _ _ Hr) as (b0 & b1 & b2 & b3 & Hw & ->).
    destruct (IH _ _ _ Hd) as (t & Ht & Hlen & ->).
    exists ([b0; b1; b2; b3] ++ t). split; [|split].
    + rewrite Hw, Ht. now rewrite app_assoc.
    + rewrite length_app, Hlen. cbn [length]. lia.
    + rewrite (random_big_endian _ _ _ Hr). reflexivity.
Qed.

(** X5: [randombytes_sysrandom_uniform] reads whole words and nothing
    else.  For [2 <= upper_bound], when it returns [v] the stream has moved
    on by [4 * (k + 1)] bytes for some [k]: the first [k] words of these
    bytes are all below [min = 2^32 mod upper_bound], the last word [r] is
    not, and [v = r mod upper_bound].  No byte of the stream is skipped,
    none is used twice, and the bytes after the accepted word are left for
    the next call. *)
Theorem uniform_reads_whole_words (upper_bound : Z) (w w' : world) (v : Z) :
  2 <= upper_bound <= UINT32_MAX ->
  randombytes_sysrandom_uniform upper_bound w = Returned (v, w') ->
  exists taken rejected r,
    delivered (read_script (os w)) = taken ++ delivered (read_script (os w')) /\
    length taken = (4 * (length rejected + 1))%nat /\
    words (big_endian (os w)) taken = rejected ++ [r] /\
    Forall (fun x => x < 2 ^ 32 mod upper_bound) rejected /\
    2 ^ 32 mod upper_bound <= r /\
    v = r mod upper_bound.
Proof.
  intros [Hlo Hhi]. unfold randombytes_sysrandom_uniform, bind, ret.
  replace (upper_bound <? 2) with false by (symmetry; apply Z.ltb_ge; lia).
  rewrite (uniform_min_eq _ Hlo Hhi).
  destruct (uniform_loop _ w) as [[r w1]|] eqn:Hl; [|discriminate].
  intros H; inversion H; subst; clear H.
  destruct (uniform_loop_draws _ _ _ _ Hl) as (rej & Hd & Hall & Hacc).
  destruct (draw_words _ _ _ _ Hd) as (t & Ht & Hlen & Hw).
  exists t, rej, r.
  split; [exact Ht | split; [|split; [symmetry; exact Hw | auto]]].
  rewrite Hlen. lia.
Qed.

Lemma uniform_reads_whole_words_witness :
  exists taken rejected r,
    delivered (read_script (os (example_world example_samples)))
      = taken ++ delivered (read_script (os (example_ready
                    [Deliver [x03; x00; x00; x00; x09; x00; x00; x00]]))) /\
    length taken = (4 * (length rejected + 1))%nat /\
    words (big_endian (os (example_world example_samples))) taken = rejected ++ [r] /\
    Forall (fun x => x < 2 ^ 32 mod 10) rejected /\
    2 ^ 32 mod 10 <= r /\
    5 = r mod 10.
Proof.
  apply (uniform_reads_whole_words 10 (example_world example_samples)
           (example_ready [Deliver [x03; x00; x00; x00; x09; x00; x00; x00]]) 5).
  - unfold UINT32_MAX. lia.
  - vm_compute. reflexivity.
Defined.

(* ------------------------------------------------------------------ *)
(** ** Further properties: no modulo bias *)

(** X6: the rejection threshold removes the modulo bias.  For
    [2 <= upper_bound] and every value [v] below [upper_bound], the samples
    that are accepted ([min <= r <= UINT32_MAX]) and reduce to [v] are
    [r0, r0 + upper_bound, ..., r0 + (q - 1) * upper_bound] with
    [q = 2^32 / upper_bound], whatever [v] is: every value is the result of
    the same number [q] of accepted samples. *)
Theorem uniform_no_bias (upper_bound v : Z) :
  2 <= upper_bound <= UINT32_MAX ->
  0 <= v < upper_bound ->
  exists r0,
    uniform_min upper_bound <= r0 < uniform_min upper_bound + upper_bound /\
    forall r,
      (uniform_min upper_bound <= r <= UINT32_MAX /\ r mod upper_bound = v) <->
      (exists k, 0 <= k < 2 ^ 32 / upper_bound /\ r = r0 + upper_bound * k).
Proof.
  intros [Hlo Hhi] Hv. rewrite (uniform_min_eq _ Hlo Hhi).
  unfold UINT32_MAX in *.
  set (m := 2 ^ 32 mod upper_bound). set (q := 2 ^ 32 / upper_bound).
  assert (Hdm : 2 ^ 32 = upper_bound * q + m) by (apply Z.div_mod; lia).
  assert (Hm : 0 <= m < upper_bound) by (apply Z.mod_pos_bound; lia).
  set (d := (v - m) mod upper_bound).
  assert (Hd : 0 <= d < upper_bound) by (apply Z.mod_pos_bound; lia).
  assert (Hr0 : (m + d) mod upper_bound = v).
  { unfold d. rewrite Zplus_mod_idemp_r.
    replace (m + (v - m)) with v by lia. apply Z.mod_small; lia. }
  exists (m + d). split; [lia|].
  intros r. split.
  - intros [[Hge Hle] Hmod].
    assert (Hsame : (r - (m + d)) mod upper_bound = 0).
    { rewrite Zminus_mod, Hmod, Hr0, Z.sub_diag. apply Z.mod_0_l; lia. }
    apply Z.mod_divide in Hsame; [|lia]. destruct Hsame as [k Hk].
    exists k. split; [nia | lia].
  - intros (k & [Hk0 Hkq] & ->). split; [nia|].
    rewrite Z.mul_comm, Z_mod_plus_full. exact Hr0.
Qed.

Lemma uniform_no_bias_witness :
  exists r0,
    uniform_min 10 <= r0 < uniform_min 10 + 10 /\
    forall r,
      (uniform_min 10 <= r <= UINT32_MAX /\ r mod 10 = 3) <->
      (exists k, 0 <= k < 2 ^ 32 / 10 /\ r = r0 + 10 * k).
Proof.
  apply (uniform_no_bias 10 3).
  - unfold UINT32_MAX. lia.
  - lia.
Defined.

(** X7: a bound that is a power of two never rejects.  For
    [upper_bound = 2^k] with [1 <= k <= 31] the threshold is 0, so
    [randombytes_sysrandom_uniform] draws exactly one sample [r], whatever
    it is, and returns its low [k] bits: it returns [v] exactly when
    [randombytes_sysrandom] returns some [r] with [v = r mod 2^k], leaving
    the same state. *)
Theorem uniform_power_of_two (k : Z) (w w' : world) (v : Z) :
  1 <= k <= 31 ->
  uniform_min (2 ^ k) = 0 /\
  (randombytes_sysrandom_uniform (2 ^ k) w = Returned (v, w') <->
   exists r, randombytes_sysrandom w = Returned (r, w') /\ v = r mod 2 ^ k).
Proof.
  intros Hk.
  assert (Hpow : 2 <= 2 ^ k <= UINT32_MAX).
  { unfold UINT32_MAX. split.
    - change 2 with (2 ^ 1) at 1. apply Z.pow_le_mono_r; lia.
    - assert (2 ^ k <= 2 ^ 31) by (apply Z.pow_le_mono_r; lia). lia. }
  assert (Hmin : uniform_min (2 ^ k) = 0).
  { rewrite uniform_min_eq by lia.
    replace 32 with (k + (32 - k)) by lia.
    rewrite Z.pow_add_r by lia. rewrite Z.mul_comm. apply Z_mod_mult. }
  split; [exact Hmin|].
  unfold randombytes_sysrandom_uniform, bind, ret.
  replace (2 ^ k <? 2) with false by (symmetry; apply Z.ltb_ge; lia).
  rewrite Hmin, uniform_loop_step.
  destruct (randombytes_sysrandom w) as [[r w1]|] eqn:Hr.
  - destruct (random_returned_word _ _ _ Hr) as (b0 & b1 & b2 & b3 & _ & Hval).
    assert (Hpos : 0 <= r).
    { rewrite Hval. unfold load_uint32, to_uint32. apply Z.mod_pos_bound. lia. }
    replace (0 <=? r) with true by (symmetry; apply Z.leb_le; exact Hpos).
    split.
    + intros H; inversion H; subst. eexists. split; reflexivity.
    + intros (r' & H & ->). inversion H; subst. reflexivity.
  - split; [discriminate | intros (r' & H & _); discriminate].
Qed.

Lemma uniform_power_of_two_witness :
  uniform_min (2 ^ 4) = 0 /\
  (randombytes_sysrandom_uniform (2 ^ 4) (example_world example_samples)
     = Returned (0, example_ready [Deliver [xff; xff; xff];
                    Deliver [xff; x03; x00; x00; x00; x09; x00; x00; x00]]) <->
   exists r,
     randombytes_sysrandom (example_world example_samples)
       = Returned (r, example_ready [Deliver [xff; xff; xff];
                    Deliver [xff; x03; x00; x00; x00; x09; x00; x00; x00]]) /\
     0 = r mod 2 ^ 4).
Proof.
  apply (uniform_power_of_two 4). lia.
Defined.

(* ------------------------------------------------------------------ *)
(** ** Further properties: acquiring the device *)

Lemma probe_devices_first pre d post o :
  Forall (fun p => sys_access p o = false) pre ->
  sys_access d o = true ->
  probe_devices (pre ++ d :: post) o = sys_open d o.
Proof.
  intros Hpre Hd. induction Hpre as [|p pre Hp _ IH]; cbn [app probe_devices].
  - rewrite Hd. reflexivity.
  - rewrite Hp. exact IH.
Qed.

Lemma probe_devices_none devs o :
  Forall (fun p => sys_access p o = false) devs ->
  probe_devices devs o = (-1, o).
Proof.
  intros H. induction H as [|p devs Hp _ IH]; cbn [probe_devices].
  - reflexivity.
  - rewrite Hp. exact IH.
Qed.

(** The probe loop of [randombytes_sysrandom_random_dev_open] on any host:
    [access] and [open] are what the host answers, each told the path it is
    asked about. *)
Section Probe.
Variable Host : Type.
Variable access : string -> Host -> bool.
Variable open : string -> Host -> Z * Host.

Fixpoint probe_devices_on (devs : list string) (h : Host) : Z * Host :=
  match devs with
  | [] => (-1, h)
  | device :: more =>
      if access device h then open device h
      else probe_devices_on more h
  end.

Definition random_dev_open_on (blocking : bool) (h : Host) : Z * Host :=
  probe_devices_on (devices blocking) h.
End Probe.

Arguments probe_devices_on {Host} access open devs h.
Arguments random_dev_open_on {Host} access open blocking h.

(** The probe of the POSIX build is this loop on the scripted host. *)
Lemma random_dev_open_on_posix (o : OS) :
  randombytes_sysrandom_random_dev_open o
  = random_dev_open_on sys_access sys_open (use_blocking_random o) o.
Proof.
  unfold randombytes_sysrandom_random_dev_open, random_dev_open_on.
  induction (devices (use_blocking_random o)) as [|d more IH];
    cbn [probe_devices probe_devices_on]; [reflexivity|].
  destruct (sys_access d o); [reflexivity | exact IH].
Qed.

Lemma probe_devices_on_first (Host : Type) (access : string -> Host -> bool)
    (open : string -> Host -> Z * Host) pre d post (h : Host) :
  Forall (fun p => access p h = false) pre ->
  access d h = true ->
  probe_devices_on access open (pre ++ d :: post) h = open d h.
Proof.
  intros Hpre Hd. induction Hpre as [|p pre Hp _ IH]; cbn [app probe_devices_on].
  - rewrite Hd. reflexivity.
  - rewrite Hp. exact IH.
Qed.

(** X8: the device probe opens the first device [access] finds and tries
    no other.  When [d] is the first accessible device of the list: on
    every host where the same devices are accessible, whatever its [open]
    does with the path it is given, the probe returns what [open] returns
    for the path [d], with the host as that one call left it.  On the
    scripted host an uninitialised [stir] so makes one [open]: a
    descriptor other than -1 is kept and the flag set; when that [open]
    fails, [stir] aborts, whether or not a later device of the list is
    accessible. *)
Theorem stir_opens_first_accessible (w : world) (pre post : list string) (d : string) :
  initialized (stream w) = false ->
  devices (use_blocking_random (os w)) = pre ++ d :: post ->
  Forall (fun p => sys_access p (os w) = false) pre ->
  sys_access d (os w) = true ->
  (forall (Host : Type) (access : string -> Host -> bool)
          (open : string -> Host -> Z * Host) (h : Host),
     (forall p, access p h = sys_access p (os w)) ->
     random_dev_open_on access open (use_blocking_random (os w)) h = open d h) /\
  (forall o, randombytes_sysrandom_random_dev_open o
             = random_dev_open_on sys_access sys_open (use_blocking_random o) o) /\
  randombytes_sysrandom_random_dev_open (os w) = sys_open d (os w) /\
  (forall fd o',
     sys_open d (os w) = (fd, o') -> fd <> -1 ->
     randombytes_sysrandom_stir w = Returned (tt, mkWorld (mkSysRandom fd true) o')) /\
  (fst (sys_open d (os w)) = -1 -> randombytes_sysrandom_stir w = Aborted).
Proof.
  intros Hi Hdevs Hpre Hd.
  assert (Hopen : randombytes_sysrandom_random_dev_open (os w) = sys_open d (os w)).
  { unfold randombytes_sysrandom_random_dev_open. rewrite Hdevs.
    apply probe_devices_first; assumption. }
  split.
  { intros Host access open h Hsame. unfold random_dev_open_on. rewrite Hdevs.
    apply probe_devices_on_first.
    - clear -Hpre Hsame. induction Hpre as [|p pre Hp _ IH]; constructor.
      + rewrite Hsame. exact Hp.
      + exact IH.
    - rewrite Hsame. exact Hd. }
  split; [exact random_dev_open_on_posix|].
  split; [exact Hopen|].
  rewrite (stir_uninitialized _ Hi), Hopen.
  split.
  - intros fd o' -> Hfd. apply Z.eqb_neq in Hfd. rewrite Hfd. reflexivity.
  - destruct (sys_open d (os w)) as [fd o']. cbn [fst]. intros ->. reflexivity.
Qed.

(** A host where [/dev/arandom] is missing, [/dev/urandom] cannot be opened
    and [/dev/random] is there. *)
Definition example_open_fails : world :=
  mkWorld stream_init
          (mkOS ["/dev/urandom"%string; "/dev/random"%string] [-1; 3] []
                [Deliver [x01; x02; x03; x04]] 0 false false).

(** A host that is nothing but the list of the paths it was asked to open,
    in order; its [open] always returns descriptor 3. *)
Definition logging_access (found : list string) (path : string) (log : list string)
  : bool :=
  existsb (String.eqb path) found.

Definition logging_open (path : string) (log : list string) : Z * list string :=
  (3, log ++ [path]).

Lemma stir_opens_first_accessible_witness :
  random_dev_open_on (logging_access ["/dev/urandom"%string; "/dev/random"%string])
                     logging_open false []
    = (3, ["/dev/urandom"%string]) /\
  randombytes_sysrandom_stir example_open_fails = Aborted.
Proof.
  pose proof (stir_opens_first_accessible example_open_fails
                ["/dev/arandom"%string] ["/dev/random"%string] "/dev/urandom"%string
                eq_refl eq_refl ltac:(repeat constructor) eq_refl)
    as (Hany & _ & _ & _ & Hfail).
  split.
  - exact (Hany (list string)
                (logging_access ["/dev/urandom"%string; "/dev/random"%string])
                logging_open [] (fun p => eq_refl)).
  - exact (Hfail eq_refl).
Defined.

(** X9: without an entropy device nothing is ever returned as random.  On
    a provider that is not initialised, when the acquisition fails (no
    device of the list is accessible, or the one [open] failed), [stir],
    [randombytes_sysrandom], [randombytes_sysrandom_buf] of any size and
    [randombytes_sysrandom_uniform] of any bound from 2 on all abort; and
    when no device is accessible no [open] is attempted at all. *)
Theorem failed_acquisition_aborts (w : world) :
  initialized (stream w) = false ->
  fst (randombytes_sysrandom_random_dev_open (os w)) = -1 ->
  randombytes_sysrandom_stir w = Aborted /\
  randombytes_sysrandom w = Aborted /\
  (forall b size, randombytes_sysrandom_buf b size w = Aborted) /\
  (forall upper_bound,
     2 <= upper_bound -> randombytes_sysrandom_uniform upper_bound w = Aborted) /\
  (Forall (fun p => sys_access p (os w) = false) (devices (use_blocking_random (os w))) ->
   randombytes_sysrandom_random_dev_open (os w) = (-1, os w)).
Proof.
  intros Hi Hfail.
  assert (Hstir : randombytes_sysrandom_stir w = Aborted).
  { rewrite (stir_uninitialized _ Hi).
    destruct (randombytes_sysrandom_random_dev_open (os w)) as [fd o'].
    cbn [fst] in Hfail. subst fd. reflexivity. }
  assert (Hrandom : randombytes_sysrandom w = Aborted).
  { unfold randombytes_sysrandom, bind. now rewrite stir_if_needed_stir, Hstir. }
  split; [exact Hstir | split; [exact Hrandom | split; [|split]]].
  - intros b size. unfold randombytes_sysrandom_buf, bind.
    now rewrite stir_if_needed_stir, Hstir.
  - intros ub Hub. unfold randombytes_sysrandom_uniform, bind.
    replace (ub <? 2) with false by (symmetry; apply Z.ltb_ge; lia).
    now rewrite uniform_loop_step, Hrandom.
  - apply probe_devices_none.
Qed.

(** A build with [USE_BLOCKING_RANDOM] on a host that has [/dev/urandom]
    only. *)
Definition example_blocking_only : world :=
  mkWorld stream_init
          (mkOS ["/dev/urandom"%string] [3] [] [Deliver [x01; x02; x03; x04]] 0 false true).

Lemma failed_acquisition_aborts_witness :
  randombytes_sysrandom example_blocking_only = Aborted /\
  randombytes_sysrandom_uniform 10 example_open_fails = Aborted.
Proof.
  split.
  - apply (failed_acquisition_aborts example_blocking_only); reflexivity.
  - apply (failed_acquisition_aborts example_open_fails); [reflexivity | reflexivity | lia].
Defined.

(* ------------------------------------------------------------------ *)
(** ** Further properties: using the provider after [close] *)

Lemma stir_open_script_fresh w u w' :
  initialized (stream w) = false ->
  randombytes_sysrandom_stir w = Returned (u, w') ->
  exists fd,
    fd <> -1 /\ stream w' = mkSysRandom fd true /\
    open_script (os w) = fd :: open_script (os w').
Proof.
  intros Hi. rewrite (stir_uninitialized _ Hi).
  unfold randombytes_sysrandom_random_dev_open.
  generalize (devices (use_blocking_random (os w))). intros devs.
  destruct (probe_devices devs (os w)) as [fd o'] eqn:Hp.
  destruct (fd =? -1) eqn:Hfd; [discriminate|].
  apply Z.eqb_neq in Hfd.
  intros H; inversion H; subst; clear H. cbn [os stream].
  exists fd. split; [exact Hfd | split; [reflexivity|]].
  induction devs as [|d more IH]; cbn [probe_devices] in Hp.
  - inversion Hp; subst. congruence.
  - destruct (sys_access d (os w)); [|exact (IH Hp)].
    unfold sys_open in Hp. destruct (open_script (os w)) as [|fd' rest].
    + inversion Hp; subst. congruence.
    + inversion Hp; subst. reflexivity.
Qed.

(** What an operation that draws from the source leaves of the provider. *)
Lemma buf_open_script b size w b' w' :
  randombytes_sysrandom_buf b size w = Returned (b', w') ->
  (initialized (stream w) = true ->
   stream w' = stream w /\ open_script (os w') = open_script (os w)) /\
  (initialized (stream w) = false ->
   exists fd,
     fd <> -1 /\ stream w' = mkSysRandom fd true /\
     open_script (os w) = fd :: open_script (os w')).
Proof.
  intros H. destruct (buf_stream _ _ _ _ _ H) as (w1 & Hs & Hst & Hh).
  split; intros Hi.
  - rewrite (stir_initialized _ Hi) in Hs. inversion Hs; subst.
    split; [exact Hst | apply Hh].
  - destruct (stir_open_script_fresh _ _ _ Hi Hs) as (fd & Hfd & Hs1 & Ho).
    exists fd. split; [exact Hfd | split; [congruence|]].
    destruct Hh as (_ & -> & _). exact Ho.
Qed.

(** X10: [close] and what comes after.  On an initialised provider whose
    descriptor is open: when [close] returns 0, the next
    [randombytes_sysrandom_buf] that returns has probed the devices again
    and made one more [open], and the provider holds the descriptor this
    [open] returned; when [close] returns -1 (the host refused), the next
    [randombytes_sysrandom_buf] that returns has used the descriptor the
    provider held before and opened nothing. *)
Theorem buf_after_close (w w1 w2 : world) (r : Z) (b b' : list byte) (size : Z) :
  stream_inv (stream w) ->
  initialized (stream w) = true ->
  randombytes_sysrandom_close w = Returned (r, w1) ->
  randombytes_sysrandom_buf b size w1 = Returned (b', w2) ->
  open_script (os w1) = open_script (os w) /\
  ((r = 0 /\
    exists fd, fd <> -1 /\ stream w2 = mkSysRandom fd true /\
               open_script (os w) = fd :: open_script (os w2)) \/
   (r = -1 /\ stream w2 = stream w /\ open_script (os w2) = open_script (os w))).
Proof.
  intros Hinv Hi Hclose Hbuf.
  assert (Hfd : random_data_source_fd (stream w) <> -1) by (apply Hinv; exact Hi).
  destruct (sys_close (random_data_source_fd (stream w)) (os w)) as [c o'] eqn:Hc.
  assert (Ho : open_script o' = open_script (os w)).
  { unfold sys_close in Hc. destruct (close_script (os w)); inversion Hc; reflexivity. }
  rewrite (close_open _ _ _ Hfd Hc) in Hclose.
  destruct (buf_open_script _ _ _ _ _ Hbuf) as [Hkept Hfresh].
  destruct (c =? 0); inversion Hclose; subst; clear Hclose; cbn [os stream] in *.
  - split; [exact Ho | left; split; [reflexivity|]].
    destruct (Hfresh eq_refl) as (fd & Hne & Hs & Hopen).
    exists fd. split; [exact Hne | split; [exact Hs | congruence]].
  - split; [exact Ho | right]. destruct (Hkept Hi) as [Hs Hopen].
    split; [reflexivity | split; [exact Hs | congruence]].
Qed.

(** A provider that holds descriptor 3, on a host whose next [open] returns 4. *)
Definition example_reopen (closes : list Z) : world :=
  mkWorld (mkSysRandom 3 true)
          (mkOS ["/dev/urandom"%string] [4] closes [Deliver [x01; x02]] 0 false false).

Lemma buf_after_close_witness :
  open_script (os (mkWorld stream_init (os (example_reopen []))))
    = open_script (os (example_reopen [])) /\
  ((0 = 0 /\
    exists fd, fd <> -1 /\
      stream (mkWorld (mkSysRandom 4 true)
                (mkOS ["/dev/urandom"%string] [] [] [Deliver [x02]] 0 false false))
        = mkSysRandom fd true /\
      open_script (os (example_reopen []))
        = fd :: open_script (os (mkWorld (mkSysRandom 4 true)
                (mkOS ["/dev/urandom"%string] [] [] [Deliver [x02]] 0 false false)))) \/
   (0 = -1 /\
    stream (mkWorld (mkSysRandom 4 true)
              (mkOS ["/dev/urandom"%string] [] [] [Deliver [x02]] 0 false false))
      = stream (example_reopen []) /\
    open_script (os (mkWorld (mkSysRandom 4 true)
              (mkOS ["/dev/urandom"%string] [] [] [Deliver [x02]] 0 false false)))
      = open_script (os (example_reopen [])))).
Proof.
  apply (buf_after_close (example_reopen [])
           (mkWorld stream_init (os (example_reopen [])))
           (mkWorld (mkSysRandom 4 true)
              (mkOS ["/dev/urandom"%string] [] [] [Deliver [x02]] 0 false false))
           0 [x00] [x01] 1).
  - split; [intros _ H; discriminate H | reflexivity].
  - reflexivity.
  - reflexivity.
  - vm_compute. reflexivity.
Defined.

(* ------------------------------------------------------------------ *)
(** ** Further properties: when [buf] returns and when it aborts *)

(** The bytes a source delivers before its first end of file or its first
    error other than [EINTR]. *)
Fixpoint available (s : list read_event) : list byte :=
  match s with
  | Deliver (b :: bs) :: rest => (b :: bs) ++ available rest
  | Errno e :: rest => if e =? EINTR then available rest else []
  | _ => []
  end.

(** Every script is a delivering part followed by an end of file or by an
    error that is not an interruption. *)
Lemma available_split (s : list read_event) :
  exists p rest,
    s = p ++ rest /\ Forall benign p /\ delivered p = available s /\
    (at_eof rest \/ exists e more, rest = Errno e :: more /\ e <> EINTR).
Proof.
  induction s as [|[[|b bs]|e] s IH].
  - exists [], []. repeat split; [constructor | left; left; reflexivity].
  - exists [], (Deliver [] :: s).
    repeat split; [constructor | left; right; eauto].
  - destruct IH as (p & rest & -> & Hben & Hd & Hrest).
    exists (Deliver (b :: bs) :: p), rest.
    split; [reflexivity | split; [|split; [|exact Hrest]]].
    + constructor; [discriminate | exact Hben].
    + cbn [delivered available]. now rewrite Hd.
  - cbn [available]. destruct (e =? EINTR) eqn:He.
    + apply Z.eqb_eq in He. subst e.
      destruct IH as (p & rest & -> & Hben & Hd & Hrest).
      exists (Errno EINTR :: p), rest.
      split; [reflexivity | split; [|split; [exact Hd | exact Hrest]]].
      constructor; [reflexivity | exact Hben].
    + apply Z.eqb_neq in He.
      exists [], (Errno e :: s).
      repeat split; [constructor | right; eauto].
Qed.

(** X11: when [randombytes_sysrandom_buf] returns and when it aborts, read
    off the script.  For [0 < size < SIZE_MAX], with [w1] the world after
    the lazy initialisation: when the source delivers at least [size] bytes
    before its first end of file or error other than [EINTR], [buf] returns
    and the object holds the first [size] of them; when it delivers fewer,
    [buf] aborts, whatever the source would have delivered after that end
    of file or error. *)
Theorem buf_returns_iff_enough (w w1 : world) (buf : list byte) (size : Z) :
  randombytes_sysrandom_stir w = Returned (tt, w1) ->
  0 < size < SIZE_MAX ->
  size <= Z.of_nat (length buf) ->
  (size <= Z.of_nat (length (available (read_script (os w1)))) ->
   exists o',
     randombytes_sysrandom_buf buf size w =
       Returned (firstn (Z.to_nat size) (available (read_script (os w1)))
                   ++ skipn (Z.to_nat size) buf,
                 mkWorld (stream w1) o')) /\
  (Z.of_nat (length (available (read_script (os w1)))) < size ->
   randombytes_sysrandom_buf buf size w = Aborted).
Proof.
  intros Hstir Hsize Hfit.
  destruct (available_split (read_script (os w1)))
    as (p & rest & Hs & Hben & Hd & Hrest).
  rewrite <- Hd. unfold SIZE_MAX in Hsize.
  assert (Hsize' : 0 <= size <= SIZE_MAX) by (unfold SIZE_MAX; lia).
  split; intros Hlen.
  - destruct (safe_read_delivers (random_data_source_fd (stream w1)) buf size p rest
                (os w1) Hs Hben) as [o' Ho']; try assumption; try lia.
    exists o'. rewrite (buf_after_safe_read _ _ _ _ _ _ _ Hstir Hsize' Ho').
    rewrite Z.eqb_refl. reflexivity.
  - destruct Hrest as [Heof|(e & more & -> & He)].
    + eapply buf_eof_aborts; eassumption.
    + eapply (proj1 (buf_read_error w w1 buf size p e more Hstir Hs Hben He
                       Hsize' Hlen Hfit)).
      unfold SIZE_MAX. lia.
Qed.

Lemma buf_returns_iff_enough_witness :
  (exists o',
     randombytes_sysrandom_buf [x00; x00; x00; x00; xaa] 4 (example_world example_flaky) =
       Returned (firstn (Z.to_nat 4)
                   (available (read_script (os (example_ready example_flaky))))
                   ++ skipn (Z.to_nat 4) [x00; x00; x00; x00; xaa],
                 mkWorld (stream (example_ready example_flaky)) o')) /\
  randombytes_sysrandom_buf [x00; x00; x00; x00; xaa] 5 (example_world example_flaky)
    = Aborted.
Proof.
  split.
  - apply (proj1 (buf_returns_iff_enough (example_world example_flaky)
                    (example_ready example_flaky) [x00; x00; x00; x00; xaa] 4
                    eq_refl ltac:(unfold SIZE_MAX; lia) ltac:(cbn; lia))).
    cbn. lia.
  - apply (proj2 (buf_returns_iff_enough (example_world example_flaky)
                    (example_ready example_flaky) [x00; x00; x00; x00; xaa] 5
                    eq_refl ltac:(unfold SIZE_MAX; lia) ltac:(cbn; lia))).
    cbn. lia.
Defined.

(** Interruptions at the head of the script are read past. *)
Lemma safe_read_loop_skip_eintr fd mem off count (s : list read_event) :
  Forall (fun ev => ev = Errno EINTR) s ->
  forall rest o, read_script o = s ++ rest ->
  exists e,
    safe_read_loop fd mem off count o =
    safe_read_loop fd mem off count (set_errno (set_read_script o rest) e).
Proof.
  induction 1 as [|ev s Hev _ IH]; intros rest o Hs.
  - cbn [app] in Hs. exists (errno o). now rewrite (set_read_script_same _ _ Hs).
  - subst ev. cbn [app] in Hs.
    rewrite (safe_read_loop_eintr _ _ _ _ _ _ Hs).
    destruct (IH rest (set_errno (set_read_script o (s ++ rest)) EINTR) eq_refl)
      as [e He].
    exists e. rewrite He. reflexivity.
Qed.

(** X12: a request of no bytes is not a no-op.  [randombytes_sysrandom_buf
    (buf, 0)] still makes its [read] (after any interrupted ones): when
    that [read] fails with an error other than [EINTR] the process aborts;
    when it meets bytes or the end of the file, [buf] returns, the object
    is as it was and no byte of the stream is used. *)
Theorem buf_zero_size (w w1 : world) (buf : list byte) (s rest : list read_event) :
  randombytes_sysrandom_stir w = Returned (tt, w1) ->
  read_script (os w1) = s ++ rest ->
  Forall (fun ev => ev = Errno EINTR) s ->
  (forall e more, rest = Errno e :: more -> e <> EINTR ->
     randombytes_sysrandom_buf buf 0 w = Aborted) /\
  (forall bs more, rest = [] \/ rest = Deliver bs :: more ->
     exists o',
       randombytes_sysrandom_buf buf 0 w = Returned (buf, mkWorld (stream w1) o') /\
       delivered (read_script o') = delivered (read_script (os w1))).
Proof.
  intros Hstir Hs Hint.
  destruct (safe_read_loop_skip_eintr (random_data_source_fd (stream w1)) buf 0 0
              s Hint rest (os w1) Hs) as [e0 He0].
  assert (Hsize : 0 <= 0 <= SIZE_MAX) by (unfold SIZE_MAX; lia).
  assert (Hdel : delivered (read_script (os w1)) = delivered rest).
  { rewrite Hs. clear -Hint. induction Hint as [|ev s Hev _ IH]; [reflexivity|].
    subst ev. exact IH. }
  split.
  - intros e more -> He.
    rewrite (safe_read_loop_error _ _ _ _
               (set_errno (set_read_script (os w1) (Errno e :: more)) e0) e more)
      in He0 by (reflexivity || assumption).
    rewrite (buf_after_safe_read _ _ _ _ _ _ _ Hstir Hsize He0). reflexivity.
  - intros bs more Hrest.
    assert (Hread : exists o',
      safe_read_loop (random_data_source_fd (stream w1)) buf 0 0
        (set_errno (set_read_script (os w1) rest) e0) = (0, buf, o') /\
      delivered (read_script o') = delivered rest).
    { rewrite safe_read_loop_step. destruct Hrest as [->| ->].
      - rewrite read_retry_step. unfold sys_read. cbn.
        eexists. split; reflexivity.
      - erewrite read_retry_deliver by reflexivity.
        assert (Hz : read_amount 0 bs = 0).
        { unfold read_amount, to_size_t, SSIZE_MAX. rewrite Z.mod_0_l by lia. lia. }
        rewrite Hz. cbn [Z.to_nat firstn skipn]. rewrite store_nil. cbn.
        eexists. split; [reflexivity|].
        destruct bs; reflexivity. }
    destruct Hread as (o' & Ho' & Hd').
    rewrite Ho' in He0.
    exists o'. rewrite (buf_after_safe_read _ _ _ _ _ _ _ Hstir Hsize He0).
    split; [reflexivity | congruence].
Qed.

Lemma buf_zero_size_witness :
  randombytes_sysrandom_buf [xaa] 0 (example_world [Errno EINTR; Errno EINVAL; Deliver [x01]])
    = Aborted /\
  exists o',
    randombytes_sysrandom_buf [xaa] 0 (example_world [Errno EINTR; Deliver [x01]])
      = Returned ([xaa], mkWorld (stream (example_ready [Errno EINTR; Deliver [x01]])) o') /\
    delivered (read_script o')
      = delivered (read_script (os (example_ready [Errno EINTR; Deliver [x01]]))).
Proof.
  split.
  - apply (proj1 (buf_zero_size (example_world [Errno EINTR; Errno EINVAL; Deliver [x01]])
                    (example_ready [Errno EINTR; Errno EINVAL; Deliver [x01]])
                    [xaa] [Errno EINTR] [Errno EINVAL; Deliver [x01]]
                    eq_refl eq_refl ltac:(repeat constructor))
             EINVAL [Deliver [x01]] eq_refl).
    unfold EINVAL, EINTR. lia.
  - apply (proj2 (buf_zero_size (example_world [Errno EINTR; Deliver [x01]])
                    (example_ready [Errno EINTR; Deliver [x01]])
                    [xaa] [Errno EINTR] [Deliver [x01]]
                    eq_refl eq_refl ltac:(repeat constructor))
             [x01] []).
    right. reflexivity.
Defined.

(* ------------------------------------------------------------------ *)
(** ** Further properties: the Windows build *)

Lemma win32_stir_if_needed_stir (ww : Win32.world) :
  Win32.randombytes_sysrandom_stir_if_needed ww = Win32.randombytes_sysrandom_stir ww.
Proof.
  unfold Win32.randombytes_sysrandom_stir_if_needed, bind, Win32.get_stream.
  destruct (Win32.initialized (Win32.stream ww)) eqn:Hi; cbn [negb]; [|reflexivity].
  now rewrite Win32.win32_stir_initialized.
Qed.

Lemma win32_stir_gen_script (ww : Win32.world) u ww' :
  Win32.randombytes_sysrandom_stir ww = Returned (u, ww') ->
  Win32.gen_script (Win32.os ww') = Win32.gen_script (Win32.os ww).
Proof.
  destruct (Win32.initialized (Win32.stream ww)) eqn:Hi.
  - rewrite Win32.win32_stir_initialized by assumption.
    intros H; inversion H; reflexivity.
  - rewrite Win32.win32_stir_uninitialized by assumption.
    unfold Win32.CryptAcquireContext.
    destruct (Win32.acquire_script (Win32.os ww)) as [|[h|] rest];
      intros H; inversion H; reflexivity.
Qed.

(** X13: [randombytes_sysrandom_buf] of the Windows build makes one
    [CryptGenRandom] call and returns only when it succeeded.  The bytes
    filled are the first of the object, the others are as they were, and
    their number is [size] as a [DWORD]: [size] itself up to [UINT32_MAX];
    where [size_t] is wider, a larger size is cut to its low 32 bits and
    only that many bytes are filled. *)
Theorem win32_buf_fills (ww ww' : Win32.world) (buf buf' : list byte) (size : Z) :
  0 <= size <= SIZE_MAX ->
  size <= Z.of_nat (length buf) ->
  Win32.randombytes_sysrandom_buf buf size ww = Returned (buf', ww') ->
  exists rnd,
    Win32.gen_script (Win32.os ww)
      = Win32.Generated rnd :: Win32.gen_script (Win32.os ww') /\
    buf' = map rnd (seq 0 (Z.to_nat (to_uint32 size)))
             ++ skipn (Z.to_nat (to_uint32 size)) buf /\
    length buf' = length buf /\
    (size <= UINT32_MAX -> to_uint32 size = size) /\
    Win32.initialized (Win32.stream ww') = true.
Proof.
  intros Hsize Hfit.
  unfold Win32.randombytes_sysrandom_buf, bind. rewrite win32_stir_if_needed_stir.
  destruct (Win32.randombytes_sysrandom_stir ww) as [[[] w1]|] eqn:Hs; [|discriminate].
  unfold assert_. destruct (size <=? ULONG_LONG_MAX); [|discriminate].
  unfold ret, Win32.get_stream, Win32.syscall, Win32.CryptGenRandom, abort.
  rewrite <- (win32_stir_gen_script _ _ _ Hs).
  pose proof (Win32.win32_stir_sets_flag _ _ _ Hs) as Hflag.
  assert (Hn : 0 <= to_uint32 size <= size).
  { unfold to_uint32. pose proof (Z.mod_pos_bound size (2 ^ 32) ltac:(lia)).
    pose proof (Z.mod_le size (2 ^ 32) ltac:(lia) ltac:(lia)). lia. }
  destruct (Win32.gen_script (Win32.os w1)) as [|[rnd|] rest]; cbn [fst snd negb];
    try discriminate.
  intros H; inversion H; subst; clear H. cbn [Win32.os Win32.stream Win32.gen_script].
  exists rnd. rewrite store_at_start, length_map, length_seq.
  split; [reflexivity | split; [reflexivity | split; [|split; [|exact Hflag]]]].
  - rewrite length_app, length_map, length_seq, length_skipn. lia.
  - intros Hle. unfold to_uint32, UINT32_MAX in *. apply Z.mod_small. lia.
Qed.

(** A Windows host whose provider is yet to be acquired. *)
Definition example_win32_fresh (acquires : list (option Z))
    (gens : list Win32.gen_event) : Win32.world :=
  Win32.mkWorld (Win32.mkSysRandom 0 (-1) false) (Win32.mkOS acquires [] gens).

Lemma win32_buf_fills_witness :
  exists rnd,
    Win32.gen_script (Win32.os (example_win32_fresh [Some 7] [Win32.Generated (fun _ => x2a)]))
      = Win32.Generated rnd
        :: Win32.gen_script (Win32.os (Win32.mkWorld (Win32.mkSysRandom 7 (-1) true)
                                         (Win32.mkOS [] [] []))) /\
    [x2a; x2a; xaa] = map rnd (seq 0 (Z.to_nat (to_uint32 2)))
                        ++ skipn (Z.to_nat (to_uint32 2)) [x00; x00; xaa] /\
    length [x2a; x2a; xaa] = length [x00; x00; xaa] /\
    (2 <= UINT32_MAX -> to_uint32 2 = 2) /\
    Win32.initialized (Win32.stream (Win32.mkWorld (Win32.mkSysRandom 7 (-1) true)
                                       (Win32.mkOS [] [] []))) = true.
Proof.
  apply (win32_buf_fills (example_win32_fresh [Some 7] [Win32.Generated (fun _ => x2a)])
           (Win32.mkWorld (Win32.mkSysRandom 7 (-1) true) (Win32.mkOS [] [] []))
           [x00; x00; xaa] [x2a; x2a; xaa] 2).
  - unfold SIZE_MAX. lia.
  - cbn. lia.
  - vm_compute. reflexivity.
Defined.

(** X14: failures of the Windows host are fatal.  On a provider that is
    not initialised, when [CryptAcquireContext] fails, [stir] and
    [randombytes_sysrandom_buf] abort; and whenever the [CryptGenRandom]
    call of [randombytes_sysrandom_buf] reports failure, the process
    aborts, whatever the size: nothing is returned as random that the host
    did not generate. *)
Theorem win32_failures_abort (ww : Win32.world) :
  (Win32.initialized (Win32.stream ww) = false ->
   fst (Win32.CryptAcquireContext (Win32.os ww)) = None ->
   Win32.randombytes_sysrandom_stir ww = Aborted /\
   forall b size, Win32.randombytes_sysrandom_buf b size ww = Aborted) /\
  (forall b size,
     Win32.gen_script (Win32.os ww) = [] \/
     (exists more, Win32.gen_script (Win32.os ww) = Win32.GenFailed :: more) ->
     Win32.randombytes_sysrandom_buf b size ww = Aborted).
Proof.
  split.
  - intros Hi Hacq.
    assert (Hstir : Win32.randombytes_sysrandom_stir ww = Aborted).
    { rewrite (Win32.win32_stir_uninitialized _ Hi).
      destruct (Win32.CryptAcquireContext (Win32.os ww)) as [[h|] o'];
        [discriminate | reflexivity]. }
    split; [exact Hstir|]. intros b size.
    unfold Win32.randombytes_sysrandom_buf, bind.
    now rewrite win32_stir_if_needed_stir, Hstir.
  - intros b size Hgen.
    destruct (Win32.randombytes_sysrandom_stir ww) as [[[] w1]|] eqn:Hs.
    + apply (Win32.win32_buf_gen_failure ww w1 b size Hs).
      rewrite (win32_stir_gen_script _ _ _ Hs). exact Hgen.
    + unfold Win32.randombytes_sysrandom_buf, bind.
      now rewrite win32_stir_if_needed_stir, Hs.
Qed.

Lemma win32_failures_abort_witness :
  Win32.randombytes_sysrandom_stir (example_win32_fresh [None; Some 7] []) = Aborted /\
  Win32.randombytes_sysrandom_buf [x00] 1
    (example_win32_fresh [Some 7] [Win32.GenFailed; Win32.Generated (fun _ => x2a)])
    = Aborted.
Proof.
  split.
  - apply (proj1 (win32_failures_abort (example_win32_fresh [None; Some 7] []))
             eq_refl eq_refl).
  - apply (proj2 (win32_failures_abort
                    (example_win32_fresh [Some 7]
                       [Win32.GenFailed; Win32.Generated (fun _ => x2a)]))
             [x00] 1).
    right. eexists. reflexivity.
Defined.

(* ------------------------------------------------------------------ *)
(** ** Rejection sampling against uniformly distributed samples *)

(** The byte of value [z mod 2^8]. *)
Definition byte_of (z : Z) : byte :=
  match Byte.of_N (Z.to_N (z mod 2 ^ 8)) with
  | Some b => b
  | None => x00
  end.

(** The four bytes of a [uint32_t] object of value [r] on a little-endian
    host. *)
Definition bytes_of_uint32 (r : Z) : list byte :=
  [byte_of r; byte_of (r / 2 ^ 8); byte_of (r / 2 ^ 16); byte_of (r / 2 ^ 24)].

(** An initialised provider on a little-endian host whose entropy device is
    going to deliver the samples [rs], four bytes a read, and is at its end
    after them. *)
Definition sample_world (rs : list Z) : world :=
  example_ready (map (fun r => Deliver (bytes_of_uint32 r)) rs).

(** The number of samples a call of [randombytes_sysrandom_uniform] draws
    from the source of samples [rs], read off the run of the function: the
    samples gone from the source when the call returns, and all of them
    when the call has used them up and aborts for want of one more. *)
Definition draws_made (upper_bound : Z) (rs : list Z) : nat :=
  match randombytes_sysrandom_uniform upper_bound (sample_world rs) with
  | Returned (_, w') => length rs - length (read_script (os w'))
  | Aborted => length rs
  end.

(** Whether the call rejects the sample [r], read off the run of the
    function on the source that has [r] and nothing else: the call returns
    when [r] is accepted, and goes for a second sample, which aborts, when
    it is not. *)
Definition rejected (upper_bound : Z) (r : Z) : bool :=
  match randombytes_sysrandom_uniform upper_bound (sample_world [r]) with
  | Returned _ => false
  | Aborted => true
  end.

(** The sum of [f 0], ..., [f (n - 1)]. *)
Fixpoint sum_below (n : nat) (f : Z -> Z) : Z :=
  match n with
  | O => 0
  | S k => sum_below k f + f (Z.of_nat k)
  end.

(** The sum of [f] over the lists of [n] values below [width]. *)
Fixpoint sum_lists (width n : nat) (f : list Z -> Z) : Z :=
  match n with
  | O => f []
  | S k => sum_below width (fun r => sum_lists width k (fun rs => f (r :: rs)))
  end.

(** The number of values of a 32-bit sample; a number to reason about,
    never to be evaluated. *)
Definition all_samples : nat := Z.to_nat (2 ^ 32).

(** How many of the 2^32 values of a sample a call rejects. *)
Definition rejected_samples (upper_bound : Z) : Z :=
  sum_below all_samples (fun r => if rejected upper_bound r then 1 else 0).

(** The draws of the call, summed over all the sources of [n] samples. *)
Definition total_draws (upper_bound : Z) (n : nat) : Z :=
  sum_lists all_samples n (fun rs => Z.of_nat (draws_made upper_bound rs)).

(** The mean number of draws of a call, the source being [n] samples that
    are independent and uniform over the 2^32 values. *)
Definition mean_draws (upper_bound : Z) (n : nat) : Q :=
  inject_Z (total_draws upper_bound n) / inject_Z ((2 ^ 32) ^ Z.of_nat n).

Lemma byte_val_byte_of (z : Z) : byte_val (byte_of z) = z mod 2 ^ 8.
Proof.
  unfold byte_val, byte_of.
  pose proof (Z.mod_pos_bound z (2 ^ 8) ltac:(lia)) as Hz.
  destruct (Byte.of_N (Z.to_N (z mod 2 ^ 8))) as [b|] eqn:Hb.
  - apply Byte.to_of_N in Hb. rewrite Hb. lia.
  - apply Byte.of_N_None_iff in Hb. lia.
Qed.

Lemma load_bytes_of_uint32 (r : Z) :
  0 <= r < 2 ^ 32 -> load_uint32 false (bytes_of_uint32 r) = r.
Proof.
  intros Hr. unfold bytes_of_uint32.
  rewrite load_uint32_4_bytes, !byte_val_byte_of.
  Z.div_mod_to_equations. lia.
Qed.

Lemma sample_world_draw (r : Z) (rs : list Z) :
  0 <= r < 2 ^ 32 ->
  randombytes_sysrandom (sample_world (r :: rs)) = Returned (r, sample_world rs).
Proof.
  intros Hr.
  assert (Hstir : randombytes_sysrandom_stir (sample_world (r :: rs))
                  = Returned (tt, sample_world (r :: rs)))
    by (apply stir_initialized; reflexivity).
  assert (Hread : safe_read (random_data_source_fd (stream (sample_world (r :: rs))))
                    uint32_object 4 (os (sample_world (r :: rs)))
                  = (to_ssize_t 4, bytes_of_uint32 r, os (sample_world rs))).
  { unfold safe_read. rewrite safe_read_loop_step.
    rewrite (read_retry_deliver _ _ _ _ _ (bytes_of_uint32 r)
               (map (fun x => Deliver (bytes_of_uint32 x)) rs)) by reflexivity.
    reflexivity. }
  unfold randombytes_sysrandom, bind. rewrite stir_if_needed_stir, Hstir.
  rewrite (buf_after_safe_read uint32_object 4 _ _ _ _ _ Hstir
             ltac:(unfold SIZE_MAX; lia) Hread).
  rewrite Z.eqb_refl. unfold get_os, ret. cbn [os sample_world example_ready big_endian].
  rewrite (load_bytes_of_uint32 r Hr). reflexivity.
Qed.

Lemma sample_world_dry : randombytes_sysrandom (sample_world []) = Aborted.
Proof. vm_compute. reflexivity. Qed.

Lemma uniform_sample_world_nil (upper_bound : Z) :
  2 <= upper_bound ->
  randombytes_sysrandom_uniform upper_bound (sample_world []) = Aborted.
Proof.
  intros Hub. unfold randombytes_sysrandom_uniform, bind.
  replace (upper_bound <? 2) with false by (symmetry; apply Z.ltb_ge; lia).
  now rewrite uniform_loop_step, sample_world_dry.
Qed.

(** One turn of the loop on a source of samples. *)
Lemma uniform_sample_world_cons (upper_bound r : Z) (rs : list Z) :
  2 <= upper_bound -> 0 <= r < 2 ^ 32 ->
  randombytes_sysrandom_uniform upper_bound (sample_world (r :: rs)) =
    if uniform_min upper_bound <=? r
    then Returned (r mod upper_bound, sample_world rs)
    else randombytes_sysrandom_uniform upper_bound (sample_world rs).
Proof.
  intros Hub Hr. unfold randombytes_sysrandom_uniform, bind, ret.
  replace (upper_bound <? 2) with false by (symmetry; apply Z.ltb_ge; lia).
  rewrite (uniform_loop_step _ (sample_world (r :: rs))), (sample_world_draw r rs Hr).
  destruct (uniform_min upper_bound <=? r); reflexivity.
Qed.

Lemma uniform_sample_world_left (upper_bound : Z) (rs : list Z) :
  2 <= upper_bound -> Forall (fun r => 0 <= r < 2 ^ 32) rs ->
  forall v w',
    randombytes_sysrandom_uniform upper_bound (sample_world rs) = Returned (v, w') ->
    (length (read_script (os w')) <= length rs)%nat.
Proof.
  intros Hub Hrs. induction Hrs as [|r rs Hr _ IH]; intros v w' H.
  - rewrite uniform_sample_world_nil in H by assumption. discriminate.
  - rewrite uniform_sample_world_cons in H by assumption.
    destruct (uniform_min upper_bound <=? r).
    + inversion H; subst. cbn [sample_world example_ready os read_script length].
      rewrite length_map. lia.
    + specialize (IH _ _ H). cbn [length]. lia.
Qed.

Lemma draws_made_nil (upper_bound : Z) : draws_made upper_bound [] = O.
Proof.
  unfold draws_made.
  destruct (randombytes_sysrandom_uniform upper_bound (sample_world [])) as [[v w']|];
    reflexivity.
Qed.

(** The draws of a call, sample by sample: a sample that passes the test
    ends the call, one that does not is followed by the draws of the call
    on what is left of the source. *)
Lemma draws_made_cons (upper_bound r : Z) (rs : list Z) :
  2 <= upper_bound -> 0 <= r < 2 ^ 32 -> Forall (fun r => 0 <= r < 2 ^ 32) rs ->
  draws_made upper_bound (r :: rs) =
    if uniform_min upper_bound <=? r then 1%nat else S (draws_made upper_bound rs).
Proof.
  intros Hub Hr Hrs. unfold draws_made.
  rewrite uniform_sample_world_cons by assumption.
  destruct (uniform_min upper_bound <=? r).
  - cbn [sample_world example_ready os read_script length].
    rewrite length_map. lia.
  - destruct (randombytes_sysrandom_uniform upper_bound (sample_world rs))
      as [[v w']|] eqn:H; [|reflexivity].
    pose proof (uniform_sample_world_left _ _ Hub Hrs _ _ H). cbn [length]. lia.
Qed.

Lemma rejected_test (upper_bound r : Z) :
  2 <= upper_bound -> 0 <= r < 2 ^ 32 ->
  rejected upper_bound r = negb (uniform_min upper_bound <=? r).
Proof.
  intros Hub Hr. unfold rejected.
  rewrite uniform_sample_world_cons, uniform_sample_world_nil by assumption.
  destruct (uniform_min upper_bound <=? r); reflexivity.
Qed.

(** *** Sums over the values of a sample *)

Lemma sum_below_ext (n : nat) (f g : Z -> Z) :
  (forall r, 0 <= r < Z.of_nat n -> f r = g r) ->
  sum_below n f = sum_below n g.
Proof.
  induction n as [|n IH]; intros H; cbn [sum_below]; [reflexivity|].
  rewrite IH by (intros r Hr; apply H; lia).
  rewrite (H (Z.of_nat n)) by lia. reflexivity.
Qed.

Lemma sum_below_plus (n : nat) (f g : Z -> Z) :
  sum_below n (fun r => f r + g r) = sum_below n f + sum_below n g.
Proof.
  induction n as [|n IH]; cbn [sum_below]; [reflexivity|]. rewrite IH. lia.
Qed.

(** A function with one value from the threshold [m] on and another below
    it. *)
Lemma sum_below_threshold (n : nat) (m a b : Z) :
  0 <= m <= Z.of_nat n ->
  sum_below n (fun r => if m <=? r then a else b) = (Z.of_nat n - m) * a + m * b.
Proof.
  induction n as [|n IH]; intros Hm; cbn [sum_below].
  - replace m with 0 by lia. cbn. lia.
  - destruct (m <=? Z.of_nat n) eqn:E.
    + apply Z.leb_le in E. rewrite IH by lia. lia.
    + apply Z.leb_gt in E.
      assert (Hall : sum_below n (fun r => if m <=? r then a else b)
                     = sum_below n (fun _ => b)).
      { apply sum_below_ext. intros r Hr.
        replace (m <=? r) with false by (symmetry; apply Z.leb_gt; lia). reflexivity. }
      rewrite Hall. clear IH Hall.
      assert (Hconst : forall k, sum_below k (fun _ => b) = Z.of_nat k * b).
      { induction k as [|k IHk]; cbn [sum_below]; [lia | rewrite IHk; lia]. }
      rewrite Hconst. replace m with (Z.of_nat n + 1) by lia. lia.
Qed.

Lemma sum_lists_ext (width n : nat) : forall f g : list Z -> Z,
  (forall rs, Forall (fun r => 0 <= r < Z.of_nat width) rs -> f rs = g rs) ->
  sum_lists width n f = sum_lists width n g.
Proof.
  induction n as [|n IH]; intros f g H; cbn [sum_lists].
  - apply H. constructor.
  - apply sum_below_ext. intros r Hr. apply IH.
    intros rs Hrs. apply H. constructor; assumption.
Qed.

Lemma sum_lists_plus (width n : nat) : forall f g : list Z -> Z,
  sum_lists width n (fun rs => f rs + g rs)
  = sum_lists width n f + sum_lists width n g.
Proof.
  induction n as [|n IH]; intros f g; cbn [sum_lists]; [reflexivity|].
  rewrite <- sum_below_plus. apply sum_below_ext. intros r _. apply IH.
Qed.

(** There are [width ^ n] lists of [n] values below [width]. *)
Lemma sum_lists_one (width n : nat) :
  sum_lists width n (fun _ => 1) = Z.of_nat width ^ Z.of_nat n.
Proof.
  induction n as [|n IH]; cbn [sum_lists]; [reflexivity|].
  rewrite (sum_below_ext _ _ (fun r => if 0 <=? r then Z.of_nat width ^ Z.of_nat n else 0)).
  - rewrite sum_below_threshold by lia.
    rewrite Nat2Z.inj_succ, Z.pow_succ_r by lia. lia.
  - intros r Hr. rewrite IH.
    replace (0 <=? r) with true by (symmetry; apply Z.leb_le; lia). reflexivity.
Qed.

Lemma all_samples_eq : Z.of_nat all_samples = 2 ^ 32.
Proof. unfold all_samples. apply Z2Nat.id. lia. Qed.

(** *** The numbers of the call *)

Lemma rejected_samples_eq (upper_bound : Z) :
  2 <= upper_bound -> upper_bound <= UINT32_MAX ->
  rejected_samples upper_bound = uniform_min upper_bound.
Proof.
  intros Hlo Hhi.
  destruct (uniform_min_bound upper_bound Hlo Hhi) as [[H0 _] H31].
  unfold rejected_samples.
  rewrite (sum_below_ext _ _ (fun r => if uniform_min upper_bound <=? r then 0 else 1)).
  - rewrite sum_below_threshold by (rewrite all_samples_eq; lia). lia.
  - intros r Hr. rewrite all_samples_eq in Hr.
    rewrite rejected_test by assumption.
    destruct (uniform_min upper_bound <=? r); reflexivity.
Qed.

Lemma total_draws_zero (upper_bound : Z) : total_draws upper_bound 0 = 0.
Proof. unfold total_draws. cbn [sum_lists]. now rewrite draws_made_nil. Qed.

(** One more sample in the source: every source draws its first sample,
    and the [min] first samples that are rejected are followed by the draws
    on the rest.  First for any number [width] that is 2^32. *)
Lemma sum_draws_succ (width : nat) (upper_bound : Z) (n : nat) :
  Z.of_nat width = 2 ^ 32 ->
  2 <= upper_bound -> upper_bound <= UINT32_MAX ->
  sum_lists width (S n) (fun rs => Z.of_nat (draws_made upper_bound rs)) =
    Z.of_nat width ^ Z.of_nat (S n)
    + uniform_min upper_bound
      * sum_lists width n (fun rs => Z.of_nat (draws_made upper_bound rs)).
Proof.
  intros HW Hlo Hhi.
  destruct (uniform_min_bound upper_bound Hlo Hhi) as [[H0 _] H31].
  assert (Hin : forall rs, Forall (fun r => 0 <= r < Z.of_nat width) rs ->
                           Forall (fun r => 0 <= r < 2 ^ 32) rs).
  { intros rs Hrs. rewrite HW in Hrs. exact Hrs. }
  cbn [sum_lists].
  set (T := sum_lists width n (fun rs => Z.of_nat (draws_made upper_bound rs))).
  rewrite (sum_below_ext _ _
             (fun r => if uniform_min upper_bound <=? r
                       then Z.of_nat width ^ Z.of_nat n
                       else Z.of_nat width ^ Z.of_nat n + T)).
  - rewrite sum_below_threshold by lia.
    rewrite Nat2Z.inj_succ, Z.pow_succ_r by lia. lia.
  - intros r Hr. rewrite HW in Hr.
    destruct (uniform_min upper_bound <=? r) eqn:E.
    + rewrite <- sum_lists_one.
      apply sum_lists_ext. intros rs Hrs.
      rewrite draws_made_cons, E by auto. reflexivity.
    + rewrite <- sum_lists_one. unfold T.
      rewrite <- sum_lists_plus.
      apply sum_lists_ext. intros rs Hrs.
      rewrite draws_made_cons, E by auto. lia.
Qed.

Lemma total_draws_succ (upper_bound : Z) (n : nat) :
  2 <= upper_bound -> upper_bound <= UINT32_MAX ->
  total_draws upper_bound (S n) =
    (2 ^ 32) ^ Z.of_nat (S n) + uniform_min upper_bound * total_draws upper_bound n.
Proof.
  intros Hlo Hhi. unfold total_draws.
  rewrite (sum_draws_succ all_samples upper_bound n all_samples_eq Hlo Hhi).
  rewrite all_samples_eq. reflexivity.
Qed.

Lemma total_draws_bound (upper_bound : Z) (n : nat) :
  2 <= upper_bound -> upper_bound <= UINT32_MAX ->
  0 <= total_draws upper_bound n <= 2 * (2 ^ 32) ^ Z.of_nat n.
Proof.
  intros Hlo Hhi.
  destruct (uniform_min_bound upper_bound Hlo Hhi) as [[H0 _] H31].
  induction n as [|n IH].
  - rewrite total_draws_zero. cbn. lia.
  - rewrite total_draws_succ by assumption.
    rewrite Nat2Z.inj_succ, Z.pow_succ_r by lia.
    assert (0 < (2 ^ 32) ^ Z.of_nat n) by (apply Z.pow_pos_nonneg; lia).
    nia.
Qed.

(** The mean of the draws obeys the recurrence of [expected_draws]. *)
Lemma mean_draws_expected (upper_bound : Z) (n : nat) :
  2 <= upper_bound -> upper_bound <= UINT32_MAX ->
  (mean_draws upper_bound n == expected_draws upper_bound n)%Q.
Proof.
  intros Hlo Hhi. unfold mean_draws.
  induction n as [|n IH]; cbn [expected_draws].
  - rewrite total_draws_zero. reflexivity.
  - rewrite <- IH. rewrite total_draws_succ by assumption.
    rewrite Nat2Z.inj_succ, Z.pow_succ_r by lia.
    assert (Hpos : 0 < (2 ^ 32) ^ Z.of_nat n) by (apply Z.pow_pos_nonneg; lia).
    set (U := (2 ^ 32) ^ Z.of_nat n) in *.
    set (T := total_draws upper_bound n).
    assert (HU : ~ (inject_Z U == 0)%Q).
    { intros HU0. apply (Qeq_bool_neq (inject_Z U) 0); [|exact HU0].
      unfold Qeq_bool, inject_Z; cbn. apply Z.eqb_neq. lia. }
    unfold rejection_probability.
    rewrite inject_Z_plus, !inject_Z_mult.
    change (uniform_min upper_bound # 2 ^ 32)%Q
      with (uniform_min upper_bound # 4294967296)%Q.
    rewrite (Qmake_Qdiv (uniform_min upper_bound) 4294967296).
    change (inject_Z (Z.pos 4294967296)) with (inject_Z (2 ^ 32)).
    field. split; [exact HU | discriminate].
Qed.

(** C6: for every [upper_bound >= 2] the threshold [min] is below 2^31.
    Of the 2^32 values of a sample, the call of
    [randombytes_sysrandom_uniform] rejects exactly those below [min]
    ([rejected], read off the run of the function), so a sample uniform
    over its values is rejected with probability [min / 2^32], below one
    half.  With a source of [n] independent uniform samples, the mean of
    the number of draws of a call ([mean_draws], read off the run of the
    function, a call that uses up the source counting its [n] draws) is
    [1 + p + ... + p^(n-1)] for that probability [p], and at most 2,
    whatever [n] and [upper_bound]: the expected number of draws of a call
    is at most 2. *)
Theorem uniform_expected_draws (upper_bound : Z) :
  2 <= upper_bound -> upper_bound <= UINT32_MAX ->
  uniform_min upper_bound < 2 ^ 31 /\
  count_rejected upper_bound (Z.to_nat (2 ^ 32)) = Z.to_nat (uniform_min upper_bound) /\
  (rejection_probability upper_bound == Z.of_nat (count_rejected upper_bound (Z.to_nat (2 ^ 32))) # 2 ^ 32)%Q /\
  (rejection_probability upper_bound < 1 # 2)%Q /\
  (forall n, (expected_draws upper_bound n <= 2)%Q) /\
  (forall r rs, 0 <= r < 2 ^ 32 ->
     randombytes_sysrandom (sample_world (r :: rs)) = Returned (r, sample_world rs)) /\
  (forall r, 0 <= r < 2 ^ 32 ->
     rejected upper_bound r = true <-> r < uniform_min upper_bound) /\
  rejected_samples upper_bound = uniform_min upper_bound /\
  (inject_Z (rejected_samples upper_bound) / inject_Z (2 ^ 32)
   == rejection_probability upper_bound)%Q /\
  (forall r rs, 0 <= r < 2 ^ 32 -> Forall (fun x => 0 <= x < 2 ^ 32) rs ->
     draws_made upper_bound (r :: rs) =
       if rejected upper_bound r then S (draws_made upper_bound rs) else 1%nat) /\
  (forall n, (mean_draws upper_bound n == expected_draws upper_bound n)%Q) /\
  (forall n, (mean_draws upper_bound n * (1 - rejection_probability upper_bound)
              == 1 - qpower (rejection_probability upper_bound) n)%Q) /\
  (forall n, (mean_draws upper_bound n <= 2)%Q).
Proof.
  intros Hlo Hhi.
  destruct (uniform_min_bound upper_bound Hlo Hhi) as [[H0 Hub] H31].
  destruct (rejection_probability_bound upper_bound Hlo Hhi) as [Hp0 Hp].
  assert (Hcount : count_rejected upper_bound (Z.to_nat (2 ^ 32))
                   = Z.to_nat (uniform_min upper_bound)).
  { unfold count_rejected. rewrite count_below by assumption. lia. }
  assert (Hrej : forall r, 0 <= r < 2 ^ 32 ->
                 rejected upper_bound r = negb (uniform_min upper_bound <=? r))
    by (intros r Hr; apply rejected_test; assumption).
  split; [exact H31|]. split; [exact Hcount|].
  split; [|split; [exact Hp|]].
  { rewrite Hcount. unfold rejection_probability.
    rewrite Z2Nat.id by assumption. reflexivity. }
  split; [intros n; apply expected_draws_bound; assumption|].
  split; [intros r rs Hr; apply sample_world_draw; exact Hr|].
  split.
  { intros r Hr. rewrite (Hrej r Hr).
    destruct (uniform_min upper_bound <=? r) eqn:E; cbn [negb].
    - apply Z.leb_le in E. split; [discriminate | lia].
    - apply Z.leb_gt in E. split; [intros _; exact E | reflexivity]. }
  split; [apply rejected_samples_eq; assumption|].
  split.
  { rewrite rejected_samples_eq by assumption. unfold rejection_probability.
    change (uniform_min upper_bound # 2 ^ 32)%Q
      with (uniform_min upper_bound # 4294967296)%Q.
    rewrite (Qmake_Qdiv (uniform_min upper_bound) 4294967296). reflexivity. }
  split.
  { intros r rs Hr Hrs. rewrite draws_made_cons, (Hrej r Hr) by assumption.
    destruct (uniform_min upper_bound <=? r); reflexivity. }
  split; [intros n; apply mean_draws_expected; assumption|].
  split.
  { intros n. rewrite mean_draws_expected by assumption.
    apply expected_draws_closed. }
  intros n. rewrite mean_draws_expected by assumption.
  apply expected_draws_bound; assumption.
Qed.

Lemma uniform_expected_draws_witness :
  uniform_min 10 < 2 ^ 31 /\
  count_rejected 10 (Z.to_nat (2 ^ 32)) = Z.to_nat (uniform_min 10) /\
  (rejection_probability 10 == Z.of_nat (count_rejected 10 (Z.to_nat (2 ^ 32))) # 2 ^ 32)%Q /\
  (rejection_probability 10 < 1 # 2)%Q /\
  (forall n, (expected_draws 10 n <= 2)%Q) /\
  (forall r rs, 0 <= r < 2 ^ 32 ->
     randombytes_sysrandom (sample_world (r :: rs)) = Returned (r, sample_world rs)) /\
  (forall r, 0 <= r < 2 ^ 32 -> rejected 10 r = true <-> r < uniform_min 10) /\
  rejected_samples 10 = uniform_min 10 /\
  (inject_Z (rejected_samples 10) / inject_Z (2 ^ 32) == rejection_probability 10)%Q /\
  (forall r rs, 0 <= r < 2 ^ 32 -> Forall (fun x => 0 <= x < 2 ^ 32) rs ->
     draws_made 10 (r :: rs) = if rejected 10 r then S (draws_made 10 rs) else 1%nat) /\
  (forall n, (mean_draws 10 n == expected_draws 10 n)%Q) /\
  (forall n, (mean_draws 10 n * (1 - rejection_probability 10)
              == 1 - qpower (rejection_probability 10) n)%Q) /\
  (forall n, (mean_draws 10 n <= 2)%Q).
Proof.
  apply (uniform_expected_draws 10).
  - lia.
  - unfold UINT32_MAX. lia.
Defined.

(** The samples of the seventh claim as a source: the call draws two of
    the four, the first being one of the six values it rejects. *)
Example draws_made_10 :
  draws_made 10 [0x00000000; 0xFFFFFFFF; 0x00000003; 0x00000009] = 2%nat /\
  rejected 10 0x00000000 = true /\ rejected 10 0xFFFFFFFF = false /\
  rejected 10 5 = true /\ rejected 10 6 = false.
Proof. vm_compute. repeat split. Qed.
